(** * wscpp: the WebSocket client of [wsclient.cpp]

    A shallow embedding of the client half of wscpp: the frame encoder of
    [client::send], the blocking reader [client_pimpl::recv], the receive
    loop [client_pimpl::recv_thread] with its reassembly buffer, the
    dispatcher [client_pimpl::parse_ws_message], the thread body started by
    the constructor, and the response parser and checks of
    [client_pimpl::send_handshake].

    Conventions.  A C++ [std::string] holding wire data is a [list Z] of
    bytes (each in 0..255); a [std::string] holding HTTP text is a [string].
    Fixed-width integers are [Z] with the wrap-around written out.  The
    socket is a script of the results of successive [::recv] calls and a
    script of the results of successive [::send] calls; what the client
    does to the outside world is appended to a trace. *)

From Stdlib Require Import ZArith List String Ascii Lia Bool.
From stdpp Require Import base strings gmap list.

Open Scope Z_scope.

(** ** Fixed-width casts *)

Definition uint8 (x : Z) : Z := x mod 256.
Definition uint32 (x : Z) : Z := x mod 2 ^ 32.
Definition uint64 (x : Z) : Z := x mod 2 ^ 64.

(** ** Opcodes

    [enum opcode] is cast to and from [uint8_t] by the code, so an opcode is
    its numeric value. *)

Definition opcode := Z.

(** The enumerators of [enum opcode] are declared in [wscpp.h], of which
    [wsclient.cpp] only shows the names [close], [ping], [pong] and
    [invalid].  The spec gives opcodes the values 0x0-0xF of the wire format
    (RFC 6455, section 5.2), and names continuation, text and binary as
    well. *)

(** Modelled from the spec: the continuation opcode of [wscpp.h]'s
    [enum opcode], wire value 0x0. *)
Definition op_continuation : opcode := 0.

(** Modelled from the spec: [opcode::text] of [wscpp.h], wire value 0x1. *)
Definition op_text : opcode := 1.

(** Modelled from the spec: [opcode::binary] of [wscpp.h], wire value 0x2. *)
Definition op_binary : opcode := 2.

(** Modelled from the spec: [opcode::close] of [wscpp.h], wire value 0x8. *)
Definition op_close : opcode := 8.

(** Modelled from the spec: [opcode::ping] of [wscpp.h], wire value 0x9. *)
Definition op_ping : opcode := 9.

(** Modelled from the spec: [opcode::pong] of [wscpp.h], wire value 0xA. *)
Definition op_pong : opcode := 10.

(** ** Errors, socket scripts and the trace *)

(** [errno] values tested by [recv] (the POSIX branch of the source). *)
Definition EWOULDBLOCK : Z := 11.
Definition ECONNRESET : Z := 104.

(** The [runtime_error]s thrown after the handshake, by what they report. *)
Inductive exn :=
| RecvFailed (err : Z)        (* "recv failed (<err>)." *)
| SendFailed (err : Z)        (* "send failed (error <err>)" *)
| SendShort (ret len : Z).    (* "send sent <ret> bytes, expected <len>" *)

(** What one [::recv (sock, buf, left, 0)] call finds: data waiting in the
    socket (the call returns at most [left] bytes of it and leaves the rest),
    the end of the stream (the call returns 0), or an error (the call returns
    -1 and sets [errno]).  A script that has run out is a stream that ended. *)
Inductive recv_event :=
| RData (bs : list Z)
| REof
| RErr (err : Z).

(** What one [::send] call does: takes all the bytes it is asked for and
    can take in one call, takes the first [n] of them only, or fails with
    [errno].  A script that has run out takes everything. *)
Inductive send_event :=
| SFull
| SShort (n : nat)
| SErr (err : Z).

(** Effects visible outside the client. *)
Inductive event :=
| SendRaw (bs : list Z)                     (* bytes one [::send] call put on the wire *)
| Handler (op : opcode) (payload : list Z)  (* [msg_handler (parent, payload, op)] *)
| Disconnect (except : option exn).         (* [disconn_handler (parent, except)] *)

(** ** The connection object *)

Record client_pimpl := mk_client {
  open : bool;
  last_opcode : opcode;
  payloadbuf : list Z;
  msg_handler : bool;       (* is a message handler registered? *)
  disconn_handler : bool;   (* is a disconnect handler registered? *)
  sock_in : list recv_event;
  sock_out : list send_event;
  trace : list event
}.

Definition set_open (b : bool) (c : client_pimpl) : client_pimpl :=
  mk_client b (last_opcode c) (payloadbuf c) (msg_handler c) (disconn_handler c)
            (sock_in c) (sock_out c) (trace c).
Definition set_last_opcode (o : opcode) (c : client_pimpl) : client_pimpl :=
  mk_client (open c) o (payloadbuf c) (msg_handler c) (disconn_handler c)
            (sock_in c) (sock_out c) (trace c).
Definition set_payloadbuf (b : list Z) (c : client_pimpl) : client_pimpl :=
  mk_client (open c) (last_opcode c) b (msg_handler c) (disconn_handler c)
            (sock_in c) (sock_out c) (trace c).
Definition set_sock_in (s : list recv_event) (c : client_pimpl) : client_pimpl :=
  mk_client (open c) (last_opcode c) (payloadbuf c) (msg_handler c) (disconn_handler c)
            s (sock_out c) (trace c).
Definition set_sock_out (s : list send_event) (c : client_pimpl) : client_pimpl :=
  mk_client (open c) (last_opcode c) (payloadbuf c) (msg_handler c) (disconn_handler c)
            (sock_in c) s (trace c).
Definition log (e : event) (c : client_pimpl) : client_pimpl :=
  mk_client (open c) (last_opcode c) (payloadbuf c) (msg_handler c) (disconn_handler c)
            (sock_in c) (sock_out c) (trace c ++ [e]).

(** ** A monad for member functions

    A member function runs on the connection object and either returns a
    value, leaves the receive loop through one of its [if (!open) break;]
    exits, or throws.  Whatever it did to the object before stays done. *)

Inductive res (A : Type) :=
| Val (a : A)
| Break
| Throw (e : exn).
Arguments Val {A} a.
Arguments Break {A}.
Arguments Throw {A} e.

Definition M (A : Type) : Type := client_pimpl -> res A * client_pimpl.

Definition ret {A} (a : A) : M A := fun c => (Val a, c).

Definition bind {A B} (m : M A) (k : A -> M B) : M B :=
  fun c =>
    match m c with
    | (Val a, c') => k a c'
    | (Break, c') => (Break, c')
    | (Throw e, c') => (Throw e, c')
    end.

Notation "x <~ m ;; k" := (bind m (fun x => k))
  (at level 100, m at next level, k at level 200, right associativity).
Notation "m ;;; k" := (bind m (fun _ => k))
  (at level 100, k at level 200, right associativity).

Definition throw {A} (e : exn) : M A := fun c => (Throw e, c).
Definition modify (f : client_pimpl -> client_pimpl) : M unit := fun c => (Val tt, f c).

(** [if (!open) break;] *)
Definition break_unless_open : M unit :=
  fun c => if open c then (Val tt, c) else (Break, c).

(** ** Sending: [send_raw] and [client::send] *)

(** [(int)x]: the low 32 bits of [x] as a signed number. *)
Definition int32 (x : Z) : Z :=
  let m := x mod 2 ^ 32 in if m <? 2 ^ 31 then m else m - 2 ^ 32.

(** The most one [::send] takes: Linux cuts the count of a call to
    [MAX_RW_COUNT], which is [INT_MAX] rounded down to a page of 4096
    bytes. *)
Definition MAX_RW_COUNT : Z := 2 ^ 31 - 4096.

(** How many bytes of [s] the call [::send (sock, s.data (), (int)s.length (), 0)]
    takes when the socket takes all it can: the count it is asked for is
    the length cast to [int] and converted to the [size_t] of the parameter
    (a negative [int] becomes a count beyond the string), and what one call
    takes of it is at most [MAX_RW_COUNT].  This is never more than [s]
    holds, and less when [s] holds more than [MAX_RW_COUNT] bytes. *)
Definition send_count (s : list Z) : nat :=
  Z.to_nat (Z.min (uint64 (int32 (Z.of_nat (length s)))) MAX_RW_COUNT).

(** [client_pimpl::send_raw] with [timeout == 0], the only way the receive
    loop calls it: one [::send]; -1 throws, and so does a count [ret] short
    of the length of the string, after [ret] bytes have gone out. *)
Definition send_raw (s : list Z) : M unit :=
  fun c =>
    let sent (ret : nat) (c1 : client_pimpl) :=
      if (ret <? length s)%nat
      then (Throw (SendShort (Z.of_nat ret) (Z.of_nat (length s))),
            log (SendRaw (take ret s)) c1)
      else (Val tt, log (SendRaw s) c1) in
    match sock_out c with
    | [] => sent (send_count s) c
    | SFull :: out => sent (send_count s) (set_sock_out out c)
    | SErr err :: out => (Throw (SendFailed err), set_sock_out out c)
    | SShort n :: out => sent (Nat.min n (send_count s)) (set_sock_out out c)
    end.

(** The [header] string [client::send] builds for a payload of [len] bytes. *)
Definition send_header (op : opcode) (len : Z) : list Z :=
  let h0 := Z.lor 0x80 (Z.land (uint8 op) 0xf) in
  if len <=? 125 then
    [h0; Z.lor 0x80 (uint8 len); 0; 0; 0; 0]
  else if len <? 0x10000 then
    [h0; 0xfe; Z.shiftr (Z.land len 0xff00) 8; Z.land len 0xff; 0; 0; 0; 0]
  else
    [h0; 0xff;
     uint8 (Z.shiftr (Z.land len 0xff00000000000000) 56);
     uint8 (Z.shiftr (Z.land len 0xff000000000000) 48);
     uint8 (Z.shiftr (Z.land len 0xff0000000000) 40);
     uint8 (Z.shiftr (Z.land len 0xff00000000) 32);
     uint8 (Z.shiftr (Z.land len 0xff000000) 24);
     uint8 (Z.shiftr (Z.land len 0xff0000) 16);
     uint8 (Z.shiftr (Z.land len 0xff00) 8);
     uint8 (Z.land len 0xff);
     0; 0; 0; 0].

(** [client::send]: the header, then the payload, as two [send_raw] calls. *)
Definition send (payload : list Z) (op : opcode) : M unit :=
  send_raw (send_header op (Z.of_nat (length payload))) ;;;
  send_raw payload.

(** ** Receiving: [client_pimpl::recv] *)

(** How the [do ... while (left > 0)] loop of [recv] ends. *)
Inductive recv_end :=
| RecvFull (s : list Z)     (* [left] reached 0: the buffer is full *)
| RecvZero                  (* a [::recv] returned 0 *)
| RecvError (err : Z).      (* a [::recv] returned -1, [errno] not EWOULDBLOCK *)

(** The loop, one [::recv] per event of the script.  [got] is what the buffer
    holds so far and [left] what is still missing ([left > 0] whenever the
    loop body runs).  EWOULDBLOCK takes the [continue]; a call that finds
    more than [left] bytes returns [left] of them and leaves the others in
    the socket. *)
Fixpoint recv_loop (sock : list recv_event) (left : nat) (got : list Z)
  : recv_end * list recv_event :=
  match sock with
  | [] => (RecvZero, [])
  | REof :: sock' => (RecvZero, sock')
  | RErr err :: sock' =>
      if err =? EWOULDBLOCK then recv_loop sock' left got
      else (RecvError err, sock')
  | RData bs :: sock' =>
      match bs with
      | [] => (RecvZero, sock')
      | _ :: _ =>
          if (length bs <? left)%nat
          then recv_loop sock' (left - length bs) (got ++ bs)
          else (RecvFull (got ++ take left bs),
                if (length bs =? left)%nat then sock'
                else RData (drop left bs) :: sock')
      end
  end.

(** The buffer size [recv] settles on: [if (len == 0) len = 4096;]. *)
Definition recv_size (len : Z) : nat :=
  Z.to_nat (if len =? 0 then 4096 else len).

(** [client_pimpl::recv (unsigned int len)].  A zero-length read and
    ECONNRESET both clear [open] and return the empty string; any other
    error left by the loop throws. *)
Definition recv (len : Z) : M (list Z) :=
  fun c =>
    match recv_loop (sock_in c) (recv_size len) [] with
    | (RecvFull s, sock') => (Val s, set_sock_in sock' c)
    | (RecvZero, sock') => (Val [], set_open false (set_sock_in sock' c))
    | (RecvError err, sock') =>
        if err =? ECONNRESET
        then (Val [], set_open false (set_sock_in sock' c))
        else (Throw (RecvFailed err), set_sock_in sock' c)
    end.

(** ** The receive loop: [client_pimpl::recv_thread] *)

(** What one pass of the loop has decoded when it reaches line 749. *)
Record frame := mk_frame {
  fr_fin : bool;
  fr_opcode : opcode;
  fr_payload : list Z
}.

(** [header[i]] on a string that may be too short: the model reads 0 there
    (the loop only indexes strings [recv] returned in full). *)
Definition byte_at (s : list Z) (i : nat) : Z := nth i s 0.

(** The big-endian value the loop accumulates from the bytes of [extlen]:
    [len <<= 8; len |= (uint8_t)extlen[i]] from a start of 0. *)
Definition be_value (extlen : list Z) : Z :=
  fold_left (fun len b => Z.lor (Z.shiftl len 8) (uint8 b)) extlen 0.

(** [payload[i] ^= mask_key[i % 4]] for every [i]. *)
Definition unmask (mask_key payload : list Z) : list Z :=
  imap (fun i b => Z.lxor b (byte_at mask_key (i mod 4))) payload.

(** Lines 690-747: read the two header bytes, the extended length, the mask
    key and the payload, leaving through [break] as soon as [open] is found
    false, and unmask the payload. *)
Definition read_frame : M frame :=
  header <~ recv 2 ;;
  break_unless_open ;;;
  let fin := negb (Z.land (byte_at header 0) 0x80 =? 0) in
  let op := uint8 (Z.land (byte_at header 0) 0xf) in
  let mask := negb (Z.land (byte_at header 1) 0x80 =? 0) in
  let len7 := Z.land (byte_at header 1) 0x7f in
  len <~ (if len7 =? 126 then
            extlen <~ recv 2 ;;
            break_unless_open ;;;
            ret (be_value extlen)
          else if len7 =? 127 then
            extlen <~ recv 8 ;;
            break_unless_open ;;;
            ret (uint64 (be_value extlen))
          else ret len7) ;;
  mask_key <~ (if mask then
                 k <~ recv 4 ;;
                 break_unless_open ;;;
                 ret k
               else ret []) ;;
  payload <~ (if len =? 0 then ret [] else recv (uint32 len)) ;;
  break_unless_open ;;;
  ret (mk_frame fin op (if mask then unmask mask_key payload else payload)).

Section Client.

(** The value of [opcode::invalid].  It is declared in [wscpp.h] together
    with the other enumerators and the spec gives no value for it, so it
    stays a parameter of the receive loop. *)
Variable invalid : opcode.

(** [client_pimpl::parse_ws_message]. *)
Definition parse_ws_message (op : opcode) (payload : list Z) : M unit :=
  if op =? op_close then
    modify (set_open false)
  else
    (if op =? op_ping then send payload op_pong else ret tt) ;;;
    (fun c => if msg_handler c
              then (Val tt, log (Handler op payload) c)
              else (Val tt, c)).

(** Lines 749-758: the reassembly step that ends one pass of the loop. *)
Definition handle_frame (f : frame) : M unit :=
  fun c =>
    if negb (fr_fin f) then
      let c1 := if negb (fr_opcode f =? invalid)
                then set_last_opcode (fr_opcode f) c else c in
      (Val tt, set_payloadbuf (payloadbuf c1 ++ fr_payload f) c1)
    else if negb (length (payloadbuf c) =? 0)%nat then
      (parse_ws_message (last_opcode c) (payloadbuf c ++ fr_payload f) ;;;
       modify (set_payloadbuf [])) c
    else
      parse_ws_message (fr_opcode f) (fr_payload f) c.

(** One pass of [while (open) { ... }]. *)
Definition recv_thread_pass : M unit :=
  f <~ read_frame ;;
  handle_frame f.

(** [recv_thread]: the loop, with a bound on the number of passes.  [None]
    means the bound was too small; [recv_thread] below picks one that
    never is. *)
Fixpoint recv_thread_loop (passes : nat) (c : client_pimpl)
  : option (res unit * client_pimpl) :=
  if open c then
    match passes with
    | O => None
    | S passes' =>
        match recv_thread_pass c with
        | (Val _, c') => recv_thread_loop passes' c'
        | (Break, c') => Some (Val tt, c')
        | (Throw e, c') => Some (Throw e, c')
        end
    end
  else Some (Val tt, c).

(** Every pass that returns takes something out of the socket script. *)
Definition weight (sock : list recv_event) : nat :=
  fold_right (fun ev n => match ev with
                          | RData bs => S (length bs + n)
                          | _ => S n
                          end)%nat O sock.

Definition recv_thread (c : client_pimpl) : option (res unit * client_pimpl) :=
  recv_thread_loop (S (weight (sock_in c))) c.

(** The body of the thread the constructor starts (lines 133-146): run the
    loop, catch whatever it throws, clear [open], and tell the disconnect
    handler if there is one. *)
Definition thread_main (c : client_pimpl) : option client_pimpl :=
  match recv_thread c with
  | None => None
  | Some (r, c') =>
      let except := match r with Throw e => Some e | _ => None end in
      let c'' := set_open false c' in
      Some (if disconn_handler c'' then log (Disconnect except) c'' else c'')
  end.

End Client.



(** ** Socket scripts that deliver a given byte stream

    [delivers sock bs]: the script [sock] hands over exactly the bytes [bs],
    cut into non-empty chunks in any way, with would-block results strewn
    in between. *)
Inductive delivers : list recv_event -> list Z -> Prop :=
| delivers_nil : delivers [] []
| delivers_data b bs sock rest :
    delivers sock rest -> delivers (RData (b :: bs) :: sock) ((b :: bs) ++ rest)
| delivers_block sock rest :
    delivers sock rest -> delivers (RErr EWOULDBLOCK :: sock) rest.


(** ** A connection fresh out of the constructor

    [open] is true, the reassembly buffer is empty and both handlers are
    registered.  [last_opcode] gets no value in the constructor, so whatever
    it holds is a parameter, like the two socket scripts. *)
Definition connected (last : opcode) (sock : list recv_event) (out : list send_event)
  : client_pimpl :=
  mk_client true last [] true true sock out [].

(** The bytes of a text. *)
Fixpoint bytes_of_string (s : string) : list Z :=
  match s with
  | EmptyString => []
  | String a s' => Z.of_N (N_of_ascii a) :: bytes_of_string s'
  end.

(** ** Runs of the receive loop, frame by frame

    [passes invalid c fs c']: started on [c], the loop of [recv_thread]
    makes [length fs] passes that run to their end, decoding the frames [fs]
    in this order, and stands at the loop test again on [c']. *)
Inductive passes (invalid : opcode) : client_pimpl -> list frame -> client_pimpl -> Prop :=
| passes_done c : passes invalid c [] c
| passes_next c f c1 c2 fs c3 :
    open c = true ->
    read_frame c = (Val f, c1) ->
    handle_frame invalid f c1 = (Val tt, c2) ->
    passes invalid c2 fs c3 ->
    passes invalid c (f :: fs) c3.

(** ** Vocabulary for the properties *)

(** [reads_only c c']: [c'] is [c] after some reading: nothing but [open]
    and the inbound socket differs, and the socket script got no heavier. *)
Definition reads_only (c c' : client_pimpl) : Prop :=
  c' = set_open (open c') (set_sock_in (sock_in c') c)
  /\ (weight (sock_in c') <= weight (sock_in c))%nat.

(** [sends_only c c']: [c'] is [c] after some [::send] calls: the outbound
    script moved on and the trace grew by [SendRaw] events. *)
Definition is_send (e : event) : Prop :=
  match e with SendRaw _ => True | _ => False end.

Definition sends_only (c c' : client_pimpl) : Prop :=
  exists sent,
    c' = mk_client (open c) (last_opcode c) (payloadbuf c) (msg_handler c)
                   (disconn_handler c) (sock_in c) (sock_out c') (trace c ++ sent)
    /\ Forall is_send sent.

(** A member function keeps a relation between the object before and after,
    however it ends. *)
Definition preserves {A} (R : client_pimpl -> client_pimpl -> Prop) (m : M A) : Prop :=
  forall c r c', m c = (r, c') -> R c c'.

(** Whatever returns through a final [open] test returns with [open] set. *)
Definition val_open {A} (m : M A) : Prop :=
  forall c a c', m c = (Val a, c') -> open c' = true.

(** How the loop of [recv_thread] ends once its complete passes are over:
    the loop test finds [open] cleared, or one more pass leaves through a
    [break] or throws. *)
Definition last_pass (invalid : opcode) (c1 : client_pimpl) (r : res unit)
  (c' : client_pimpl) : Prop :=
  (open c1 = false /\ r = Val tt /\ c' = c1)
  \/ (open c1 = true
      /\ ((recv_thread_pass invalid c1 = (Break, c') /\ r = Val tt)
          \/ (exists e, recv_thread_pass invalid c1 = (Throw e, c') /\ r = Throw e))).

(** The number of bytes a pass of the loop reads for the frame that starts
    with the bytes [bs], as far as [bs] tells: the two header bytes; then
    the extended length they announce; then the mask key and the payload
    that header and extended length announce. *)
Definition frame_needs (bs : list Z) : nat :=
  if (length bs <? 2)%nat then 2%nat
  else
    let len7 := Z.land (byte_at bs 1) 0x7f in
    let ext := if len7 =? 126 then 2%nat else if len7 =? 127 then 8%nat else 0%nat in
    if (length bs <? 2 + ext)%nat then (2 + ext)%nat
    else
      let len := if len7 =? 126 then be_value (take 2 (drop 2 bs))
                 else if len7 =? 127 then uint64 (be_value (take 8 (drop 2 bs)))
                 else len7 in
      let key := if negb (Z.land (byte_at bs 1) 0x80 =? 0) then 4%nat else 0%nat in
      let body := if len =? 0 then 0%nat else recv_size (uint32 len) in
      (2 + ext + key + body)%nat.

(** The payload length the frame that starts with [bs] announces: the
    7-bit length of its second byte, or the extended length that follows. *)
Definition announced_length (bs : list Z) : Z :=
  let len7 := Z.land (byte_at bs 1) 0x7f in
  if len7 =? 126 then be_value (take 2 (drop 2 bs))
  else if len7 =? 127 then uint64 (be_value (take 8 (drop 2 bs)))
  else len7.

(** The number of bytes that frame takes on the wire: the two header
    bytes, the extended length, the mask key if the mask bit is set, and
    the payload it announces. *)
Definition frame_size (bs : list Z) : Z :=
  let len7 := Z.land (byte_at bs 1) 0x7f in
  2 + (if len7 =? 126 then 2 else if len7 =? 127 then 8 else 0)
  + (if negb (Z.land (byte_at bs 1) 0x80 =? 0) then 4 else 0)
  + announced_length bs.

(** [bs] is one whole frame, no more and no less, and the payload it
    announces is shorter than 2^32 bytes. *)
Definition is_frame (bs : list Z) : Prop :=
  Z.of_nat (length bs) = frame_size bs /\ announced_length bs < 2 ^ 32.

(** The bytes a run of trace events put on the wire. *)
Definition wire (evs : list event) : list Z :=
  flat_map (fun e => match e with SendRaw s => s | _ => [] end) evs.

(** * The opening handshake: [client_pimpl::send_handshake] *)

(** ** [std::string] operations on HTTP text

    Positions and counts are [size_t]: [Z] modulo 2^64, with [npos] the
    largest value. *)

Definition size_t (x : Z) : Z := x mod 2 ^ 64.
Definition npos : Z := 2 ^ 64 - 1.
Definition size (s : string) : Z := Z.of_nat (String.length s).

(** Does [s] start with [pat]? *)
Fixpoint starts_with (pat s : string) : bool :=
  match pat, s with
  | EmptyString, _ => true
  | String a pat', String b s' => Ascii.eqb a b && starts_with pat' s'
  | String _ _, EmptyString => false
  end.

(** The first position at or after [pos] where [pat] occurs in [s]. *)
Fixpoint find_from (pat s : string) (pos : nat) : option nat :=
  match pos, s with
  | O, EmptyString => if starts_with pat s then Some O else None
  | O, String _ s' =>
      if starts_with pat s then Some O else option_map S (find_from pat s' O)
  | S _, EmptyString => None
  | S pos', String _ s' => option_map S (find_from pat s' pos')
  end.

(** [s.find (pat, pos)]. *)
Definition find (s pat : string) (pos : Z) : Z :=
  if size s <? pos then npos
  else match find_from pat s (Z.to_nat pos) with
       | Some i => Z.of_nat i
       | None => npos
       end.

Fixpoint skip (n : nat) (s : string) : string :=
  match n, s with
  | O, _ => s
  | S _, EmptyString => EmptyString
  | S n', String _ s' => skip n' s'
  end.

Fixpoint keep (n : nat) (s : string) : string :=
  match n, s with
  | O, _ => EmptyString
  | S _, EmptyString => EmptyString
  | S n', String a s' => String a (keep n' s')
  end.

(** [s.substr (pos, count)]: the characters from [pos] on, [count] of them
    or as many as there are.  The standard function throws when [pos] is
    beyond the end; the parser below only passes positions where a [find]
    succeeded, moved right by no more than the length of what was found. *)
Definition substr (s : string) (pos count : Z) : string :=
  keep (Z.to_nat (Z.min count (size s - pos))) (skip (Z.to_nat pos) s).

(** ** [std::stoul] *)

Definition is_space (a : ascii) : bool :=
  let n := N_of_ascii a in ((n =? 32) || ((9 <=? n) && (n <=? 13)))%N.

Definition digit_of (a : ascii) : option Z :=
  let n := Z.of_N (N_of_ascii a) in
  if (48 <=? n)%Z && (n <=? 57)%Z then Some (n - 48)%Z else None.

Fixpoint skip_spaces (s : string) : string :=
  match s with
  | String a s' => if is_space a then skip_spaces s' else s
  | EmptyString => s
  end.

(** The value of the longest prefix of decimal digits, given the value
    [acc] of the digits read so far; [None] when no digit was read at all. *)
Fixpoint digits (s : string) (acc : option Z) : option Z :=
  match s with
  | String a s' =>
      match digit_of a with
      | Some d => digits s' (Some (10 * default 0 acc + d)%Z)
      | None => acc
      end
  | EmptyString => acc
  end.

(** [std::stoul (ss)] in base 10, [None] when it throws: leading white space
    is skipped, a sign is accepted, at least one digit is required, and the
    magnitude must fit 64 bits; a minus sign negates in 64 bits. *)
Definition stoul (ss : string) : option Z :=
  let s1 := skip_spaces ss in
  let '(neg, s2) :=
    match s1 with
    | String "-"%char s' => (true, s')
    | String "+"%char s' => (false, s')
    | _ => (false, s1)
    end in
  match digits s2 None with
  | None => None
  | Some v =>
      if (2 ^ 64 <=? v)%Z then None
      else Some (if neg then size_t (- v) else v)
  end.

(** ** Parsing the response *)

Definition CR : ascii := "013"%char.
Definition LF : ascii := "010"%char.
Definition CRLF : string := String CR (String LF EmptyString).

(** [headers.emplace (name, value)] on a [std::map]: nothing happens when
    the key is already there. *)
Definition emplace (name value : string) (headers : gmap string string)
  : gmap string string :=
  match headers !! name with
  | Some _ => headers
  | None => <[name := value]> headers
  end.

(** What [send_auth_response] throws (the POSIX branch). *)
Inductive auth_exn :=
| NoFqdn                       (* "Cannot do Negotiate authentication as FQDN not found." *)
| GssError (fn : string) (major minor : Z)   (* [gss_error (fn, major, minor)] *)
| AuthSendThrew (e : exn).     (* what its [send_raw] throws *)

(** What [send_handshake] throws, by message; the last is what leaves it
    from inside [send_auth_response]. *)
Inductive handshake_error :=
| SocketClosed                 (* "Socket closed unexpectedly." *)
| StoulError (ss : string)     (* "Error calling stoul on ..." *)
| BadStatus (status : Z)       (* "Server returned HTTP status ..., expected 101." *)
| MalformedResponse            (* "Malformed response." *)
| InvalidAccept                (* "Invalid value for Sec-WebSocket-Accept." *)
| AuthFailed (e : auth_exn).

(** The locals of the parsing loop (lines 496-500). *)
Record parser := mk_parser {
  p_first : bool;
  p_nl : Z;
  p_nl2 : Z;
  p_headers : gmap string string;
  p_status : Z
}.

(** The body of the [do ... while (nl != string::npos)] loop, lines 503-531. *)
Definition parse_line (mess : string) (p : parser) : handshake_error + parser :=
  let nl := p_nl p in
  let nl2 := p_nl2 p in
  let next status headers :=
    let nl2' := size_t (nl + 2) in
    mk_parser false (find mess CRLF nl2') nl2' headers status in
  if p_first p then
    let space := find mess " "%string 0 in
    if negb (space =? npos)%Z && (space <=? nl)%Z then
      let space2 := find mess " "%string (size_t (space + 1)) in
      let ss := if (space2 =? npos)%Z || (nl <? space2)%Z
                then substr mess (size_t (space + 1)) (size_t (nl - space - 1))
                else substr mess (size_t (space + 1)) (size_t (space2 - space - 1)) in
      match stoul ss with
      | Some v => inr (next (uint32 v) (p_headers p))
      | None => inl (StoulError ss)
      end
    else inr (next (p_status p) (p_headers p))
  else
    let colon := find mess ": "%string nl2 in
    inr (next (p_status p)
           (if negb (colon =? npos)%Z
            then emplace (substr mess nl2 (size_t (colon - nl2)))
                         (substr mess (size_t (colon + 2)) (size_t (nl - colon - 2)))
                         (p_headers p)
            else p_headers p)).

(** The loop, with a bound on the number of lines; [None] means the bound
    was too small. *)
Fixpoint parse_lines (lines : nat) (mess : string) (p : parser)
  : option (handshake_error + parser) :=
  match lines with
  | O => None
  | S lines' =>
      match parse_line mess p with
      | inl e => Some (inl e)
      | inr p' =>
          if (p_nl p' =? npos)%Z then Some (inr p') else parse_lines lines' mess p'
      end
  end.

(** Lines 496-532: status and headers of the response [mess]. *)
Definition parse_response (mess : string)
  : option (handshake_error + Z * gmap string string) :=
  match parse_lines (S (String.length mess)) mess
          (mk_parser true (find mess CRLF 0) 0 ∅ 0) with
  | None => None
  | Some (inl e) => Some (inl e)
  | Some (inr p) => Some (inr (p_status p, p_headers p))
  end.

(** ** SHA-1 and base64

    [sha1] and [b64encode] are declared in [sha1.h] and [b64.h], and
    [wsclient.cpp] only calls them.  The spec names them as the SHA-1 digest
    (20 bytes) and the base64 encoding of RFC 6455's accept computation, so
    they are written here after FIPS 180-1 and RFC 4648. *)

Definition w32 (x : Z) : Z := x mod 2 ^ 32.

Definition rotl (n x : Z) : Z :=
  w32 (Z.lor (Z.shiftl x n) (Z.shiftr x (32 - n))).

(** Big-endian bytes of [x], [n] of them. *)
Fixpoint be_bytes (n : nat) (x : Z) : list Z :=
  match n with
  | O => []
  | S n' => be_bytes n' (x / 256) ++ [x mod 256]
  end.

(** Modelled from the spec: the padding of [sha1] ([sha1.h]), after FIPS
    180-1: the message followed by the bit 1, zeros up to 56 modulo 64
    bytes, and the length in bits as 64 bits. *)
Definition sha1_pad (msg : list Z) : list Z :=
  let len := Z.of_nat (length msg) in
  msg ++ [0x80] ++ repeat 0 (Z.to_nat ((55 - len) mod 64)) ++ be_bytes 8 (8 * len).

Fixpoint chunks (size count : nat) (l : list Z) : list (list Z) :=
  match count with
  | O => []
  | S count' => take size l :: chunks size count' (drop size l)
  end.

(** Modelled from the spec: the message schedule of [sha1] ([sha1.h]), last
    word first: each new word is the rotated XOR of the words 3, 8, 14 and
    16 places back. *)
Fixpoint sha1_expand (n : nat) (ws : list Z) : list Z :=
  match n with
  | O => ws
  | S n' =>
      let w := rotl 1 (Z.lxor (Z.lxor (nth 2 ws 0) (nth 7 ws 0))
                              (Z.lxor (nth 13 ws 0) (nth 15 ws 0))) in
      sha1_expand n' (w :: ws)
  end.

Definition sha1_schedule (block : list Z) : list Z :=
  rev (sha1_expand 64 (rev (map be_value (chunks 4 16 block)))).

(** Modelled from the spec: one of the 80 steps of [sha1] ([sha1.h]) on the
    five working words, with the function and constant of its round. *)
Definition sha1_round (st : Z * Z * Z * Z * Z) (tw : nat * Z) : Z * Z * Z * Z * Z :=
  let '(a, b, c, d, e) := st in
  let '(t, w) := tw in
  let '(f, k) :=
    if (t <? 20)%nat then
      (Z.lor (Z.land b c) (Z.land (Z.lxor b 0xffffffff) d), 0x5a827999)
    else if (t <? 40)%nat then
      (Z.lxor (Z.lxor b c) d, 0x6ed9eba1)
    else if (t <? 60)%nat then
      (Z.lor (Z.lor (Z.land b c) (Z.land b d)) (Z.land c d), 0x8f1bbcdc)
    else
      (Z.lxor (Z.lxor b c) d, 0xca62c1d6) in
  (w32 (rotl 5 a + f + e + k + w), a, rotl 30 b, c, d).

Definition sha1_block (h : Z * Z * Z * Z * Z) (block : list Z) : Z * Z * Z * Z * Z :=
  let '(h0, h1, h2, h3, h4) := h in
  let '(a, b, c, d, e) :=
    fold_left sha1_round (combine (seq 0 80) (sha1_schedule block)) h in
  (w32 (h0 + a), w32 (h1 + b), w32 (h2 + c), w32 (h3 + d), w32 (h4 + e)).

(** Modelled from the spec: [sha1] of [sha1.h], the SHA-1 digest of a byte
    string as 20 bytes. *)
Definition sha1 (msg : list Z) : list Z :=
  let padded := sha1_pad msg in
  let '(h0, h1, h2, h3, h4) :=
    fold_left sha1_block (chunks 64 (length padded / 64) padded)
      (0x67452301, 0xefcdab89, 0x98badcfe, 0x10325476, 0xc3d2e1f0) in
  be_bytes 4 h0 ++ be_bytes 4 h1 ++ be_bytes 4 h2 ++ be_bytes 4 h3 ++ be_bytes 4 h4.

Definition b64_alphabet : string :=
  "ABCDEFGHIJKLMNOPQRSTUVWXYZabcdefghijklmnopqrstuvwxyz0123456789+/".

Definition b64_char (x : Z) : ascii :=
  match String.get (Z.to_nat (x mod 64)) b64_alphabet with
  | Some a => a
  | None => "="%char
  end.

(** Modelled from the spec: [b64encode] of [b64.h], the base64 text of a
    byte string, with padding. *)
Fixpoint b64encode (l : list Z) : string :=
  match l with
  | [] => EmptyString
  | [a] =>
      String (b64_char (a / 4))
        (String (b64_char (a mod 4 * 16)) "=="%string)
  | [a; b] =>
      String (b64_char (a / 4))
        (String (b64_char (a mod 4 * 16 + b / 16))
           (String (b64_char (b mod 16 * 4)) "="%string))
  | a :: b :: c :: l' =>
      String (b64_char (a / 4))
        (String (b64_char (a mod 4 * 16 + b / 16))
           (String (b64_char (b mod 16 * 4 + c / 64))
              (String (b64_char (c mod 64)) (b64encode l'))))
  end.

(** ** The checks on one response *)

Definition MAGIC_STRING : string := "258EAFA5-E914-47DA-95CA-C5AB0DC85B11".

(** The value [Sec-WebSocket-Accept] is compared with. *)
Definition expected_accept (key : string) : string :=
  b64encode (sha1 (bytes_of_string (key +:+ MAGIC_STRING))).

(** How one turn of the outer loop of [send_handshake] ends when it does not
    throw: [again] set (with the scheme and token [send_auth_response] was
    called with, if it was called), or the upgrade accepted. *)
Inductive turn :=
| Again (auth : option (string * string))
| Upgraded.

(** Lines 534-565 (the POSIX branch), on the parsed status and headers:
    what the turn decides.  The call of [send_auth_response] that [Again]
    with a scheme and a token stands for is made by the loops below. *)
Definition check_response (key : string) (status : Z) (headers : gmap string string)
  : handshake_error + turn :=
  match (if status =? 401 then headers !! "WWW-Authenticate"%string else None) with
  | Some h =>
      let st := find h " " 0 in
      let auth_type := if st =? npos then h else substr h 0 st in
      let auth_msg := if st =? npos then EmptyString
                      else substr h (size_t (st + 1)) npos in
      inr (Again (if String.eqb auth_type "Negotiate"
                  then Some (auth_type, auth_msg) else None))
  | None =>
      if negb (status =? 101) then inl (BadStatus status)
      else
        match headers !! "Upgrade"%string, headers !! "Connection"%string,
              headers !! "Sec-WebSocket-Accept"%string with
        | Some upgrade, Some connection, Some accept =>
            if negb (String.eqb upgrade "websocket")
               || negb (String.eqb connection "Upgrade")
            then inl MalformedResponse
            else if negb (String.eqb accept (expected_accept key))
            then inl InvalidAccept
            else inr Upgraded
        | _, _, _ => inl MalformedResponse
        end
  end.

(** One turn: parse the response, then check it. *)
Definition handshake_turn (key mess : string) : option (handshake_error + turn) :=
  match parse_response mess with
  | None => None
  | Some (inl e) => Some (inl e)
  | Some (inr (status, headers)) => Some (check_response key status headers)
  end.

(** The outer loop of [send_handshake], on the responses [recv_http] returns
    one after the other; when there are no more, [recv_http] finds the
    socket closed.  [auths] holds how the calls of [send_auth_response] end,
    one after the other: [Some e] when the call throws [e], [None] when it
    returns, as it does when the list has run out.  [inr tt] is the
    handshake accepted. *)
Fixpoint send_handshake (auths : list (option auth_exn)) (key : string)
    (responses : list string) : option (handshake_error + unit) :=
  match responses with
  | [] => Some (inl SocketClosed)
  | mess :: responses' =>
      match handshake_turn key mess with
      | None => None
      | Some (inl e) => Some (inl e)
      | Some (inr (Again None)) => send_handshake auths key responses'
      | Some (inr (Again (Some _))) =>
          match auths with
          | Some e :: _ => Some (inl (AuthFailed e))
          | None :: auths' => send_handshake auths' key responses'
          | [] => send_handshake [] key responses'
          end
      | Some (inr Upgraded) => Some (inr tt)
      end
  end.

(** ** Response texts

    A response as a server writes it: a status line of protocol, status
    code and reason, then one line per header, then an empty line. *)

Definition header_line (h : string * string) : string :=
  fst h +:+ ": " +:+ snd h +:+ CRLF.

Fixpoint render_headers (hs : list (string * string)) : string :=
  match hs with
  | [] => EmptyString
  | h :: hs' => header_line h +:+ render_headers hs'
  end.

Definition status_line (proto code reason : string) : string :=
  proto +:+ " " +:+ code +:+ " " +:+ reason.

Definition response_text (proto code reason : string) (hs : list (string * string))
  : string :=
  status_line proto code reason +:+ CRLF +:+ render_headers hs +:+ CRLF.

(** [pat] does not occur in [s]. *)
Definition lacks (pat s : string) : Prop := find_from pat s 0 = None.

(** A header a server can write on one line: no ": " inside the name, no
    line break inside name, separator and value. *)
Definition header_ok (h : string * string) : Prop :=
  lacks ": " (fst h) /\ lacks CRLF (fst h +:+ ": " +:+ snd h).

(** The map the parser builds from the header lines [hs], in order. *)
Definition emplace_all (hs : list (string * string)) (headers : gmap string string)
  : gmap string string :=
  fold_left (fun m h => emplace (fst h) (snd h) m) hs headers.

(** The value of the first header of [hs] whose name is exactly [name]. *)
Fixpoint first_value (name : string) (hs : list (string * string)) : option string :=
  match hs with
  | [] => None
  | h :: hs' => if String.eqb (fst h) name then Some (snd h) else first_value name hs'
  end.

(** The value of the last header of [hs] whose name is exactly [name]. *)
Definition last_value (name : string) (hs : list (string * string)) : option string :=
  first_value name (rev hs).

(** The key and the headers of the example in RFC 6455, section 1.3, around
    a given accept value, and the same response with a second accept header
    put in front. *)
Definition rfc_key : string := "dGhlIHNhbXBsZSBub25jZQ==".
Definition rfc_accept : string := "s3pPLMBiTxaQ9kYGzzhZRbK+xOo=".

Definition upgrade_headers (accept : string) : list (string * string) :=
  [("Upgrade", "websocket"); ("Connection", "Upgrade");
   ("Sec-WebSocket-Accept", accept)]%string.

Definition upgrade_response (hs : list (string * string)) : string :=
  response_text "HTTP/1.1" "101" "Switching Protocols" hs.

(** What a read makes of the event it meets before its buffer is full, when
    that event ends the read: [Some None] for a close without error (the end
    of the stream, or a connection reset), [Some (Some e)] for the error it
    throws, [None] for data and would-block, which do not end it. *)
Definition stops (ev : recv_event) : option (option exn) :=
  match ev with
  | REof | RData [] => Some None
  | RData (_ :: _) => None
  | RErr err =>
      if err =? EWOULDBLOCK then None
      else if err =? ECONNRESET then Some None
      else Some (Some (RecvFailed err))
  end.

(** * Further models *)

(** ** The frame a run of bytes holds

    The fields of the frame at the start of [bs], read off the bytes the way
    lines 690-747 read them off the socket: the FIN bit and the opcode from
    the first byte, the mask bit and the 7-bit length from the second, the
    extended length, the mask key, and as many payload bytes as the loop
    asks [recv] for.  [frame_needs bs] is the number of bytes this takes. *)
Definition frame_of (bs : list Z) : frame :=
  let fin := negb (Z.land (byte_at bs 0) 0x80 =? 0) in
  let op := uint8 (Z.land (byte_at bs 0) 0xf) in
  let mask := negb (Z.land (byte_at bs 1) 0x80 =? 0) in
  let len7 := Z.land (byte_at bs 1) 0x7f in
  let ext := if len7 =? 126 then 2%nat else if len7 =? 127 then 8%nat else 0%nat in
  let len := if len7 =? 126 then be_value (take 2 (drop 2 bs))
             else if len7 =? 127 then uint64 (be_value (take 8 (drop 2 bs)))
             else len7 in
  let mask_key := if mask then take 4 (drop (2 + ext) bs) else [] in
  let payload := if len =? 0 then []
                 else take (recv_size (uint32 len))
                        (drop (2 + ext + (if mask then 4 else 0)) bs) in
  mk_frame fin op (if mask then unmask mask_key payload else payload).

(** ** Vocabulary for the further properties *)

Definition is_disconnect (e : event) : Prop :=
  match e with Disconnect _ => True | _ => False end.

(** What the receive loop may add to the trace while a message handler is
    registered ([mh = true]) or not: bytes sent, and handler calls with an
    opcode other than close. *)
Definition loop_event (mh : bool) (e : event) : Prop :=
  match e with
  | SendRaw _ => True
  | Handler op _ => mh = true /\ op <> op_close
  | Disconnect _ => False
  end.

(** The reassembly state as a function of the frames decoded so far: lines
    749-758 with the dispatch left out.  A frame without FIN is appended to
    the buffer and leaves its opcode behind unless that is [invalid]; a frame
    with FIN leaves the buffer empty and the opcode alone. *)
Definition pending_buf (fs : list frame) (buf : list Z) : list Z :=
  fold_left (fun b f => if fr_fin f then [] else b ++ fr_payload f) fs buf.

Definition pending_op (invalid : opcode) (fs : list frame) (last : opcode) : opcode :=
  fold_left (fun o f => if fr_fin f then o
                        else if fr_opcode f =? invalid then o else fr_opcode f) fs last.

(** What a run of complete passes adds to the trace, as a function of the
    frames decoded, the reassembly state they meet and whether a message
    handler is registered: lines 749-758 and [parse_ws_message] for passes
    that return.  A frame without FIN adds nothing; a frame with FIN
    completes a message, which is dropped if its opcode is close, answered
    with a pong first if it is ping, and handed to the handler. *)
Fixpoint events_of (invalid : opcode) (mh : bool) (fs : list frame)
    (buf : list Z) (last : opcode) : list event :=
  match fs with
  | [] => []
  | f :: fs' =>
      if fr_fin f then
        let op := if (length buf =? 0)%nat then fr_opcode f else last in
        let payload := buf ++ fr_payload f in
        (if op =? op_close then []
         else (if op =? op_ping
               then [SendRaw (send_header op_pong (Z.of_nat (length payload)));
                     SendRaw payload]
               else [])
              ++ (if mh then [Handler op payload] else []))
        ++ events_of invalid mh fs' [] last
      else
        events_of invalid mh fs' (buf ++ fr_payload f)
          (if fr_opcode f =? invalid then last else fr_opcode f)
  end.

(** ** Sending with a timeout

    [send_raw] above is the [timeout == 0] case.  With a timeout the call is
    bracketed by two [set_send_timeout] calls, which can themselves throw.
    The object is extended by the value of the socket option and by the
    results of the [setsockopt] calls to come: [None] for success, [Some err]
    for a failure with that [errno]; when the list runs out they succeed. *)
Record timed_client := mk_timed {
  tc_client : client_pimpl;
  tc_sndtimeo : Z;
  tc_setsockopt : list (option Z)
}.

Definition with_client (c : client_pimpl) (t : timed_client) : timed_client :=
  mk_timed c (tc_sndtimeo t) (tc_setsockopt t).

(** What [send_raw] with a timeout throws: the exception of
    [set_send_timeout], or one of the [::send]. *)
Inductive timed_exn :=
| SetsockoptFailed (err : Z)   (* "setsockopt returned ..." *)
| SendRaised (e : exn).

(** [client_pimpl::set_send_timeout].  [None] is a return, [Some x] a
    throw. *)
Definition set_send_timeout (timeout : Z) (t : timed_client)
  : option timed_exn * timed_client :=
  match tc_setsockopt t with
  | [] => (None, mk_timed (tc_client t) timeout [])
  | None :: results => (None, mk_timed (tc_client t) timeout results)
  | Some err :: results =>
      (Some (SetsockoptFailed err), mk_timed (tc_client t) (tc_sndtimeo t) results)
  end.

(** [if (timeout != 0) set_send_timeout(v);] *)
Definition set_send_timeout_if (timeout v : Z) (t : timed_client)
  : option timed_exn * timed_client :=
  if timeout =? 0 then (None, t) else set_send_timeout v t.

(** [client_pimpl::send_raw (s, timeout)], lines 234-260.  An exception of
    the [::send] is caught, the timeout is reset, and the exception is
    thrown again; if the reset throws, its exception is the one that leaves
    the function. *)
Definition send_raw_timeout (s : list Z) (timeout : Z) (t : timed_client)
  : option timed_exn * timed_client :=
  match set_send_timeout_if timeout timeout t with
  | (Some x, t1) => (Some x, t1)
  | (None, t1) =>
      match send_raw s (tc_client t1) with
      | (Throw e, c') =>
          match set_send_timeout_if timeout 0 (with_client c' t1) with
          | (Some x, t2) => (Some x, t2)
          | (None, t2) => (Some (SendRaised e), t2)
          end
      | (_, c') => set_send_timeout_if timeout 0 (with_client c' t1)
      end
  end.

(** [client::send (payload, opcode, timeout)]. *)
Definition send_timeout (payload : list Z) (op : opcode) (timeout : Z) (t : timed_client)
  : option timed_exn * timed_client :=
  match send_raw_timeout (send_header op (Z.of_nat (length payload))) timeout t with
  | (Some x, t1) => (Some x, t1)
  | (None, t1) => send_raw_timeout payload timeout t1
  end.

(** The outcome of a [client_pimpl] member function as an outcome of the
    object with the socket option. *)
Definition lift_send (t : timed_client) (x : res unit * client_pimpl)
  : option timed_exn * timed_client :=
  (match fst x with Throw e => Some (SendRaised e) | _ => None end,
   with_client (snd x) t).

(** * Setting the connection up: [recv_http], [send_auth_response], [send_handshake] on the socket, and the constructor *)

From Stdlib Require DecimalString.

(** The bytes of a response as the text the parser works on:
    [string (s, bytes)]. *)
Fixpoint string_of_bytes (bs : list Z) : string :=
  match bs with
  | [] => EmptyString
  | b :: bs' => String (ascii_of_N (Z.to_N (uint8 b))) (string_of_bytes bs')
  end.

(** One [::recv (sock, s, n, flags)] on the script, for [n > 0]: the call
    returns what the next event holds, at most [n] bytes of it, and with
    [MSG_PEEK] leaves the bytes in the socket.  ([recv_http] passes
    [MSG_WAITALL] only with a count that a peek has just seen in the socket,
    where the flag changes nothing.) *)
Definition sys_recv (n : nat) (peek : bool) (sock : list recv_event)
  : recv_end * list recv_event :=
  match sock with
  | [] => (RecvZero, [])
  | REof :: sock' => (RecvZero, sock')
  | RErr err :: sock' => (RecvError err, sock')
  | RData [] :: sock' => (RecvZero, sock')
  | RData bs :: sock' =>
      (RecvFull (take n bs),
       if peek then sock
       else if (length bs <=? n)%nat then sock'
            else RData (drop n bs) :: sock')
  end.

(** What the constructor can throw once the socket is connected. *)
Inductive setup_exn :=
| Recv1Failed (err : Z)                  (* "recv 1 failed (...)." *)
| Recv2Failed                            (* "recv 2 failed." *)
| Recv4Failed                            (* "recv 4 failed." *)
| SendThrew (e : exn)                    (* what [send_raw] throws *)
| HandshakeFailed (e : handshake_error). (* what [send_handshake] throws itself *)

(** The empty line that ends a response. *)
Definition CRLFCRLF : string := CRLF +:+ CRLF.

(** [client_pimpl::recv_http], lines 262-322: peek at what the socket holds,
    append it to [buf], and look for the empty line in what was peeked; take
    the bytes up to its end out of the socket if it is there, and all the
    bytes peeked if not.  [inr] is the text returned, [inl] the exception
    thrown.  The loop has a bound on its passes; [None] means the bound was
    too small. *)
Fixpoint recv_http_loop (passes : nat) (buf : string) (c : client_pimpl)
  : option ((setup_exn + string) * client_pimpl) :=
  match passes with
  | O => None
  | S passes' =>
      match sys_recv 4096 true (sock_in c) with
      | (RecvError err, sock1) => Some (inl (Recv1Failed err), set_sock_in sock1 c)
      | (RecvZero, sock1) => Some (inr EmptyString, set_open false (set_sock_in sock1 c))
      | (RecvFull s, sock1) =>
          let chunk := string_of_bytes s in
          let buf := buf +:+ chunk in
          let endmsg := find chunk CRLFCRLF 0 in
          if negb (endmsg =? npos) then
            match sys_recv (Z.to_nat (endmsg + 4)) false sock1 with
            | (RecvError _, sock2) => Some (inl Recv2Failed, set_sock_in sock2 c)
            | (RecvZero, sock2) =>
                Some (inr EmptyString, set_open false (set_sock_in sock2 c))
            | (RecvFull _, sock2) =>
                Some (inr (substr buf 0 (size_t (find buf CRLFCRLF 0 + 4))),
                      set_sock_in sock2 c)
            end
          else
            match sys_recv (length s) false sock1 with
            | (RecvError _, sock2) => Some (inl Recv4Failed, set_sock_in sock2 c)
            | (RecvZero, sock2) =>
                Some (inr EmptyString, set_open false (set_sock_in sock2 c))
            | (RecvFull _, sock2) => recv_http_loop passes' buf (set_sock_in sock2 c)
            end
      end
  end.

Definition recv_http (c : client_pimpl)
  : option ((setup_exn + string) * client_pimpl) :=
  recv_http_loop (S (weight (sock_in c))) EmptyString c.

(** [std::to_string (port)]. *)
Definition to_string (n : Z) : string :=
  DecimalString.NilEmpty.string_of_uint (N.to_uint (Z.to_N n)).

(** The request of lines 479-484; [send_handshake] appends the empty line
    when it sends it.  The key comes from [random_key] and is a parameter. *)
Definition request (path host : string) (port : Z) (key : string) : string :=
  ("GET " +:+ path +:+ " HTTP/1.1" +:+ CRLF
   +:+ "Host: " +:+ host +:+ ":" +:+ to_string port +:+ CRLF
   +:+ "Upgrade: websocket" +:+ CRLF
   +:+ "Connection: Upgrade" +:+ CRLF
   +:+ "Sec-WebSocket-Key: " +:+ key +:+ CRLF
   +:+ "Sec-WebSocket-Version: 13" +:+ CRLF)%string.

(** ** Answering a challenge: [client_pimpl::send_auth_response]

    GSSAPI is a script like the sockets: every call of
    [send_auth_response] that gets as far as GSSAPI takes one round off it,
    which holds what [gss_acquire_cred], [gss_import_name] and
    [gss_init_sec_context] return if they are called: the major and minor
    status, the credential handle the first stores, and the token the last
    hands back.  When the script has run out the calls complete and hand
    back no token. *)

Definition GSS_S_COMPLETE : Z := 0.
Definition GSS_S_CONTINUE_NEEDED : Z := 1.

Record gss_round := mk_gss_round {
  gss_acquire_cred : Z * Z * Z;
  gss_import_name : Z * Z;
  gss_init_sec_context : Z * Z * list Z
}.

(** The members [send_auth_response] works with: [fqdn], which
    [open_connexion] sets, and [cred_handle]; and the GSSAPI script. *)
Record auth_state := mk_auth_state {
  fqdn : string;
  cred_handle : Z;
  gss : list gss_round
}.

(** The second request: the first one with an [Authorization] header for
    the token [tok], and the empty line. *)
Definition authorized_request (req auth_type : string) (tok : list Z) : list Z :=
  bytes_of_string (req +:+ "Authorization: " +:+ auth_type +:+ " "
                   +:+ b64encode tok +:+ CRLF +:+ CRLF).

(** Lines 422-473.  [gss_acquire_cred] is called when [cred_handle] is not
    0, and stores a handle there.  The token of the challenge, [auth_msg],
    goes through [b64decode] (of [b64.h], which returns for every text, as
    the spec has it) into [gss_init_sec_context] and nowhere else, and the
    answer of that call is in the script.  The result is the exception
    thrown, if any, and the members and the object after the call. *)
Definition send_auth_response (auth_type auth_msg req : string) (a : auth_state)
    (c : client_pimpl) : option auth_exn * auth_state * client_pimpl :=
  if String.eqb auth_type "Negotiate" && String.eqb (fqdn a) EmptyString then
    (Some NoFqdn, a, c)
  else
    let round := match gss a with
                 | r :: _ => r
                 | [] => mk_gss_round (GSS_S_COMPLETE, 0, cred_handle a)
                           (GSS_S_COMPLETE, 0) (GSS_S_COMPLETE, 0, [])
                 end in
    let '(major1, minor1, handle) := gss_acquire_cred round in
    let a' := mk_auth_state (fqdn a)
                (if cred_handle a =? 0 then cred_handle a else handle) (tl (gss a)) in
    if negb (cred_handle a =? 0) && negb (major1 =? GSS_S_COMPLETE) then
      (Some (GssError "gss_acquire_cred" major1 minor1), a', c)
    else
      let '(major2, minor2) := gss_import_name round in
      if negb (major2 =? GSS_S_COMPLETE) then
        (Some (GssError "gss_import_name" major2 minor2), a', c)
      else
        let '(major3, minor3, send_tok) := gss_init_sec_context round in
        if negb (major3 =? GSS_S_CONTINUE_NEEDED) && negb (major3 =? GSS_S_COMPLETE) then
          (Some (GssError "gss_init_sec_context" major3 minor3), a', c)
        else
          match send_tok with
          | [] => (None, a', c)
          | _ :: _ =>
              match send_raw (authorized_request req auth_type send_tok) c with
              | (Throw e, c') => (Some (AuthSendThrew e), a', c')
              | (_, c') => (None, a', c')
              end
          end.

(** ** [send_handshake] on the socket, and the constructor *)

(** How [send_handshake] ends on a socket: it returns or it throws. *)
Inductive handshake_end :=
| HandshakeDone
| HandshakeThrew (e : setup_exn).

(** The outer [do ... while (again)] loop of [send_handshake] on the socket:
    [recv_http], the test of [open], one turn of parsing and checks, and
    the call of [send_auth_response] where the turn asks for it, with the
    request [req] as it was first sent. *)
Fixpoint handshake_loop (turns : nat) (key req : string) (a : auth_state)
    (c : client_pimpl) : option (handshake_end * client_pimpl) :=
  match turns with
  | O => None
  | S turns' =>
      match recv_http c with
      | None => None
      | Some (inl e, c1) => Some (HandshakeThrew e, c1)
      | Some (inr mess, c1) =>
          if negb (open c1) then Some (HandshakeThrew (HandshakeFailed SocketClosed), c1)
          else
            match handshake_turn key mess with
            | None => None
            | Some (inl e) => Some (HandshakeThrew (HandshakeFailed e), c1)
            | Some (inr (Again (Some (auth_type, auth_msg)))) =>
                match send_auth_response auth_type auth_msg req a c1 with
                | (Some e, _, c2) =>
                    Some (HandshakeThrew (HandshakeFailed (AuthFailed e)), c2)
                | (None, a', c2) => handshake_loop turns' key req a' c2
                end
            | Some (inr (Again None)) => handshake_loop turns' key req a c1
            | Some (inr Upgraded) => Some (HandshakeDone, c1)
            end
      end
  end.

(** [client_pimpl::send_handshake] on the socket: send the request, then
    read responses until one is accepted or refused. *)
Definition send_handshake_on_socket (path host : string) (port : Z) (key : string)
    (a : auth_state) (c : client_pimpl) : option (handshake_end * client_pimpl) :=
  let req := request path host port key in
  match send_raw (bytes_of_string (req +:+ CRLF)) c with
  | (Throw e, c1) => Some (HandshakeThrew (SendThrew e), c1)
  | (_, c1) => handshake_loop (S (weight (sock_in c1))) key req a c1
  end.

(** The constructor from [send_handshake] on (lines 131-146), on the object
    [open_connexion] has connected, followed by the run of the thread it
    starts.  When the handshake throws, so does the constructor, and no
    thread is started. *)
Definition client_pimpl_ctor (invalid : opcode) (path host : string) (port : Z)
    (key : string) (a : auth_state) (c : client_pimpl)
  : option (handshake_end * client_pimpl) :=
  match send_handshake_on_socket path host port key a c with
  | None => None
  | Some (HandshakeDone, c1) =>
      match thread_main invalid c1 with
      | None => None
      | Some c2 => Some (HandshakeDone, c2)
      end
  | Some (x, c1) => Some (x, c1)
  end.

(** A response as [recv_http] returns it when it arrives in one read: not
    longer than the buffer of the peek, and ending with its first empty
    line. *)
Definition one_read (mess : string) : Prop :=
  (String.length mess <= 4096)%nat
  /\ exists e, find_from CRLFCRLF mess 0 = Some e /\ String.length mess = (e + 4)%nat.

(** A read the socket can deliver without an empty line in it. *)
Definition no_end_in_read (bs : list Z) : Prop :=
  bs <> [] /\ (length bs <= 4096)%nat
  /\ find_from CRLFCRLF (string_of_bytes bs) 0 = None.

(** The outcome of the handshake on a list of responses as an outcome on
    the socket. *)
Definition handshake_end_of (r : handshake_error + unit) : handshake_end :=
  match r with
  | inl e => HandshakeThrew (HandshakeFailed e)
  | inr _ => HandshakeDone
  end.

(** * Connecting: [client_pimpl::open_connexion]

    The operating system is a script here as well: [getaddrinfo] fails or
    returns a list of addresses, and each address comes with what [socket],
    [connect] and [getnameinfo] return when they are called for it. *)
Record addrinfo := mk_addrinfo {
  ai_socket : Z;                 (* the descriptor [socket] returns, or -1 *)
  ai_socket_errno : Z;
  ai_connect : Z;                (* what [connect] returns: 0, or -1 *)
  ai_connect_errno : Z;
  ai_hostname : option string    (* the name [getnameinfo] finds, if it succeeds *)
}.

(** What [open_connexion] asks of the operating system and has to give
    back. *)
Inductive os_call :=
| OsSocket (fd : Z)
| OsClose (fd : Z)
| OsFreeaddrinfo.

(** The members [open_connexion] works on, and the calls made so far. *)
Record endpoint := mk_endpoint {
  ep_sock : Z;
  ep_fqdn : string;
  ep_open : bool;
  ep_calls : list os_call
}.

Definition called (x : os_call) (e : endpoint) : endpoint :=
  mk_endpoint (ep_sock e) (ep_fqdn e) (ep_open e) (ep_calls e ++ [x]).

Definition set_sock (fd : Z) (e : endpoint) : endpoint :=
  mk_endpoint fd (ep_fqdn e) (ep_open e) (ep_calls e).

Definition set_fqdn (name : string) (e : endpoint) : endpoint :=
  mk_endpoint (ep_sock e) name (ep_open e) (ep_calls e).

Inductive connect_exn :=
| GetaddrFailed                (* "getaddr failed." *)
| SocketFailed (err : Z)       (* "socket failed (error ...)" *)
| CouldNotConnect (err : Z).   (* "Could not connect to ... (error ...)." *)

(** The [for] loop over the addresses, lines 63-96, with the local
    [wsa_error]: the exception thrown inside it if any, the value of
    [wsa_error] after it, and the object. *)
Fixpoint try_addresses (ais : list addrinfo) (wsa_error : Z) (e : endpoint)
  : option connect_exn * Z * endpoint :=
  match ais with
  | [] => (None, wsa_error, e)
  | ai :: ais' =>
      if ai_socket ai =? -1 then
        (Some (SocketFailed (ai_socket_errno ai)), wsa_error, set_sock (-1) e)
      else
        let e1 := called (OsSocket (ai_socket ai)) (set_sock (ai_socket ai) e) in
        if ai_connect ai =? -1 then
          try_addresses ais' (ai_connect_errno ai)
            (set_sock (-1) (called (OsClose (ai_socket ai)) e1))
        else
          (None, wsa_error,
           match ai_hostname ai with
           | Some hostname => set_fqdn hostname e1
           | None => e1
           end)
  end.

(** [client_pimpl::open_connexion]; [gai] is the result of [getaddrinfo],
    [None] when it fails. *)
Definition open_connexion (gai : option (list addrinfo)) (e : endpoint)
  : option connect_exn * endpoint :=
  match gai with
  | None => (Some GetaddrFailed, e)
  | Some ais =>
      match try_addresses ais 0 e with
      | (Some x, _, e1) => (Some x, called OsFreeaddrinfo e1)
      | (None, wsa_error, e1) =>
          let e2 := called OsFreeaddrinfo e1 in
          if ep_sock e2 =? -1 then (Some (CouldNotConnect wsa_error), e2)
          else (None, mk_endpoint (ep_sock e2) (ep_fqdn e2) true (ep_calls e2))
      end
  end.

(** An address that gets a socket and refuses the connection. *)
Definition refuses (ai : addrinfo) : Prop :=
  ai_socket ai <> -1 /\ ai_connect ai = -1.

(** The calls made for addresses that refuse: a socket, and its close. *)
Definition refused_calls (ais : list addrinfo) : list os_call :=
  flat_map (fun ai => [OsSocket (ai_socket ai); OsClose (ai_socket ai)]) ais.
(** * Properties *)

#[local] Hint Constructors delivers : core.

(** A script that delivers fewer bytes than [recv] still wants is read to
    its end, and the loop goes on with what follows it. *)
Lemma recv_loop_absorb pre bs :
  delivers pre bs ->
  forall rest left got,
    (length bs < left)%nat ->
    recv_loop (pre ++ rest) left got
    = recv_loop rest (left - length bs) (got ++ bs).
Proof.
  induction 1 as [|b bs sock more Hd IH|sock more Hd IH]; intros rest left got Hlt.
  - simpl. rewrite Nat.sub_0_r, app_nil_r. reflexivity.
  - rewrite length_app in Hlt.
    change ((RData (b :: bs) :: sock) ++ rest) with (RData (b :: bs) :: (sock ++ rest)).
    cbn [recv_loop].
    destruct (Nat.ltb_spec (length (b :: bs)) left) as [Hl|Hl]; [|lia].
    rewrite IH by lia. rewrite length_app.
    f_equal; [lia|]. rewrite <- app_assoc. reflexivity.
  - simpl. apply IH. assumption.
Qed.

(** A script that delivers at least the bytes [recv] wants fills the buffer
    with the first [left] of them and keeps the others for later reads. *)
Lemma recv_loop_fill pre bs :
  delivers pre bs ->
  forall rest left got,
    (0 < left <= length bs)%nat ->
    exists pre',
      recv_loop (pre ++ rest) left got = (RecvFull (got ++ take left bs), pre' ++ rest)
      /\ delivers pre' (drop left bs).
Proof.
  induction 1 as [|b bs sock more Hd IH|sock more Hd IH]; intros rest left got Hle.
  - simpl in Hle. lia.
  - change ((RData (b :: bs) :: sock) ++ rest) with (RData (b :: bs) :: (sock ++ rest)).
    cbn [recv_loop].
    destruct (Nat.ltb_spec (length (b :: bs)) left) as [Hl|Hl].
    + rewrite length_app in Hle.
      destruct (IH rest (left - length (b :: bs))%nat (got ++ b :: bs)) as (pre' & Hr & Hd'); [lia|].
      exists pre'. split.
      * rewrite Hr. rewrite take_app_ge by lia. rewrite <- app_assoc. reflexivity.
      * rewrite drop_app_ge by lia. assumption.
    + destruct (Nat.eqb_spec (length (b :: bs)) left) as [He|He].
      * exists sock. split.
        -- rewrite take_app_le by lia. reflexivity.
        -- rewrite drop_app_length' by lia. assumption.
      * exists (RData (drop left (b :: bs)) :: sock). split.
        -- rewrite take_app_le by lia. reflexivity.
        -- rewrite drop_app_le by lia.
           destruct (drop left (b :: bs)) as [|d ds] eqn:Ed.
           ++ apply (f_equal length) in Ed. rewrite length_drop in Ed. simpl in Ed, He, Hl. lia.
           ++ constructor. assumption.
  - simpl. apply IH. assumption.
Qed.

(** [recv] returns the next [recv_size len] bytes of the stream. *)
Lemma recv_fill len pre bs rest c :
  delivers pre bs ->
  sock_in c = pre ++ rest ->
  (0 < recv_size len <= length bs)%nat ->
  exists pre',
    recv len c = (Val (take (recv_size len) bs), set_sock_in (pre' ++ rest) c)
    /\ delivers pre' (drop (recv_size len) bs).
Proof.
  intros Hd Hs Hle. unfold recv. rewrite Hs.
  destruct (recv_loop_fill pre bs Hd rest (recv_size len) [] Hle) as (pre' & Hr & Hd').
  exists pre'. rewrite Hr. simpl. auto.
Qed.

(** What [recv] makes of the event that follows a stream too short to fill
    the buffer. *)
Lemma recv_short len pre bs rest c :
  delivers pre bs ->
  sock_in c = pre ++ rest ->
  (length bs < recv_size len)%nat ->
  recv len c =
    match recv_loop rest (recv_size len - length bs) bs with
    | (RecvFull s, sock') => (Val s, set_sock_in sock' c)
    | (RecvZero, sock') => (Val [], set_open false (set_sock_in sock' c))
    | (RecvError err, sock') =>
        if err =? ECONNRESET
        then (Val [], set_open false (set_sock_in sock' c))
        else (Throw (RecvFailed err), set_sock_in sock' c)
    end.
Proof.
  intros Hd Hs Hlt. unfold recv. rewrite Hs.
  rewrite (recv_loop_absorb pre bs Hd rest _ [] Hlt). reflexivity.
Qed.

(** ** Bytes and bits *)

Lemma testbit_byte_high b n : 0 <= b < 256 -> 8 <= n -> Z.testbit b n = false.
Proof.
  intros Hb Hn. destruct (Z.eq_dec b 0) as [->|Hne]; [apply Z.bits_0|].
  apply Z.bits_above_log2; [lia|].
  assert (Z.log2 b < 8); [|lia]. apply Z.log2_lt_pow2; lia.
Qed.

Lemma lor_shiftl_byte a b : 0 <= b < 256 -> Z.lor (Z.shiftl a 8) b = a * 256 + b.
Proof.
  intros Hb. rewrite Z.shiftl_mul_pow2 by lia. change (2 ^ 8) with 256.
  symmetry. apply Z.add_nocarry_lor.
  apply Z.bits_inj'. intros n Hn. rewrite Z.land_spec, Z.bits_0.
  destruct (Z.lt_ge_cases n 8) as [Hlt|Hge].
  - replace (a * 256) with (a * 2 ^ 8) by reflexivity.
    rewrite Z.mul_pow2_bits_low by lia. reflexivity.
  - rewrite (testbit_byte_high b n) by lia. apply andb_false_r.
Qed.

Lemma shiftr_land_byte x k m :
  0 <= k -> m = Z.shiftl 255 k -> Z.shiftr (Z.land x m) k = (x / 2 ^ k) mod 256.
Proof.
  intros Hk ->. rewrite Z.shiftr_land, Z.shiftr_shiftl_l by lia.
  rewrite Z.sub_diag, Z.shiftl_0_r. change 255 with (Z.ones 8).
  rewrite Z.land_ones by lia. rewrite Z.shiftr_div_pow2 by lia. reflexivity.
Qed.

Lemma land_255 x : Z.land x 255 = x mod 256.
Proof. change 255 with (Z.ones 8). rewrite Z.land_ones by lia. reflexivity. Qed.

Lemma uint8_mod x : uint8 (x mod 256) = x mod 256.
Proof. unfold uint8. apply Z.mod_mod. lia. Qed.

Lemma uint8_small x : 0 <= x < 256 -> uint8 x = x.
Proof. intros H. unfold uint8. apply Z.mod_small. assumption. Qed.

(** [0x80 | x] for a 7-bit [x]. *)
Lemma lor_128 x : 0 <= x < 128 -> Z.lor 128 x = 128 + x.
Proof.
  intros Hx. symmetry. apply Z.add_nocarry_lor.
  apply Z.bits_inj'. intros n Hn. rewrite Z.land_spec, Z.bits_0.
  change 128 with (2 ^ 7). rewrite Z.pow2_bits_eqb by lia.
  destruct (Z.eqb_spec 7 n) as [<-|Hne]; [|reflexivity].
  rewrite andb_true_l. destruct (Z.eq_dec x 0) as [->|Hx0]; [apply Z.bits_0|].
  apply Z.bits_above_log2; [lia|].
  assert (Z.log2 x < 7); [|lia]. apply Z.log2_lt_pow2; lia.
Qed.

Lemma land_128_set x : 0 <= x < 128 -> Z.land (128 + x) 128 = 128.
Proof.
  intros Hx. rewrite <- lor_128 by assumption.
  rewrite Z.land_lor_distr_l. change (Z.land 128 128) with 128.
  assert (E : Z.land x 128 = 0); [|rewrite E; reflexivity].
  apply Z.bits_inj'. intros n Hn. rewrite Z.land_spec, Z.bits_0.
  change 128 with (2 ^ 7). rewrite Z.pow2_bits_eqb by lia.
  destruct (Z.eqb_spec 7 n) as [<-|Hne]; [|apply andb_false_r].
  rewrite andb_true_r. destruct (Z.eq_dec x 0) as [->|Hx0]; [apply Z.bits_0|].
  apply Z.bits_above_log2; [lia|].
  assert (Z.log2 x < 7); [|lia]. apply Z.log2_lt_pow2; lia.
Qed.

Lemma land_127_low x : 0 <= x < 128 -> Z.land (128 + x) 127 = x.
Proof.
  intros Hx. change 127 with (Z.ones 7). rewrite Z.land_ones by lia.
  change (2 ^ 7) with 128. Z.div_mod_to_equations. lia.
Qed.

(** The first byte [client::send] writes, and what the receive loop reads
    back from it. *)
Lemma send_first_byte op :
  Z.lor 0x80 (Z.land (uint8 op) 0xf) = 128 + op mod 16.
Proof.
  unfold uint8. change 15 with (Z.ones 4). rewrite Z.land_ones by lia.
  change (2 ^ 4) with 16.
  replace ((op mod 256) mod 16) with (op mod 16) by (Z.div_mod_to_equations; lia).
  apply lor_128. Z.div_mod_to_equations. lia.
Qed.

Lemma first_byte_fin x : 0 <= x < 16 -> negb (Z.land (128 + x) 0x80 =? 0) = true.
Proof. intros Hx. rewrite land_128_set by lia. reflexivity. Qed.

Lemma first_byte_opcode x : 0 <= x < 16 -> uint8 (Z.land (128 + x) 0xf) = x.
Proof.
  intros Hx. change 15 with (Z.ones 4). rewrite Z.land_ones by lia.
  unfold uint8. change (2 ^ 4) with 16. Z.div_mod_to_equations. lia.
Qed.

(** The three shapes of the header [client::send] builds. *)
Lemma send_header_short op len :
  0 <= len <= 125 ->
  send_header op len = [128 + op mod 16; 128 + len; 0; 0; 0; 0].
Proof.
  intros Hl. unfold send_header. rewrite send_first_byte.
  destruct (Z.leb_spec len 125); [|lia].
  rewrite uint8_small by lia. rewrite lor_128 by lia. reflexivity.
Qed.

Lemma send_header_medium op len :
  126 <= len < 65536 ->
  send_header op len = [128 + op mod 16; 254; len / 256; len mod 256; 0; 0; 0; 0].
Proof.
  intros Hl. unfold send_header. rewrite send_first_byte.
  destruct (Z.leb_spec len 125); [lia|].
  destruct (Z.ltb_spec len 65536); [|lia].
  rewrite (shiftr_land_byte len 8) by (lia || reflexivity). rewrite land_255.
  change (2 ^ 8) with 256. rewrite (Z.mod_small (len / 256)); [reflexivity|].
  Z.div_mod_to_equations. lia.
Qed.

Lemma send_header_long op len :
  65536 <= len ->
  send_header op len =
    [128 + op mod 16; 255;
     (len / 2 ^ 56) mod 256; (len / 2 ^ 48) mod 256; (len / 2 ^ 40) mod 256;
     (len / 2 ^ 32) mod 256; (len / 2 ^ 24) mod 256; (len / 2 ^ 16) mod 256;
     (len / 2 ^ 8) mod 256; len mod 256;
     0; 0; 0; 0].
Proof.
  intros Hl. unfold send_header. rewrite send_first_byte.
  destruct (Z.leb_spec len 125); [lia|].
  destruct (Z.ltb_spec len 65536); [lia|].
  rewrite (shiftr_land_byte len 56), (shiftr_land_byte len 48), (shiftr_land_byte len 40),
    (shiftr_land_byte len 32), (shiftr_land_byte len 24), (shiftr_land_byte len 16),
    (shiftr_land_byte len 8) by (lia || reflexivity).
  rewrite land_255, !uint8_mod. reflexivity.
Qed.

(** Reading the extended length back. *)
Lemma be_value_2 len :
  0 <= len < 65536 -> be_value [len / 256; len mod 256] = len.
Proof.
  intros Hl. unfold be_value. cbn [fold_left].
  rewrite (uint8_small (len / 256)) by (Z.div_mod_to_equations; lia).
  rewrite uint8_mod.
  rewrite !lor_shiftl_byte by (Z.div_mod_to_equations; lia).
  Z.div_mod_to_equations. lia.
Qed.

Lemma be_value_8 len :
  0 <= len < 2 ^ 64 ->
  be_value [(len / 2 ^ 56) mod 256; (len / 2 ^ 48) mod 256; (len / 2 ^ 40) mod 256;
            (len / 2 ^ 32) mod 256; (len / 2 ^ 24) mod 256; (len / 2 ^ 16) mod 256;
            (len / 2 ^ 8) mod 256; len mod 256] = len.
Proof.
  intros Hl. unfold be_value. cbn [fold_left]. rewrite !uint8_mod.
  rewrite !lor_shiftl_byte by (apply Z.mod_pos_bound; lia).
  change (0 * 256) with 0. Z.div_mod_to_equations. lia.
Qed.

(** An all-zero mask key leaves the payload as it is. *)
Lemma unmask_zero payload : unmask [0; 0; 0; 0] payload = payload.
Proof.
  unfold unmask.
  assert (G : forall (f : nat -> Z -> Z) (l : list Z),
             (forall i b, f i b = b) -> imap f l = l).
  { intros f l. revert f. induction l as [|x l IH]; intros f Hf; [reflexivity|].
    rewrite imap_cons, Hf. f_equal. apply IH. intros i b. apply Hf. }
  apply G. intros i b.
  assert (Hz : byte_at [0; 0; 0; 0] (i mod 4) = 0).
  { unfold byte_at. pose proof (Nat.mod_upper_bound i 4 ltac:(lia)) as Hi.
    destruct (i mod 4)%nat as [|[|[|[|?]]]]; simpl; try reflexivity. lia. }
  rewrite Hz. apply Z.lxor_0_r.
Qed.

(** ** Stepping through the monad *)

Lemma bind_val {A B} (m : M A) (k : A -> M B) c a c' :
  m c = (Val a, c') -> bind m k c = k a c'.
Proof. intros H. unfold bind. rewrite H. reflexivity. Qed.

Lemma bind_ret {A B} (a : A) (k : A -> M B) c : bind (ret a) k c = k a c.
Proof. reflexivity. Qed.

Lemma bind_assoc {A B C} (m : M A) (f : A -> M B) (g : B -> M C) c :
  bind (bind m f) g c = bind m (fun x => bind (f x) g) c.
Proof. unfold bind. destruct (m c) as [[a| |e] c']; reflexivity. Qed.

Lemma break_unless_open_true {B} (k : unit -> M B) c :
  open c = true -> bind break_unless_open k c = k tt c.
Proof. intros H. unfold bind, break_unless_open. rewrite H. reflexivity. Qed.

Lemma recv_size_pos len : 0 < len -> recv_size len = Z.to_nat len.
Proof. intros H. unfold recv_size. destruct (Z.eqb_spec len 0); [lia|reflexivity]. Qed.

Ltac solve_size :=
  rewrite ?recv_size_pos by lia; rewrite ?length_app; cbn [length]; lia.

(** Run the next [recv] of the goal on a script known to deliver enough. *)
Ltac recv_next Hd pre' Hd' :=
  match goal with
  | |- context [bind (recv ?len) _ ?c] =>
      let Hr := fresh "Hr" in
      destruct (recv_fill len _ _ _ c Hd eq_refl) as (pre' & Hr & Hd');
      [ | rewrite (bind_val _ _ _ _ _ Hr); clear Hr; cbv beta;
          rewrite ?bind_assoc;
          rewrite break_unless_open_true by assumption ]
  end.

(** The end of a pass over a frame that [client::send] wrote: the zero mask
    key and the payload. *)
Lemma read_frame_tail fin op payload c pre rest :
  Z.of_nat (length payload) < 2 ^ 32 ->
  open c = true ->
  delivers pre ([0; 0; 0; 0] ++ payload) ->
  exists pre',
    (mask_key <~ (k <~ recv 4 ;; break_unless_open ;;; ret k) ;;
     payload0 <~ (if Z.of_nat (length payload) =? 0 then ret []
                  else recv (uint32 (Z.of_nat (length payload)))) ;;
     break_unless_open ;;;
     ret (mk_frame fin op (unmask mask_key payload0)))
      (set_sock_in (pre ++ rest) c)
    = (Val (mk_frame fin op payload), set_sock_in (pre' ++ rest) c)
    /\ delivers pre' [].
Proof.
  intros Hlen Ho Hd. rewrite bind_assoc.
  recv_next Hd pre1 Hd1; [solve_size|].
  change (recv_size 4) with 4%nat in *. cbn [take drop app firstn skipn] in *; rewrite ?drop_0, ?take_0 in *.
  rewrite bind_ret.
  destruct (Z.eqb_spec (Z.of_nat (length payload)) 0) as [E|E].
  - rewrite bind_ret. rewrite break_unless_open_true by assumption.
    destruct payload; [|simpl in E; lia].
    exists pre1. split; [reflexivity|assumption].
  - unfold uint32. rewrite Z.mod_small by lia.
    recv_next Hd1 pre2 Hd2; [solve_size|].
    rewrite recv_size_pos, Nat2Z.id in * by lia.
    rewrite take_ge, drop_ge in * by lia.
    rewrite unmask_zero. exists pre2. split; [reflexivity|assumption].
Qed.

Lemma set_sock_in_same c : set_sock_in (sock_in c) c = c.
Proof. destruct c. reflexivity. Qed.

Lemma read_frame_sent op payload c pre rest :
  0 <= op < 16 ->
  Z.of_nat (length payload) < 2 ^ 32 ->
  open c = true ->
  delivers pre (send_header op (Z.of_nat (length payload)) ++ payload) ->
  exists pre',
    read_frame (set_sock_in (pre ++ rest) c)
    = (Val (mk_frame true op payload), set_sock_in (pre' ++ rest) c)
    /\ delivers pre' [].
Proof.
  intros Hop Hlen Ho Hd.
  remember (Z.of_nat (length payload)) as L eqn:EL.
  assert (HL0 : 0 <= L) by lia.
  unfold read_frame.
  destruct (Z_le_gt_dec L 125) as [Hs1|Hs1];
    [|destruct (Z_lt_ge_dec L 65536) as [Hs2|Hs2]].
  - rewrite send_header_short in Hd by lia. rewrite Z.mod_small in Hd by lia.
    recv_next Hd pre1 Hd1; [solve_size|].
    change (recv_size 2) with 2%nat in *.
    cbn [take drop app firstn skipn byte_at nth] in *; rewrite ?drop_0, ?take_0 in *.
    rewrite (first_byte_fin op), (first_byte_opcode op) by lia.
    rewrite (land_128_set L), (land_127_low L) by lia.
    cbn [Z.eqb negb].
    destruct (Z.eqb_spec L 126); [lia|]. destruct (Z.eqb_spec L 127); [lia|].
    rewrite bind_ret. subst L.
    apply (read_frame_tail true op payload c pre1 rest); assumption.
  - rewrite send_header_medium in Hd by lia. rewrite Z.mod_small in Hd by lia.
    recv_next Hd pre1 Hd1; [solve_size|].
    change (recv_size 2) with 2%nat in *.
    cbn [take drop app firstn skipn byte_at nth] in *; rewrite ?drop_0, ?take_0 in *.
    rewrite (first_byte_fin op), (first_byte_opcode op) by lia.
    change (Z.land 254 127 =? 126) with true. change (negb (Z.land 254 128 =? 0)) with true.
    cbv iota. rewrite bind_assoc.
    recv_next Hd1 pre2 Hd2; [solve_size|].
    change (recv_size 2) with 2%nat in *.
    cbn [take drop app firstn skipn] in *; rewrite ?drop_0, ?take_0 in *.
    rewrite bind_ret, be_value_2 by lia. subst L.
    apply (read_frame_tail true op payload c pre2 rest); assumption.
  - rewrite send_header_long in Hd by lia. rewrite Z.mod_small in Hd by lia.
    recv_next Hd pre1 Hd1; [solve_size|].
    change (recv_size 2) with 2%nat in *.
    cbn [take drop app firstn skipn byte_at nth] in *; rewrite ?drop_0, ?take_0 in *.
    rewrite (first_byte_fin op), (first_byte_opcode op) by lia.
    change (Z.land 255 127 =? 126) with false. change (Z.land 255 127 =? 127) with true.
    change (negb (Z.land 255 128 =? 0)) with true.
    cbv iota. rewrite bind_assoc.
    recv_next Hd1 pre2 Hd2; [solve_size|].
    change (recv_size 8) with 8%nat in *.
    cbn [take drop app firstn skipn] in *; rewrite ?drop_0, ?take_0 in *.
    rewrite bind_ret, be_value_8 by lia.
    unfold uint64. rewrite (Z.mod_small L) by lia. subst L.
    apply (read_frame_tail true op payload c pre2 rest); assumption.
Qed.

(** ** What one [send_raw] does *)

Lemma send_count_le s : (send_count s <= length s)%nat.
Proof.
  unfold send_count, uint64, int32, MAX_RW_COUNT.
  pose proof (Z.mod_pos_bound (Z.of_nat (length s)) (2 ^ 32) ltac:(lia)) as Hm.
  pose proof (Z.mod_le (Z.of_nat (length s)) (2 ^ 32) ltac:(lia) ltac:(lia)) as Hle.
  cbv zeta. destruct (Z.ltb_spec (Z.of_nat (length s) mod 2 ^ 32) (2 ^ 31)).
  - rewrite (Z.mod_small (Z.of_nat (length s) mod 2 ^ 32)) by lia. lia.
  - lia.
Qed.

(** A string of at most [MAX_RW_COUNT] bytes is asked for, and taken,
    whole. *)
Lemma send_count_small s :
  Z.of_nat (length s) <= MAX_RW_COUNT -> send_count s = length s.
Proof.
  unfold send_count, uint64, int32, MAX_RW_COUNT. intros H. cbv zeta.
  rewrite (Z.mod_small (Z.of_nat (length s)) (2 ^ 32)) by lia.
  destruct (Z.ltb_spec (Z.of_nat (length s)) (2 ^ 31)); [|lia].
  rewrite Z.mod_small by lia. lia.
Qed.

(** A longer one is never taken whole. *)
Lemma send_count_big s :
  MAX_RW_COUNT < Z.of_nat (length s) -> (send_count s < length s)%nat.
Proof.
  unfold send_count, uint64, int32, MAX_RW_COUNT. intros H. cbv zeta. lia.
Qed.

(** How a [send_raw] can end: it returns with the whole string on the wire;
    it throws for a short count, with that many bytes on the wire; or it
    throws for an error, with nothing on the wire.  [out] is the outbound
    script after the call. *)
Lemma send_raw_cases s c r c' :
  send_raw s c = (r, c') ->
  exists out,
    (r = Val tt /\ c' = log (SendRaw s) (set_sock_out out c))
    \/ (exists ret, (ret < length s)%nat
                    /\ r = Throw (SendShort (Z.of_nat ret) (Z.of_nat (length s)))
                    /\ c' = log (SendRaw (take ret s)) (set_sock_out out c))
    \/ (exists err, r = Throw (SendFailed err) /\ c' = set_sock_out out c).
Proof.
  unfold send_raw. destruct c as [o lo pb mh dh si so tr]. cbn [sock_out].
  destruct so as [|[|n|err] out]; cbv beta iota zeta.
  - destruct (Nat.ltb_spec (send_count s) (length s)); intros [= <- <-]; exists [].
    + right. left. eauto.
    + left. auto.
  - destruct (Nat.ltb_spec (send_count s) (length s)); intros [= <- <-]; exists out.
    + right. left. eauto.
    + left. auto.
  - destruct (Nat.ltb_spec (Nat.min n (send_count s)) (length s)); intros [= <- <-];
      exists out.
    + right. left. eauto.
    + left. auto.
  - intros [= <- <-]. exists out. right. right. eauto.
Qed.

Lemma send_raw_no_break s c c' : send_raw s c <> (Break, c').
Proof.
  intros H. apply send_raw_cases in H
    as (out & [(? & _)|[(ret & _ & ? & _)|(err & ? & _)]]); discriminate.
Qed.

(** On a socket that takes every write, a string of at most
    [MAX_RW_COUNT] bytes goes out whole. *)
Lemma send_raw_accepted s c :
  sock_out c = [] ->
  Z.of_nat (length s) <= MAX_RW_COUNT ->
  send_raw s c = (Val tt, log (SendRaw s) c).
Proof.
  intros Hs Hl. unfold send_raw. rewrite Hs. cbv beta iota zeta.
  rewrite (send_count_small s Hl), Nat.ltb_irrefl. reflexivity.
Qed.

(** A [send_raw] that returns has put the whole string on the wire and has
    touched nothing but the two ends of the socket model. *)
Lemma send_raw_val s c c' :
  send_raw s c = (Val tt, c') ->
  exists out, c' = log (SendRaw s) (set_sock_out out c).
Proof.
  intros H. apply send_raw_cases in H
    as (out & [(_ & ->)|[(ret & _ & ? & _)|(err & ? & _)]]); try discriminate.
  exists out. reflexivity.
Qed.

Lemma send_val payload op c c' :
  send payload op c = (Val tt, c') ->
  exists out,
    c' = log (SendRaw payload)
           (log (SendRaw (send_header op (Z.of_nat (length payload))))
                (set_sock_out out c)).
Proof.
  unfold send, bind.
  destruct (send_raw (send_header op (Z.of_nat (length payload))) c) as [[[]| |e] c1] eqn:E1;
    try discriminate.
  intros E2. apply send_raw_val in E1 as [o1 ->]. apply send_raw_val in E2 as [o2 ->].
  exists o2. reflexivity.
Qed.

Lemma length_send_header op len : (length (send_header op len) <= 14)%nat.
Proof.
  unfold send_header. destruct (len <=? 125); [simpl; lia|].
  destruct (len <? 65536); simpl; lia.
Qed.

(** On a socket that takes every write, [client::send] returns with the
    header and the payload on the wire, for every payload of at most
    [MAX_RW_COUNT] bytes. *)
Lemma send_accepted payload op c :
  sock_out c = [] ->
  Z.of_nat (length payload) <= MAX_RW_COUNT ->
  send payload op c
  = (Val tt,
     log (SendRaw payload)
       (log (SendRaw (send_header op (Z.of_nat (length payload)))) c)).
Proof.
  intros Hs Hl. unfold send, bind.
  rewrite (send_raw_accepted _ c Hs).
  - apply send_raw_accepted; [destruct c; exact Hs|exact Hl].
  - pose proof (length_send_header op (Z.of_nat (length payload))).
    unfold MAX_RW_COUNT. lia.
Qed.

Lemma wire_two a b : wire [SendRaw a; SendRaw b] = a ++ b.
Proof. unfold wire. simpl. rewrite app_nil_r. reflexivity. Qed.

(** C2.  For a payload of 0, 1, 125, 126, 65535 or 65536 bytes and any
    4-bit opcode: on a socket that takes every write [client::send]
    returns, with the header and then the payload on the wire; whenever it
    returns it has written these two and nothing else; and a pass of the
    receive loop over a socket that delivers the bytes it wrote, however
    they are cut into reads, decodes a frame with FIN set, the same opcode
    and the same payload, and leaves the socket at the end of the frame. *)
Theorem send_then_read_frame_roundtrip (payload : list Z) (op : opcode) :
  In (Z.of_nat (length payload)) [0; 1; 125; 126; 65535; 65536] ->
  0 <= op < 16 ->
  let header := send_header op (Z.of_nat (length payload)) in
  (forall sender,
      sock_out sender = [] ->
      send payload op sender
      = (Val tt, log (SendRaw payload) (log (SendRaw header) sender)))
  /\ (forall sender sender',
         send payload op sender = (Val tt, sender') ->
         exists sent,
           trace sender' = trace sender ++ sent
           /\ sent = [SendRaw header; SendRaw payload]
           /\ forall c pre rest,
                open c = true ->
                sock_in c = pre ++ rest ->
                delivers pre (wire sent) ->
                exists pre',
                  read_frame c
                  = (Val (mk_frame true op payload), set_sock_in (pre' ++ rest) c)
                  /\ delivers pre' []).
Proof.
  intros HL Hop header.
  assert (Hlen : Z.of_nat (length payload) <= 65536) by (simpl in HL; lia).
  split.
  - intros sender Hs. apply send_accepted; [exact Hs|unfold MAX_RW_COUNT; lia].
  - intros sender sender' Hs. exists [SendRaw header; SendRaw payload].
    split; [|split; [reflexivity|]].
    + apply send_val in Hs as [out ->]. simpl. rewrite <- app_assoc. reflexivity.
    + intros c pre rest Ho Hsock Hd. rewrite wire_two in Hd.
      destruct (read_frame_sent op payload c pre rest) as (pre' & Hr & Hd');
        try assumption; [lia|].
      rewrite <- Hsock, set_sock_in_same in Hr. exists pre'. split; assumption.
Qed.

(** A binary message of 126 bytes, sent on a socket that takes every
    write and read back from a socket that delivers the bytes written in
    two reads that part inside the header, with a would-block result
    between them. *)
Lemma send_then_read_frame_roundtrip_witness :
  send (repeat 7 126) op_binary (connected op_text [] [])
  = (Val tt,
     mk_client true op_text [] true true [] []
       [SendRaw [0x82; 0xfe; 0; 126; 0; 0; 0; 0]; SendRaw (repeat 7 126)])
  /\ exists pre',
       read_frame
         (connected op_text
            [RData [0x82; 0xfe; 0]; RErr EWOULDBLOCK;
             RData ([126; 0; 0; 0; 0] ++ repeat 7 126)] [])
       = (Val (mk_frame true op_binary (repeat 7 126)),
          set_sock_in (pre' ++ [])
            (connected op_text
               [RData [0x82; 0xfe; 0]; RErr EWOULDBLOCK;
                RData ([126; 0; 0; 0; 0] ++ repeat 7 126)] []))
       /\ delivers pre' [].
Proof.
  destruct (send_then_read_frame_roundtrip (repeat 7 126) op_binary) as [H1 H2].
  - vm_compute. tauto.
  - unfold op_binary. lia.
  - split; [exact (H1 (connected op_text [] []) eq_refl)|].
    destruct (H2 _ _ (H1 (connected op_text [] []) eq_refl)) as (sent & _ & -> & H3).
    apply (H3 (connected op_text
                 [RData [0x82; 0xfe; 0]; RErr EWOULDBLOCK;
                  RData ([126; 0; 0; 0; 0] ++ repeat 7 126)] [])
              [RData [0x82; 0xfe; 0]; RErr EWOULDBLOCK;
               RData ([126; 0; 0; 0; 0] ++ repeat 7 126)] []);
      [reflexivity|reflexivity|].
    apply (delivers_data 0x82 [0xfe; 0] _ _).
    apply delivers_block.
    apply (delivers_data 126 ([0; 0; 0; 0] ++ repeat 7 126) [] [] delivers_nil).
Defined.
Lemma land_uint8_15 op : Z.land (uint8 op) 0xf = Z.land op 0xf.
Proof.
  unfold uint8. change 15 with (Z.ones 4). rewrite !Z.land_ones by lia.
  change (2 ^ 4) with 16. Z.div_mod_to_equations. lia.
Qed.

(** C3, as the code has it.  The header [client::send] writes is 6, 8 or 14
    bytes long: 2, 4 or 10 bytes laid out as C3 says, followed by a
    mask key of four zero bytes.  Its first byte is 0x80 OR'd with the low
    four bits of the opcode.  A payload of at most 125 bytes gets the one
    length byte 0x80 | length; one of 126 to 65535 bytes gets 0xFE and the
    length as two big-endian bytes; a longer one gets 0xFF and the length as
    eight big-endian bytes. *)
Theorem send_header_layout (op : opcode) (payload : list Z) :
  let len := Z.of_nat (length payload) in
  let h0 := Z.lor 0x80 (Z.land op 0xf) in
  (forall sender sender',
      send payload op sender = (Val tt, sender') ->
      trace sender' = trace sender ++ [SendRaw (send_header op len); SendRaw payload])
  /\ (len <= 125 ->
      send_header op len = [h0; Z.lor 0x80 len] ++ [0; 0; 0; 0]
      /\ Z.land (Z.lor 0x80 len) 0x80 = 0x80
      /\ Z.land (Z.lor 0x80 len) 0x7f = len)
  /\ (126 <= len < 65536 ->
      send_header op len = [h0; 0xfe; len / 256; len mod 256] ++ [0; 0; 0; 0]
      /\ be_value [len / 256; len mod 256] = len)
  /\ (65536 <= len ->
      send_header op len =
        [h0; 0xff;
         (len / 2 ^ 56) mod 256; (len / 2 ^ 48) mod 256; (len / 2 ^ 40) mod 256;
         (len / 2 ^ 32) mod 256; (len / 2 ^ 24) mod 256; (len / 2 ^ 16) mod 256;
         (len / 2 ^ 8) mod 256; len mod 256] ++ [0; 0; 0; 0]
      /\ (len < 2 ^ 64 ->
          be_value [(len / 2 ^ 56) mod 256; (len / 2 ^ 48) mod 256; (len / 2 ^ 40) mod 256;
                    (len / 2 ^ 32) mod 256; (len / 2 ^ 24) mod 256; (len / 2 ^ 16) mod 256;
                    (len / 2 ^ 8) mod 256; len mod 256] = len))
  /\ In (length (send_header op len)) [6; 8; 14]%nat.
Proof.
  intros len h0.
  assert (Hlen : 0 <= len) by (unfold len; lia).
  assert (Hh0 : 128 + op mod 16 = h0).
  { unfold h0. rewrite <- send_first_byte, land_uint8_15. reflexivity. }
  split; [|split; [|split; [|split]]].
  - intros sender sender' Hs. apply send_val in Hs as [out ->]. simpl.
    rewrite <- app_assoc. reflexivity.
  - intros Hs. rewrite send_header_short, Hh0 by lia.
    rewrite lor_128 by lia. rewrite land_128_set, land_127_low by lia. auto.
  - intros Hm. rewrite send_header_medium, Hh0 by lia.
    rewrite be_value_2 by lia. auto.
  - intros Hl. rewrite send_header_long, Hh0 by lia. split; [reflexivity|].
    intros Hb. apply be_value_8. lia.
  - destruct (Z_le_gt_dec len 125) as [Hs1|Hs1];
      [|destruct (Z_lt_ge_dec len 65536) as [Hs2|Hs2]].
    + rewrite send_header_short by lia. simpl. auto.
    + rewrite send_header_medium by lia. simpl. auto.
    + rewrite send_header_long by lia. simpl. auto.
Qed.

(** C3 as stated fails: the header written for an empty text message is the
    six bytes 81 80 00 00 00 00, not two. *)
Lemma send_header_length_counterexample :
  send [] op_text (connected 0 [] [])
  = (Val tt, log (SendRaw []) (log (SendRaw [0x81; 0x80; 0; 0; 0; 0]) (connected 0 [] [])))
  /\ ~ In (length [0x81; 0x80; 0; 0; 0; 0]) [2; 4; 10]%nat.
Proof.
  split; [reflexivity|]. simpl. lia.
Qed.
Lemma set_last_opcode_same c : set_last_opcode (last_opcode c) c = c.
Proof. destruct c. reflexivity. Qed.

(** What [parse_ws_message] does with an opcode that is neither close nor
    ping. *)
Lemma parse_ws_message_data op payload c :
  op <> op_close -> op <> op_ping ->
  parse_ws_message op payload c
  = (Val tt, if msg_handler c then log (Handler op payload) c else c).
Proof.
  intros Hc Hp. unfold parse_ws_message.
  destruct (Z.eqb_spec op op_close); [contradiction|].
  destruct (Z.eqb_spec op op_ping); [contradiction|].
  unfold bind, ret. destruct (msg_handler c); reflexivity.
Qed.

(** C5.  The reassembly step, for every value of [opcode::invalid]: a frame
    without FIN records its opcode as pending unless it is [invalid], appends
    its payload to the buffer and dispatches nothing; a frame with FIN that
    finds the buffer non-empty dispatches the pending opcode with buffer +
    payload (one handler call for a data opcode) and then clears the buffer;
    a frame with FIN that finds the buffer empty dispatches its own opcode
    and payload.  When [invalid] is the continuation value 0, the frames
    [FIN=0 text "Hel"], [FIN=0 continuation "lo "], [FIN=1 continuation
    "World"] make the thread call the handler exactly once, with text and
    "Hello World", before the stream ends and the disconnect handler runs. *)
Theorem reassembler_rules (invalid : opcode) :
  (forall f c,
      fr_fin f = false ->
      handle_frame invalid f c
      = (Val tt,
         set_payloadbuf (payloadbuf c ++ fr_payload f)
           (set_last_opcode (if fr_opcode f =? invalid then last_opcode c
                             else fr_opcode f) c)))
  /\ (forall f c,
         fr_fin f = true -> payloadbuf c <> [] ->
         handle_frame invalid f c
         = (parse_ws_message (last_opcode c) (payloadbuf c ++ fr_payload f) ;;;
            modify (set_payloadbuf [])) c
         /\ (last_opcode c <> op_close -> last_opcode c <> op_ping ->
             msg_handler c = true ->
             handle_frame invalid f c
             = (Val tt,
                set_payloadbuf []
                  (log (Handler (last_opcode c) (payloadbuf c ++ fr_payload f)) c))))
  /\ (forall f c,
         fr_fin f = true -> payloadbuf c = [] ->
         handle_frame invalid f c
         = parse_ws_message (fr_opcode f) (fr_payload f) c)
  /\ (invalid = op_continuation ->
      forall last out,
        thread_main invalid
          (connected last
             [RData ([0x01; 0x03] ++ bytes_of_string "Hel");
              RData ([0x00; 0x03] ++ bytes_of_string "lo ");
              RData ([0x80; 0x05] ++ bytes_of_string "World")] out)
        = Some (mk_client false op_text [] true true [] out
                  [Handler op_text (bytes_of_string "Hello World"); Disconnect None])).
Proof.
  split; [|split; [|split]].
  - intros f c Hf. unfold handle_frame. rewrite Hf. cbn [negb].
    destruct (fr_opcode f =? invalid); cbn [negb].
    + rewrite set_last_opcode_same. reflexivity.
    + reflexivity.
  - intros f c Hf Hb. unfold handle_frame. rewrite Hf. cbn [negb].
    assert (Hn : (length (payloadbuf c) =? 0)%nat = false).
    { apply Nat.eqb_neq. destruct (payloadbuf c); [congruence|simpl; lia]. }
    rewrite Hn. cbn [negb]. split; [reflexivity|].
    intros Hc Hp Hm. unfold bind. rewrite parse_ws_message_data by assumption.
    rewrite Hm. reflexivity.
  - intros f c Hf Hb. unfold handle_frame. rewrite Hf, Hb. reflexivity.
  - intros -> last out. vm_compute. reflexivity.
Qed.

Lemma reassembler_rules_witness :
  thread_main op_continuation
    (connected op_binary
       [RData ([0x01; 0x03] ++ bytes_of_string "Hel");
        RData ([0x00; 0x03] ++ bytes_of_string "lo ");
        RData ([0x80; 0x05] ++ bytes_of_string "World")] [])
  = Some (mk_client false op_text [] true true [] []
            [Handler op_text (bytes_of_string "Hello World"); Disconnect None]).
Proof.
  destruct (reassembler_rules op_continuation) as (_ & _ & _ & H).
  apply H. reflexivity.
Defined.
(** The example of C5 needs [invalid] to be the continuation value: for any
    other value the second fragment overwrites the pending opcode and the
    message arrives as a continuation. *)
Lemma hello_world_other_invalid invalid last out :
  invalid <> op_continuation ->
  thread_main invalid
    (connected last
       [RData ([0x01; 0x03] ++ bytes_of_string "Hel");
        RData ([0x00; 0x03] ++ bytes_of_string "lo ");
        RData ([0x80; 0x05] ++ bytes_of_string "World")] out)
  = Some (mk_client false op_continuation [] true true [] out
            [Handler op_continuation (bytes_of_string "Hello World"); Disconnect None]).
Proof.
  intros Hne. destruct invalid as [|[q|q|]|q]; [destruct Hne; reflexivity|..]; reflexivity.
Qed.

(** ** What the reads of a pass leave alone *)

Lemma reads_only_refl c : reads_only c c.
Proof. split; [destruct c; reflexivity|lia]. Qed.

Lemma reads_only_trans c1 c2 c3 : reads_only c1 c2 -> reads_only c2 c3 -> reads_only c1 c3.
Proof.
  intros [E1 W1] [E2 W2]. split; [|lia].
  rewrite E2 at 1. rewrite E1 at 1. reflexivity.
Qed.

Lemma preserves_bind {A B} R (m : M A) (k : A -> M B) :
  (forall c1 c2 c3, R c1 c2 -> R c2 c3 -> R c1 c3) ->
  preserves R m -> (forall a, preserves R (k a)) -> preserves R (bind m k).
Proof.
  intros Ht Hm Hk c r c'. unfold bind.
  destruct (m c) as [[a| |e] c1] eqn:E; intros H.
  - apply (Ht _ c1); [apply (Hm _ _ _ E)|apply (Hk a _ _ _ H)].
  - injection H as <- <-. apply (Hm _ _ _ E).
  - injection H as <- <-. apply (Hm _ _ _ E).
Qed.

(** The loop of [recv] never puts weight on the script, and takes some off
    when it fills a buffer. *)
Lemma recv_loop_weight sock :
  forall left got r sock',
    recv_loop sock left got = (r, sock') ->
    (weight sock' <= weight sock)%nat
    /\ (forall s, r = RecvFull s -> (0 < left)%nat -> (weight sock' < weight sock)%nat).
Proof.
  induction sock as [|[bs| |err] sock IH]; intros left got r sock'; cbn [recv_loop].
  - intros [= <- <-]. split; [lia|discriminate].
  - destruct bs as [|b bs].
    + intros [= <- <-]. split; [simpl; lia|discriminate].
    + destruct (Nat.ltb_spec (length (b :: bs)) left) as [Hl|Hl].
      * intros H. apply IH in H as [H1 H2]. split; [simpl in *; lia|].
        intros s Hs Hp. specialize (H2 s Hs). simpl in *. lia.
      * destruct (Nat.eqb_spec (length (b :: bs)) left) as [He|He]; intros [= <- <-].
        -- split; [simpl; lia|]. intros; simpl; lia.
        -- assert (length (drop left (b :: bs)) = (length (b :: bs) - left)%nat)
             by apply length_drop.
           cbn [weight fold_right] in *. split; [lia|]. intros; lia.
  - intros [= <- <-]. split; [simpl; lia|discriminate].
  - destruct (err =? EWOULDBLOCK).
    + intros H. apply IH in H as [H1 H2]. split; [simpl; lia|].
      intros s Hs Hp. specialize (H2 s Hs Hp). simpl. lia.
    + intros [= <- <-]. split; [simpl; lia|discriminate].
Qed.

Lemma recv_size_nonzero len : 0 <= len -> (0 < recv_size len)%nat.
Proof. intros H. unfold recv_size. destruct (Z.eqb_spec len 0); lia. Qed.

Lemma recv_reads_only len : preserves reads_only (recv len).
Proof.
  intros c r c'. unfold recv.
  destruct (recv_loop (sock_in c) (recv_size len) []) as [[s| |err] sock'] eqn:E;
    apply recv_loop_weight in E as [Hw _].
  - intros [= <- <-]. split; [destruct c; reflexivity|exact Hw].
  - intros [= <- <-]. split; [destruct c; reflexivity|exact Hw].
  - destruct (err =? ECONNRESET); intros [= <- <-]; (split; [destruct c; reflexivity|exact Hw]).
Qed.

(** A [recv] that returns with [open] still set took bytes off the script. *)
Lemma recv_open_lighter len c s c' :
  0 <= len ->
  recv len c = (Val s, c') -> open c' = true ->
  (weight (sock_in c') < weight (sock_in c))%nat.
Proof.
  intros Hlen. unfold recv.
  destruct (recv_loop (sock_in c) (recv_size len) []) as [[s0| |err] sock'] eqn:E.
  - intros [= <- <-] _. apply recv_loop_weight in E as [_ H].
    apply (H s0 eq_refl). apply recv_size_nonzero. assumption.
  - intros [= <- <-]. simpl. discriminate.
  - destruct (err =? ECONNRESET); intros [= <- <-]. simpl. discriminate.
Qed.

Lemma break_unless_open_reads_only : preserves reads_only break_unless_open.
Proof.
  intros c r c'. unfold break_unless_open.
  destruct (open c); intros [= <- <-]; apply reads_only_refl.
Qed.

Lemma ret_reads_only {A} (a : A) : preserves reads_only (ret a).
Proof. intros c r c' [= <- <-]. apply reads_only_refl. Qed.

Ltac reads_only_tac :=
  repeat first
    [ apply preserves_bind; [exact reads_only_trans| |intros ?]
    | apply recv_reads_only
    | apply break_unless_open_reads_only
    | apply ret_reads_only
    | match goal with |- preserves _ (if ?b then _ else _) => destruct b end ].

Lemma read_frame_reads_only : preserves reads_only read_frame.
Proof. unfold read_frame. reads_only_tac. Qed.

Lemma val_open_bind {A B} (m : M A) (k : A -> M B) :
  (forall a, val_open (k a)) -> val_open (bind m k).
Proof.
  intros Hk c b c'. unfold bind. destruct (m c) as [[a| |e] c1]; try discriminate.
  apply Hk.
Qed.

Lemma val_open_break {A} (a : A) : val_open (break_unless_open ;;; ret a).
Proof.
  intros c b c'. unfold bind, break_unless_open, ret.
  destruct (open c) eqn:E; [|discriminate]. intros [= <- <-]. exact E.
Qed.

(** A pass that decoded a frame found [open] set after its last read and
    took bytes off the script. *)
Lemma read_frame_val c f c' :
  read_frame c = (Val f, c') ->
  open c' = true /\ (weight (sock_in c') < weight (sock_in c))%nat /\ reads_only c c'.
Proof.
  intros H. split; [|split]; [| |exact (read_frame_reads_only _ _ _ H)].
  - revert H. apply val_open_bind. intros header.
    apply val_open_bind. intros _.
    apply val_open_bind. intros len.
    apply val_open_bind. intros mask_key.
    apply val_open_bind. intros payload.
    apply val_open_break.
  - unfold read_frame in H. unfold bind at 1 in H.
    destruct (recv 2 c) as [[header| |e] c1] eqn:E1; try discriminate.
    unfold bind at 1 in H. unfold break_unless_open at 1 in H.
    destruct (open c1) eqn:Ho1; [|discriminate].
    apply recv_open_lighter in E1; [|lia|assumption].
    match type of H with
    | ?K c1 = _ => assert (HK : preserves reads_only K) by reads_only_tac
    end.
    apply HK in H as [_ Hw]. lia.
Qed.

(** ** What a dispatch leaves alone *)

Lemma sends_only_refl c : sends_only c c.
Proof. exists []. split; [destruct c; simpl; rewrite app_nil_r; reflexivity|constructor]. Qed.

Lemma sends_only_trans c1 c2 c3 : sends_only c1 c2 -> sends_only c2 c3 -> sends_only c1 c3.
Proof.
  intros (s1 & E1 & F1) (s2 & E2 & F2). exists (s1 ++ s2). split.
  - rewrite E2. rewrite E1. simpl. rewrite app_assoc. reflexivity.
  - apply Forall_app. split; assumption.
Qed.

Lemma send_raw_sends_only s : preserves sends_only (send_raw s).
Proof.
  intros c r c' H. apply send_raw_cases in H
    as (out & [(_ & ->)|[(ret & _ & _ & ->)|(err & _ & ->)]]).
  - exists [SendRaw s]. destruct c. simpl. split; [reflexivity|repeat constructor].
  - exists [SendRaw (take ret s)]. destruct c. simpl.
    split; [reflexivity|repeat constructor].
  - exists []. destruct c. simpl. rewrite app_nil_r. split; [reflexivity|constructor].
Qed.

Lemma send_no_break payload op c c' : send payload op c <> (Break, c').
Proof.
  unfold send, bind.
  destruct (send_raw (send_header op (Z.of_nat (length payload))) c)
    as [[[]| |e] c1] eqn:E1.
  - apply send_raw_no_break.
  - exfalso. exact (send_raw_no_break _ _ _ E1).
  - discriminate.
Qed.

Lemma send_sends_only payload op : preserves sends_only (send payload op).
Proof.
  unfold send. apply preserves_bind; [exact sends_only_trans| |intros _];
    apply send_raw_sends_only.
Qed.

(** [parse_ws_message] either clears [open] and does nothing else, or sends
    (for a ping) and then, unless the send threw, calls the handler with the
    opcode and payload it was given. *)
Lemma parse_ws_message_cases op payload c r c' :
  parse_ws_message op payload c = (r, c') ->
  (op = op_close /\ r = Val tt /\ c' = set_open false c)
  \/ (op <> op_close /\
      exists c1, sends_only c c1 /\
        ((exists e, r = Throw e /\ c' = c1)
         \/ (r = Val tt /\ c' = if msg_handler c then log (Handler op payload) c1 else c1))).
Proof.
  unfold parse_ws_message. destruct (Z.eqb_spec op op_close) as [->|Hc].
  - intros [= <- <-]. left. auto.
  - intros H. right. split; [assumption|]. unfold bind in H.
    destruct (op =? op_ping).
    + destruct (send payload op_pong c) as [[[]| |e] c1] eqn:Es.
      * exists c1. split; [exact (send_sends_only _ _ _ _ _ Es)|]. right.
        assert (Hm : msg_handler c1 = msg_handler c).
        { destruct (send_sends_only _ _ _ _ _ Es) as (sent & -> & _). reflexivity. }
        rewrite Hm in H. destruct (msg_handler c); injection H as <- <-; auto.
      * exfalso. exact (send_no_break _ _ _ _ Es).
      * injection H as <- <-. exists c1.
        split; [exact (send_sends_only _ _ _ _ _ Es)|]. left. eauto.
    + unfold ret in H. exists c. split; [apply sends_only_refl|]. right.
      destruct (msg_handler c); injection H as <- <-; auto.
Qed.
Lemma sends_only_fields c c' :
  sends_only c c' ->
  open c' = open c /\ last_opcode c' = last_opcode c /\ payloadbuf c' = payloadbuf c
  /\ msg_handler c' = msg_handler c /\ disconn_handler c' = disconn_handler c
  /\ sock_in c' = sock_in c
  /\ exists sent, trace c' = trace c ++ sent /\ Forall is_send sent.
Proof. intros (sent & -> & F). simpl. repeat split; trivial. exists sent. auto. Qed.

Lemma reads_only_fields c c' :
  reads_only c c' ->
  last_opcode c' = last_opcode c /\ payloadbuf c' = payloadbuf c
  /\ msg_handler c' = msg_handler c /\ disconn_handler c' = disconn_handler c
  /\ sock_out c' = sock_out c /\ trace c' = trace c.
Proof. intros [-> _]. simpl. repeat split; trivial. Qed.

Lemma in_sent_not_handler sent op pl :
  Forall is_send sent -> ~ In (Handler op pl) sent.
Proof.
  intros F Hin. rewrite Forall_forall in F. apply list_elem_of_In in Hin.
  apply F in Hin. exact Hin.
Qed.

(** What one reassembly step can do to the object. *)
Lemma handle_frame_cases invalid f c r c' :
  handle_frame invalid f c = (r, c') ->
  sock_in c' = sock_in c
  /\ msg_handler c' = msg_handler c
  /\ disconn_handler c' = disconn_handler c
  /\ r <> Break
  /\ (last_opcode c' = last_opcode c
      \/ (fr_fin f = false /\ fr_opcode f <> invalid /\ last_opcode c' = fr_opcode f))
  /\ (forall op pl,
         In (Handler op pl) (trace c') ->
         In (Handler op pl) (trace c)
         \/ (r = Val tt /\ fr_fin f = true
             /\ ((payloadbuf c = [] /\ op = fr_opcode f /\ pl = fr_payload f)
                 \/ (payloadbuf c <> [] /\ op = last_opcode c
                     /\ pl = payloadbuf c ++ fr_payload f))))
  /\ (forall x, In (Disconnect x) (trace c') -> In (Disconnect x) (trace c)).
Proof.
  assert (P : forall op payload c r c',
             parse_ws_message op payload c = (r, c') ->
             sock_in c' = sock_in c /\ msg_handler c' = msg_handler c
             /\ disconn_handler c' = disconn_handler c /\ r <> Break
             /\ last_opcode c' = last_opcode c
             /\ payloadbuf c' = payloadbuf c
             /\ (forall o pl, In (Handler o pl) (trace c') ->
                              In (Handler o pl) (trace c)
                              \/ (r = Val tt /\ o = op /\ pl = payload))
             /\ (forall x, In (Disconnect x) (trace c') -> In (Disconnect x) (trace c))).
  { clear. intros op payload c r c' H.
    apply parse_ws_message_cases in H
      as [(-> & -> & ->)|(Hc & c1 & Hs & [(e & -> & ->)|(-> & ->)])].
    - simpl. repeat split; auto; discriminate.
    - apply sends_only_fields in Hs as (_ & E1 & E2 & E3 & E4 & E5 & sent & Et & F).
      repeat split; auto; try discriminate.
      + intros o pl. rewrite Et, in_app_iff. intros [?|Hin]; [auto|].
        exfalso. exact (in_sent_not_handler _ _ _ F Hin).
      + intros x. rewrite Et, in_app_iff. intros [?|Hin]; [auto|].
        exfalso. rewrite Forall_forall in F. apply list_elem_of_In in Hin.
        apply F in Hin. exact Hin.
    - apply sends_only_fields in Hs as (_ & E1 & E2 & E3 & E4 & E5 & sent & Et & F).
      assert (Hx : forall x, In (Disconnect x) (trace c1) -> In (Disconnect x) (trace c)).
      { intros x. rewrite Et, in_app_iff. intros [?|Hin]; [auto|].
        exfalso. rewrite Forall_forall in F. apply list_elem_of_In in Hin.
        apply F in Hin. exact Hin. }
      assert (Hh : forall o pl, In (Handler o pl) (trace c1) -> In (Handler o pl) (trace c)).
      { intros o pl. rewrite Et, in_app_iff. intros [?|Hin]; [auto|].
        exfalso. exact (in_sent_not_handler _ _ _ F Hin). }
      destruct (msg_handler c); simpl; repeat split; auto; try discriminate.
      + intros o pl. rewrite in_app_iff. intros [Hin|[[= <- <-]|[]]]; auto.
      + intros x. rewrite in_app_iff. intros [Hin|[[=]|[]]]; auto. }
  unfold handle_frame. destruct (fr_fin f) eqn:Hf; cbn [negb].
  - destruct (payloadbuf c) as [|b buf] eqn:Hb; cbn [length Nat.eqb negb].
    + intros H. apply P in H as (E1 & E2 & E3 & E4 & E5 & E6 & E7 & E8).
      repeat split; auto.
      intros op pl Hin. apply E7 in Hin as [?|(-> & -> & ->)]; auto 10.
    + unfold bind.
      destruct (parse_ws_message (last_opcode c) ((b :: buf) ++ fr_payload f) c)
        as [[[]| |e] c1] eqn:Ep;
        apply P in Ep as (E1 & E2 & E3 & E4 & E5 & E6 & E7 & E8);
        intros [= <- <-]; [|congruence|].
      * simpl. repeat split; auto; try discriminate.
        intros op pl Hin. apply E7 in Hin as [?|(_ & -> & ->)]; [auto|].
        right. repeat split; auto.
      * repeat split; auto; try discriminate.
        intros op pl Hin. apply E7 in Hin as [?|([=] & _)]; auto.
  - intros [= <- <-]. destruct (Z.eqb_spec (fr_opcode f) invalid) as [He|He];
      cbn [negb]; simpl; repeat split; auto; discriminate.
Qed.

Lemma handle_frame_sock_in invalid f c r c' :
  handle_frame invalid f c = (r, c') -> sock_in c' = sock_in c.
Proof. intros H. apply handle_frame_cases in H. tauto. Qed.

(** ** The loop always comes to an end *)

Lemma recv_thread_loop_total invalid n :
  forall c, (weight (sock_in c) < n)%nat ->
            exists r c', recv_thread_loop invalid n c = Some (r, c').
Proof.
  induction n as [|n IH]; intros c Hw; [lia|].
  cbn [recv_thread_loop]. destruct (open c); [|eauto].
  unfold recv_thread_pass, bind.
  destruct (read_frame c) as [[f| |e] c1] eqn:E1; [|eauto|eauto].
  apply read_frame_val in E1 as (_ & Hw1 & _).
  destruct (handle_frame invalid f c1) as [[[]| |e] c2] eqn:E2; [|eauto|eauto].
  apply handle_frame_sock_in in E2. apply IH. rewrite E2. lia.
Qed.

(** [recv_thread] and the thread body always produce a result: the bound on
    the number of passes is never reached. *)
Lemma recv_thread_total invalid c :
  exists r c', recv_thread invalid c = Some (r, c').
Proof. apply recv_thread_loop_total. lia. Qed.

Lemma thread_main_total invalid c : exists c', thread_main invalid c = Some c'.
Proof.
  unfold thread_main. destruct (recv_thread_total invalid c) as (r & c' & ->). eauto.
Qed.

(** ** The loop as a run of complete passes and a last one *)

Lemma recv_thread_loop_passes invalid n :
  forall c r c',
    recv_thread_loop invalid n c = Some (r, c') ->
    exists fs c1, passes invalid c fs c1 /\ last_pass invalid c1 r c'.
Proof.
  induction n as [|n IH]; intros c r c'; cbn [recv_thread_loop];
    destruct (open c) eqn:Ho.
  - discriminate.
  - intros [= <- <-]. exists [], c. split; [constructor|]. left. auto.
  - destruct (recv_thread_pass invalid c) as [[[]| |e] c2] eqn:Ep.
    + intros H. apply IH in H as (fs & c1 & Hp & Hl).
      unfold recv_thread_pass, bind in Ep.
      destruct (read_frame c) as [[f| |e] c0] eqn:Er; try discriminate.
      exists (f :: fs), c1. split; [|assumption].
      apply (passes_next invalid c f c0 c2); assumption.
    + intros [= <- <-]. exists [], c. split; [constructor|]. right. auto.
    + intros [= <- <-]. exists [], c. split; [constructor|]. right. eauto.
  - intros [= <- <-]. exists [], c. split; [constructor|]. left. auto.
Qed.
(** A pass that does not run to its end calls no handler. *)
Lemma last_pass_handlers invalid c1 r c' :
  last_pass invalid c1 r c' ->
  forall op pl, In (Handler op pl) (trace c') -> In (Handler op pl) (trace c1).
Proof.
  assert (G : forall x, x <> Val tt -> recv_thread_pass invalid c1 = (x, c') ->
              forall op pl, In (Handler op pl) (trace c') -> In (Handler op pl) (trace c1)).
  { intros x Hx. unfold recv_thread_pass, bind.
    destruct (read_frame c1) as [[f| |e] c0] eqn:Er;
      apply read_frame_reads_only in Er; apply reads_only_fields in Er
        as (_ & _ & _ & _ & _ & Et).
    - intros Hh op pl Hin. apply handle_frame_cases in Hh as (_ & _ & _ & _ & _ & Hh & _).
      apply Hh in Hin as [Hin|(-> & _)]; [|congruence]. rewrite <- Et. assumption.
    - intros [= <- <-] op pl. rewrite Et. auto.
    - intros [= <- <-] op pl. rewrite Et. auto. }
  intros [(_ & _ & ->)|(_ & [(Hp & _)|(e & Hp & _)])]; [auto| |];
    refine (G _ _ Hp); discriminate.
Qed.

Lemma frame_eta f : f = mk_frame (fr_fin f) (fr_opcode f) (fr_payload f).
Proof. destruct f. reflexivity. Qed.

(** Where the opcodes that reach the handler come from, over any number of
    complete passes. *)
Lemma passes_handlers invalid c fs c3 :
  passes invalid c fs c3 ->
  (last_opcode c3 = last_opcode c
   \/ exists p, In (mk_frame false (last_opcode c3) p) fs /\ last_opcode c3 <> invalid)
  /\ forall op pl,
      In (Handler op pl) (trace c3) ->
      In (Handler op pl) (trace c)
      \/ In (mk_frame true op pl) fs
      \/ op = last_opcode c
      \/ exists p, In (mk_frame false op p) fs /\ op <> invalid.
Proof.
  induction 1 as [c|c f c1 c2 fs c3 Ho Hr Hh Hp [IHl IHh]].
  - split; auto.
  - apply read_frame_reads_only in Hr. apply reads_only_fields in Hr
      as (El & Eb & _ & _ & _ & Et).
    apply handle_frame_cases in Hh as (_ & _ & _ & _ & Hl & Hh & _).
    assert (L2 : forall op, op = last_opcode c2 ->
                 op = last_opcode c
                 \/ exists p, In (mk_frame false op p) (f :: fs) /\ op <> invalid).
    { intros op ->. destruct Hl as [E|(Hf & Hi & E)].
      - left. congruence.
      - right. exists (fr_payload f). rewrite E. split; [|assumption].
        left. rewrite (frame_eta f) at 1. rewrite Hf. reflexivity. }
    split.
    + destruct IHl as [E|(p & Hin & Hn)].
      * apply L2. assumption.
      * right. exists p. split; [right|]; assumption.
    + intros op pl Hin. apply IHh in Hin as [Hin|[Hin|[Hin|(p & Hin & Hn)]]].
      * apply Hh in Hin as [Hin|(_ & Hf & [(_ & -> & ->)|(_ & -> & _)])].
        -- left. rewrite <- Et. assumption.
        -- right. left. left. rewrite (frame_eta f) at 1. rewrite Hf. reflexivity.
        -- right. right. left. assumption.
      * right. left. right. assumption.
      * right. right. apply L2. assumption.
      * right. right. right. exists p. split; [right|]; assumption.
Qed.

(** C4, as the code has it.  The thread body always finishes, after some
    complete passes over frames [fs].  Every message it hands to the handler
    carries either the own opcode and payload of one of the frames with
    FIN, or a pending opcode: the opcode of a frame without FIN that was not
    [invalid], or what [last_opcode] held at the start.  So with [invalid]
    the continuation value, and [last_opcode] not continuation at the start,
    the handler sees the continuation opcode only for a frame with FIN that
    carries that opcode itself. *)
Theorem handler_opcode_provenance (invalid : opcode) (c : client_pimpl) :
  exists c' fs c1,
    thread_main invalid c = Some c'
    /\ passes invalid c fs c1
    /\ (forall op pl,
           In (Handler op pl) (trace c') ->
           In (Handler op pl) (trace c)
           \/ In (mk_frame true op pl) fs
           \/ op = last_opcode c
           \/ exists p, In (mk_frame false op p) fs /\ op <> invalid)
    /\ (invalid = op_continuation ->
        last_opcode c <> op_continuation ->
        forall pl,
          In (Handler op_continuation pl) (trace c') ->
          In (Handler op_continuation pl) (trace c)
          \/ In (mk_frame true op_continuation pl) fs).
Proof.
  destruct (recv_thread_total invalid c) as (r & c0 & Hrt).
  pose proof Hrt as Hrt'. unfold recv_thread in Hrt'.
  apply recv_thread_loop_passes in Hrt' as (fs & c1 & Hp & Hl).
  unfold thread_main. rewrite Hrt.
  eexists _, fs, c1. split; [reflexivity|]. split; [assumption|].
  assert (G : forall op pl,
             In (Handler op pl)
               (trace (if disconn_handler (set_open false c0)
                       then log (Disconnect match r with Throw e => Some e | _ => None end)
                              (set_open false c0)
                       else set_open false c0)) ->
             In (Handler op pl) (trace c)
             \/ In (mk_frame true op pl) fs
             \/ op = last_opcode c
             \/ exists p, In (mk_frame false op p) fs /\ op <> invalid).
  { intros op pl Hin.
    assert (Hin0 : In (Handler op pl) (trace c0)).
    { destruct (disconn_handler (set_open false c0)); simpl in Hin; [|assumption].
      apply in_app_iff in Hin as [?|[[=]|[]]]. assumption. }
    apply (last_pass_handlers _ _ _ _ Hl) in Hin0.
    apply (passes_handlers _ _ _ _ Hp). assumption. }
  split; [exact G|].
  intros -> Hlo pl Hin. apply G in Hin as [?|[?|[?|(p & _ & Hn)]]]; auto; congruence.
Qed.

(** C4 as stated fails: a lone frame with FIN and the continuation opcode
    (bytes 80 01 78) is handed to the handler with the continuation opcode. *)
Lemma continuation_reaches_handler_counterexample :
  thread_main op_continuation (connected op_text [RData [0x80; 0x01; 0x78]] [])
  = Some (mk_client false op_text [] true true [] []
            [Handler op_continuation [0x78]; Disconnect None]).
Proof. vm_compute. reflexivity. Qed.
(** The same lone frame, for every value of [opcode::invalid]. *)
Lemma lone_continuation_frame invalid last out :
  thread_main invalid (connected last [RData [0x80; 0x01; 0x78]] out)
  = Some (mk_client false last [] true true [] out
            [Handler op_continuation [0x78]; Disconnect None]).
Proof. reflexivity. Qed.





(** One pass of the loop, when [open] is set. *)
Lemma recv_thread_loop_step invalid n c :
  open c = true ->
  recv_thread_loop invalid (S n) c =
    match recv_thread_pass invalid c with
    | (Val _, c') => recv_thread_loop invalid n c'
    | (Break, c') => Some (Val tt, c')
    | (Throw e, c') => Some (Throw e, c')
    end.
Proof. intros H. cbn [recv_thread_loop]. rewrite H. reflexivity. Qed.





(** ** Reads that meet the end of the stream or an error *)

(** What [recv] does with the event [ev] it meets before its buffer is
    full. *)
Lemma recv_meets len pre bs ev rest c :
  delivers pre bs ->
  (length bs < recv_size len)%nat ->
  sock_in c = pre ++ ev :: rest ->
  recv len c =
    match ev with
    | REof | RData [] => (Val [], set_open false (set_sock_in rest c))
    | RErr err =>
        if err =? EWOULDBLOCK then recv len (set_sock_in (pre ++ rest) c)
        else if err =? ECONNRESET then (Val [], set_open false (set_sock_in rest c))
        else (Throw (RecvFailed err), set_sock_in rest c)
    | RData (b :: more) => recv len (set_sock_in (pre ++ RData (b :: more) :: rest) c)
    end.
Proof.
  intros Hd Hlt Hs. destruct ev as [[|b more]| |err].
  - rewrite (recv_short len pre bs _ c Hd Hs Hlt). reflexivity.
  - rewrite <- Hs, set_sock_in_same. reflexivity.
  - rewrite (recv_short len pre bs _ c Hd Hs Hlt). reflexivity.
  - rewrite (recv_short len pre bs _ c Hd Hs Hlt). cbn [recv_loop].
    destruct (err =? EWOULDBLOCK) eqn:Ew.
    + rewrite (recv_short len pre bs rest (set_sock_in (pre ++ rest) c) Hd eq_refl Hlt).
      destruct (recv_loop rest (recv_size len - length bs) bs) as [[s| |e] sock'];
        try destruct (e =? ECONNRESET); reflexivity.
    + destruct (err =? ECONNRESET); reflexivity.
Qed.

(** The same for an event that ends the read. *)
Lemma recv_stops len pre bs ev rest c x :
  delivers pre bs ->
  (length bs < recv_size len)%nat ->
  stops ev = Some x ->
  recv len (set_sock_in (pre ++ ev :: rest) c) =
    match x with
    | None => (Val [], set_open false (set_sock_in rest c))
    | Some e => (Throw e, set_sock_in rest c)
    end.
Proof.
  intros Hd Hlt Hx.
  rewrite (recv_meets len pre bs ev rest (set_sock_in (pre ++ ev :: rest) c) Hd Hlt eq_refl).
  destruct ev as [[|b more]| |err]; cbn [stops] in Hx.
  - injection Hx as <-. reflexivity.
  - discriminate.
  - injection Hx as <-. reflexivity.
  - destruct (err =? EWOULDBLOCK); [discriminate|].
    destruct (err =? ECONNRESET); injection Hx as <-; reflexivity.
Qed.

Lemma recv_stops_bind {B} len (k : list Z -> M B) pre bs ev rest c x :
  delivers pre bs ->
  (length bs < recv_size len)%nat ->
  stops ev = Some x ->
  bind (recv len) k (set_sock_in (pre ++ ev :: rest) c) =
    match x with
    | None => k [] (set_open false (set_sock_in rest c))
    | Some e => (Throw e, set_sock_in rest c)
    end.
Proof.
  intros Hd Hlt Hx. unfold bind at 1.
  rewrite (recv_stops len pre bs ev rest c x Hd Hlt Hx). destruct x; reflexivity.
Qed.

(** How the thread body ends when the reads of a pass do not make a frame. *)
Lemma thread_main_read_ends invalid c r c1 :
  open c = true ->
  read_frame c = (r, c1) ->
  (forall f, r <> Val f) ->
  thread_main invalid c =
    Some (let c2 := set_open false c1 in
          let except := match r with Throw e => Some e | _ => None end in
          if disconn_handler c then log (Disconnect except) c2 else c2).
Proof.
  intros Ho Hr Hn. unfold thread_main, recv_thread.
  rewrite recv_thread_loop_step by assumption.
  unfold recv_thread_pass, bind. rewrite Hr.
  apply read_frame_reads_only in Hr. apply reads_only_fields in Hr
    as (_ & _ & _ & Ed & _ & _).
  destruct r as [f| |e]; [destruct (Hn f eq_refl)| |]; cbn [set_open disconn_handler];
    rewrite Ed; reflexivity.
Qed.

Lemma byte_at_take n bs i : (i < n)%nat -> byte_at (take n bs) i = byte_at bs i.
Proof.
  unfold byte_at. revert n bs. induction i as [|i IH]; intros [|n] [|b bs] H;
    try reflexivity; try lia.
  simpl. apply IH. lia.
Qed.

(** The next read of the pass: either the stream holds enough and the pass
    goes on, or the read meets the event that ends it and the goal is
    closed. *)
Ltac read_or_stop Hx Hd pre' Hd' Hlen :=
  match goal with
  | |- context [bind (recv ?len) _ (set_sock_in (?pre ++ _) _)] =>
      match type of Hd with
      | delivers pre ?cur =>
          destruct (le_lt_dec (recv_size len) (length cur)) as [Hlen|Hlen];
          [ recv_next Hd pre' Hd';
            [ split; [apply recv_size_nonzero; first [lia|apply Z.mod_pos_bound; lia]
                     |exact Hlen]
            | ]
          | rewrite (recv_stops_bind len _ pre cur _ _ _ _ Hd Hlen Hx);
            match goal with |- context [match ?x with _ => _ end] => destruct x end;
            reflexivity ]
      end
  end.

(** The mask key and the payload, on a stream cut short before both are
    read. *)
Lemma read_frame_tail_stops fin op (mask : bool) (len : Z) c pre cur ev rest x :
  open c = true ->
  delivers pre cur ->
  stops ev = Some x ->
  (length cur < (if mask then 4 else 0)
                + (if (len =? 0)%Z then 0 else recv_size (uint32 len)))%nat ->
  (mask_key <~ (if mask then k <~ recv 4 ;; break_unless_open ;;; ret k else ret []) ;;
   payload <~ (if len =? 0 then ret [] else recv (uint32 len)) ;;
   break_unless_open ;;;
   ret (mk_frame fin op (if mask then unmask mask_key payload else payload)))
    (set_sock_in (pre ++ ev :: rest) c)
  = match x with
    | None => (Break, set_open false (set_sock_in rest c))
    | Some e => (Throw e, set_sock_in rest c)
    end.
Proof.
  intros Ho Hd Hx Hlt. destruct mask.
  - rewrite bind_assoc.
    read_or_stop Hx Hd pre3 Hd3 Hl3.
    change (recv_size 4) with 4%nat in *.
    rewrite bind_ret.
    destruct (len =? 0) eqn:E0; [lia|].
    read_or_stop Hx Hd3 pre4 Hd4 Hl4.
    rewrite length_drop in Hl4. lia.
  - rewrite bind_ret.
    destruct (len =? 0) eqn:E0; [lia|].
    read_or_stop Hx Hd pre4 Hd4 Hl4. lia.
Qed.

(** A pass over a stream that is cut short inside a frame, by the end of
    the stream or by an error: the pass leaves through [break] with [open]
    cleared, or throws the error, and what the stream held of the frame is
    dropped. *)
Lemma read_frame_stops c pre bs ev rest x :
  open c = true ->
  delivers pre bs ->
  (length bs < frame_needs bs)%nat ->
  stops ev = Some x ->
  read_frame (set_sock_in (pre ++ ev :: rest) c)
  = match x with
    | None => (Break, set_open false (set_sock_in rest c))
    | Some e => (Throw e, set_sock_in rest c)
    end.
Proof.
  intros Ho Hd Hlt Hx. unfold read_frame.
  read_or_stop Hx Hd pre1 Hd1 Hl1.
  change (recv_size 2) with 2%nat in *.
  unfold frame_needs in Hlt.
  destruct (Nat.ltb_spec (length bs) 2) as [?|_]; [lia|].
  rewrite !byte_at_take by lia.
  set (len7 := Z.land (byte_at bs 1) 127) in *.
  set (mask := negb (Z.land (byte_at bs 1) 128 =? 0)) in *.
  destruct (len7 =? 126) eqn:E126; [|destruct (len7 =? 127) eqn:E127].
  - rewrite bind_assoc.
    read_or_stop Hx Hd1 pre2 Hd2 Hl2.
    change (recv_size 2) with 2%nat in *. rewrite length_drop in Hl2.
    destruct (Nat.ltb_spec (length bs) (2 + 2)) as [?|_]; [lia|].
    rewrite bind_ret.
    apply (read_frame_tail_stops _ _ mask _ c pre2 _ ev rest x Ho Hd2 Hx).
    rewrite !length_drop. destruct mask; lia.
  - rewrite bind_assoc.
    read_or_stop Hx Hd1 pre2 Hd2 Hl2.
    change (recv_size 8) with 8%nat in *. rewrite length_drop in Hl2.
    destruct (Nat.ltb_spec (length bs) (2 + 8)) as [?|_]; [lia|].
    rewrite bind_ret.
    apply (read_frame_tail_stops _ _ mask _ c pre2 _ ev rest x Ho Hd2 Hx).
    rewrite !length_drop. destruct mask; lia.
  - rewrite bind_ret.
    destruct (Nat.ltb_spec (length bs) (2 + 0)) as [?|_]; [lia|].
    apply (read_frame_tail_stops _ _ mask _ c pre1 _ ev rest x Ho Hd1 Hx).
    rewrite !length_drop. destruct mask; lia.
Qed.

(** The thread body on such a stream. *)
Lemma thread_main_stops invalid c pre bs ev rest x :
  open c = true ->
  disconn_handler c = true ->
  delivers pre bs ->
  (length bs < frame_needs bs)%nat ->
  stops ev = Some x ->
  sock_in c = pre ++ ev :: rest ->
  thread_main invalid c
  = Some (log (Disconnect x) (set_open false (set_sock_in rest c))).
Proof.
  intros Ho Hdh Hd Hlt Hx Hs.
  pose proof (read_frame_stops c pre bs ev rest x Ho Hd Hlt Hx) as Hr.
  rewrite <- Hs, set_sock_in_same in Hr.
  destruct x as [e|].
  - rewrite (thread_main_read_ends invalid c _ _ Ho Hr) by discriminate.
    cbv zeta. rewrite Hdh. reflexivity.
  - rewrite (thread_main_read_ends invalid c _ _ Ho Hr) by discriminate.
    cbv zeta. rewrite Hdh. reflexivity.
Qed.

(** C8, as the code has it.  For any read of the receive loop that meets an
    event before its buffer is full: a zero-length read clears [open] and
    returns normally; would-block is skipped and the read goes on; a
    connection reset is treated like a zero-length read; any other error
    throws.  A pass whose read throws ends the loop, and the thread body
    hands the error to the disconnect handler; a pass that leaves through
    [break] ends the loop and the disconnect handler gets no error.  So
    wherever in a frame the stream is cut short: by its end or by a
    connection reset, the disconnect handler is told of no error; by any
    other error but would-block, it is handed that error. *)
Theorem transport_read_results (invalid : opcode) :
  (forall len c pre bs rest,
      delivers pre bs -> (length bs < recv_size len)%nat ->
      (sock_in c = pre ++ REof :: rest ->
       recv len c = (Val [], set_open false (set_sock_in rest c)))
      /\ (sock_in c = pre ++ RErr EWOULDBLOCK :: rest ->
          recv len c = recv len (set_sock_in (pre ++ rest) c))
      /\ (sock_in c = pre ++ RErr ECONNRESET :: rest ->
          recv len c = (Val [], set_open false (set_sock_in rest c)))
      /\ (forall err, err <> EWOULDBLOCK -> err <> ECONNRESET ->
                      sock_in c = pre ++ RErr err :: rest ->
                      recv len c = (Throw (RecvFailed err), set_sock_in rest c)))
  /\ (forall c e c1,
         open c = true -> disconn_handler c = true ->
         read_frame c = (Throw e, c1) ->
         thread_main invalid c = Some (log (Disconnect (Some e)) (set_open false c1)))
  /\ (forall c c1,
         open c = true -> disconn_handler c = true ->
         read_frame c = (Break, c1) ->
         thread_main invalid c = Some (log (Disconnect None) (set_open false c1)))
  /\ (forall c pre bs rest,
         open c = true -> disconn_handler c = true ->
         delivers pre bs -> (length bs < frame_needs bs)%nat ->
         (sock_in c = pre ++ REof :: rest ->
          thread_main invalid c
          = Some (log (Disconnect None) (set_open false (set_sock_in rest c))))
         /\ (sock_in c = pre ++ RErr ECONNRESET :: rest ->
             thread_main invalid c
             = Some (log (Disconnect None) (set_open false (set_sock_in rest c))))
         /\ (forall err, err <> EWOULDBLOCK -> err <> ECONNRESET ->
                         sock_in c = pre ++ RErr err :: rest ->
                         thread_main invalid c
                         = Some (log (Disconnect (Some (RecvFailed err)))
                                   (set_open false (set_sock_in rest c))))).
Proof.
  split; [|split; [|split]].
  - intros len c pre bs rest Hd Hlt. repeat split.
    + intros Hs. rewrite (recv_meets len pre bs _ rest c Hd Hlt Hs). reflexivity.
    + intros Hs. rewrite (recv_meets len pre bs _ rest c Hd Hlt Hs). reflexivity.
    + intros Hs. rewrite (recv_meets len pre bs _ rest c Hd Hlt Hs). reflexivity.
    + intros err Hw Hr Hs. rewrite (recv_meets len pre bs _ rest c Hd Hlt Hs).
      destruct (Z.eqb_spec err EWOULDBLOCK); [contradiction|].
      destruct (Z.eqb_spec err ECONNRESET); [contradiction|]. reflexivity.
  - intros c e c1 Ho Hd Hr.
    rewrite (thread_main_read_ends invalid c _ c1 Ho Hr) by discriminate.
    cbv zeta. rewrite Hd. reflexivity.
  - intros c c1 Ho Hd Hr.
    rewrite (thread_main_read_ends invalid c _ c1 Ho Hr) by discriminate.
    cbv zeta. rewrite Hd. reflexivity.
  - intros c pre bs rest Ho Hdh Hd Hlt. repeat split.
    + apply (thread_main_stops invalid c pre bs REof rest None); auto.
    + apply (thread_main_stops invalid c pre bs (RErr ECONNRESET) rest None); auto.
    + intros err Hw Hr.
      apply (thread_main_stops invalid c pre bs (RErr err) rest (Some (RecvFailed err)));
        auto.
      cbn [stops]. destruct (Z.eqb_spec err EWOULDBLOCK); [contradiction|].
      destruct (Z.eqb_spec err ECONNRESET); [contradiction|]. reflexivity.
Qed.

(** C8 as stated fails: a connection reset is an error result other than
    would-block, yet the disconnect handler is told of no error. *)
Lemma connection_reset_counterexample :
  thread_main op_continuation (connected op_text [RErr ECONNRESET] [])
  = Some (mk_client false op_text [] true true [] [] [Disconnect None]).
Proof. vm_compute. reflexivity. Qed.

(** An error that is fatal, for comparison (EPIPE), after a would-block. *)
Example broken_pipe_is_delivered :
  thread_main op_continuation
    (connected op_text [RErr EWOULDBLOCK; RData [0x81]; RErr 32] [])
  = Some (mk_client false op_text [] true true [] [] [Disconnect (Some (RecvFailed 32))]).
Proof. vm_compute. reflexivity. Qed.

(** ** The end of the stream inside a frame *)

(** ** Frames and what a pass reads for them *)

Lemma be_value_nonneg l : 0 <= be_value l.
Proof.
  unfold be_value.
  assert (H : forall l acc, 0 <= acc ->
            0 <= fold_left (fun len b => Z.lor (Z.shiftl len 8) (uint8 b)) l acc).
  { clear. induction l as [|b l IH]; intros acc Ha; [exact Ha|].
    cbn [fold_left]. apply IH. apply Z.lor_nonneg. split.
    - apply Z.shiftl_nonneg. exact Ha.
    - unfold uint8. apply Z.mod_pos_bound. lia. }
  apply H. lia.
Qed.

Lemma announced_length_nonneg bs : 0 <= announced_length bs.
Proof.
  unfold announced_length.
  destruct (_ =? 126); [apply be_value_nonneg|].
  destruct (_ =? 127) eqn:E.
  - unfold uint64. apply Z.mod_pos_bound. lia.
  - apply Z.land_nonneg. right. lia.
Qed.

Lemma frame_size_lower bs :
  2 + (if Z.land (byte_at bs 1) 0x7f =? 126 then 2
       else if Z.land (byte_at bs 1) 0x7f =? 127 then 8 else 0) <= frame_size bs.
Proof.
  pose proof (announced_length_nonneg bs). unfold frame_size. cbv zeta.
  set (len7 := Z.land (byte_at bs 1) 0x7f).
  destruct (len7 =? 126); destruct (len7 =? 127);
    destruct (negb (Z.land (byte_at bs 1) 128 =? 0)); lia.
Qed.

(** What a pass reads for a whole frame whose announced payload is shorter
    than 2^32 bytes is the frame, and for a proper prefix of it more than
    the prefix. *)
Lemma frame_needs_prefix bs missing :
  is_frame (bs ++ missing) ->
  frame_needs bs = length (bs ++ missing)
  \/ (missing <> [] /\ (length bs < frame_needs bs)%nat).
Proof.
  intros [Hsz Hlt].
  pose proof (frame_size_lower (bs ++ missing)) as Hlow.
  unfold frame_needs.
  destruct (Nat.ltb_spec (length bs) 2) as [H2|H2].
  { right. split; [|lia]. intros ->. rewrite app_nil_r in *.
    repeat case_match; lia. }
  assert (Hb : byte_at (bs ++ missing) 1 = byte_at bs 1).
  { unfold byte_at. apply app_nth1. lia. }
  cbv zeta.
  set (len7 := Z.land (byte_at bs 1) 0x7f) in *.
  set (ext := if len7 =? 126 then 2%nat else if len7 =? 127 then 8%nat else 0%nat).
  rewrite Hb in Hlow. fold len7 in Hlow.
  destruct (Nat.ltb_spec (length bs) (2 + ext)) as [He|He].
  { right. split; [|lia]. intros ->. rewrite app_nil_r in *. subst ext.
    repeat case_match; lia. }
  assert (Ht : forall n, (n <= ext)%nat ->
             take n (drop 2 (bs ++ missing)) = take n (drop 2 bs)).
  { intros n Hn. rewrite drop_app_le by lia. apply take_app_le.
    rewrite length_drop. lia. }
  set (len := if len7 =? 126 then be_value (take 2 (drop 2 bs))
              else if len7 =? 127 then uint64 (be_value (take 8 (drop 2 bs)))
              else len7).
  assert (Hl : announced_length (bs ++ missing) = len).
  { unfold announced_length. rewrite Hb. fold len7. subst len ext.
    destruct (len7 =? 126); [rewrite Ht by lia; reflexivity|].
    destruct (len7 =? 127); [rewrite Ht by lia; reflexivity|reflexivity]. }
  pose proof (announced_length_nonneg (bs ++ missing)) as Hnn.
  rewrite Hl in Hlt, Hnn.
  assert (Hbody : (if len =? 0 then 0%nat else recv_size (uint32 len)) = Z.to_nat len).
  { destruct (Z.eqb_spec len 0) as [->|Hn]; [reflexivity|].
    unfold uint32. rewrite Z.mod_small by lia. apply recv_size_pos. lia. }
  rewrite Hbody.
  left. apply Nat2Z.inj. rewrite Hsz. unfold frame_size. rewrite Hl, Hb.
  fold len7. subst ext.
  destruct (len7 =? 126); destruct (len7 =? 127); destruct (negb _); lia.
Qed.

Lemma frame_needs_whole bs : is_frame bs -> frame_needs bs = length bs.
Proof.
  intros H. destruct (frame_needs_prefix bs []) as [E|[E _]].
  - rewrite app_nil_r. exact H.
  - rewrite app_nil_r in E. exact E.
  - congruence.
Qed.

Lemma frame_needs_cut bs missing :
  is_frame (bs ++ missing) -> missing <> [] -> (length bs < frame_needs bs)%nat.
Proof.
  intros H Hm. destruct (frame_needs_prefix bs missing H) as [E|[_ E]]; [|exact E].
  rewrite E, length_app. destruct missing; [congruence|simpl; lia].
Qed.




(** The other places where a frame can be cut off: after the two header
    bytes, inside the extended length, and inside the mask key. *)
Example eof_after_header :
  thread_main op_continuation (connected op_text [RData [0x81; 0x05]; REof] [])
  = Some (mk_client false op_text [] true true [] [] [Disconnect None]).
Proof. reflexivity. Qed.

Example eof_inside_extended_length :
  thread_main op_continuation (connected op_text [RData [0x82; 0x7e; 0x01]; REof] [])
  = Some (mk_client false op_text [] true true [] [] [Disconnect None]).
Proof. reflexivity. Qed.

Example eof_inside_mask_key :
  thread_main op_continuation (connected op_text [RData [0x81; 0x85; 1; 2]; REof] [])
  = Some (mk_client false op_text [] true true [] [] [Disconnect None]).
Proof. reflexivity. Qed.

(** ** Strings *)

Lemma app_cons_str a s1 s2 : String a s1 +:+ s2 = String a (s1 +:+ s2).
Proof. reflexivity. Qed.

Lemma app_nil_str s : EmptyString +:+ s = s.
Proof. reflexivity. Qed.

Ltac str_simpl := rewrite ?app_cons_str, ?app_nil_str; simpl.
Lemma length_app_str s1 s2 :
  String.length (s1 +:+ s2) = (String.length s1 + String.length s2)%nat.
Proof. induction s1 as [|a s1 IH]; str_simpl; [reflexivity|f_equal; exact IH]. Qed.

Lemma size_app s1 s2 : size (s1 +:+ s2) = size s1 + size s2.
Proof. unfold size. rewrite length_app_str. lia. Qed.

Lemma size_nonneg s : 0 <= size s.
Proof. unfold size. lia. Qed.

Lemma app_assoc_str s1 s2 s3 : (s1 +:+ s2) +:+ s3 = s1 +:+ (s2 +:+ s3).
Proof. induction s1 as [|a s1 IH]; str_simpl; [reflexivity|f_equal; exact IH]. Qed.

Lemma skip_app pre s : skip (String.length pre) (pre +:+ s) = s.
Proof. induction pre as [|a pre IH]; str_simpl; [reflexivity|exact IH]. Qed.

Lemma keep_app s1 s2 : keep (String.length s1) (s1 +:+ s2) = s1.
Proof. induction s1 as [|a s1 IH]; str_simpl; [reflexivity|f_equal; exact IH]. Qed.

(** Searching from the end of a prefix is searching the rest. *)
Lemma find_from_app pat pre s p :
  find_from pat (pre +:+ s) (String.length pre + p)
  = option_map (Nat.add (String.length pre)) (find_from pat s p).
Proof.
  induction pre as [|a pre IH]; str_simpl.
  - destruct (find_from pat s p); reflexivity.
  - rewrite IH. destruct (find_from pat s p); reflexivity.
Qed.

Lemma find_from_O pat s :
  find_from pat s 0 =
    if starts_with pat s then Some O
    else match s with
         | EmptyString => None
         | String _ s' => option_map S (find_from pat s' 0)
         end.
Proof. destruct s; reflexivity. Qed.

(** The first occurrence of a one-character pattern after a text that
    lacks it. *)
Lemma find_from_one a line rest :
  lacks (String a EmptyString) line ->
  find_from (String a EmptyString) (line +:+ String a rest) 0 = Some (String.length line).
Proof.
  unfold lacks. induction line as [|c line IH]; intros H.
  - str_simpl. rewrite Ascii.eqb_refl. reflexivity.
  - rewrite find_from_O in H. rewrite app_cons_str, find_from_O.
    cbn [starts_with] in *.
    destruct (Ascii.eqb a c); cbn [andb] in *; [discriminate|].
    destruct (find_from (String a EmptyString) line 0) eqn:E; [discriminate|].
    rewrite IH by reflexivity. reflexivity.
Qed.

(** The first occurrence of a pattern of two different characters after a
    text that lacks it. *)
Lemma find_from_two a b line rest :
  a <> b ->
  lacks (String a (String b EmptyString)) line ->
  find_from (String a (String b EmptyString)) (line +:+ String a (String b rest)) 0
  = Some (String.length line).
Proof.
  intros Hab. unfold lacks. induction line as [|c line IH]; intros H.
  - str_simpl. rewrite !Ascii.eqb_refl. reflexivity.
  - rewrite find_from_O in H. rewrite app_cons_str, find_from_O.
    assert (Hs : starts_with (String a (String b EmptyString))
                   (String c (line +:+ String a (String b rest))) = false).
    { cbn [starts_with] in *. destruct (Ascii.eqb a c) eqn:Eac; [|reflexivity].
      cbn [andb] in *. destruct line as [|d line]; rewrite ?app_cons_str, ?app_nil_str.
      - apply Ascii.eqb_neq in Hab. rewrite Ascii.eqb_sym, Hab. reflexivity.
      - destruct (Ascii.eqb b d); [discriminate|reflexivity]. }
    rewrite Hs.
    destruct (starts_with (String a (String b EmptyString)) (String c line));
      [discriminate|].
    destruct (find_from (String a (String b EmptyString)) line 0) eqn:E; [discriminate|].
    rewrite IH by reflexivity. reflexivity.
Qed.

(** ** [find] and [substr] at the end of a prefix *)

Lemma size_t_small x : 0 <= x < 2 ^ 64 -> size_t x = x.
Proof. intros H. unfold size_t. apply Z.mod_small. assumption. Qed.

Lemma find_at pre suf pat i :
  find_from pat suf 0 = Some i ->
  find (pre +:+ suf) pat (size pre) = size pre + Z.of_nat i.
Proof.
  intros H. unfold find. rewrite size_app.
  pose proof (size_nonneg suf). destruct (Z.ltb_spec (size pre + size suf) (size pre)); [lia|].
  unfold size at 1. rewrite Nat2Z.id.
  rewrite <- (Nat.add_0_r (String.length pre)), find_from_app, H. simpl.
  unfold size. lia.
Qed.

Lemma find_none pre suf pat :
  find_from pat suf 0 = None ->
  find (pre +:+ suf) pat (size pre) = npos.
Proof.
  intros H. unfold find. rewrite size_app.
  pose proof (size_nonneg suf). destruct (Z.ltb_spec (size pre + size suf) (size pre)); [lia|].
  unfold size at 1. rewrite Nat2Z.id.
  rewrite <- (Nat.add_0_r (String.length pre)), find_from_app, H. reflexivity.
Qed.

Lemma substr_at pre s post :
  substr (pre +:+ s +:+ post) (size pre) (size s) = s.
Proof.
  unfold substr. rewrite !size_app.
  pose proof (size_nonneg post).
  rewrite Z.min_l by lia. unfold size. rewrite !Nat2Z.id.
  rewrite skip_app, keep_app. reflexivity.
Qed.

Lemma app_nil_r_str s : s +:+ EmptyString = s.
Proof. induction s as [|a s IH]; str_simpl; [reflexivity|f_equal; exact IH]. Qed.

(** ** One line of the response at a time *)

Lemma CRLF_app x : CRLF +:+ x = String CR (String LF x).
Proof. reflexivity. Qed.

Lemma colon_app x : ": " +:+ x = String ":" (String " " x).
Proof. reflexivity. Qed.

Lemma find_colon pre n x :
  lacks ": " n ->
  find (pre +:+ n +:+ ": " +:+ x) ": " (size pre) = size pre + size n.
Proof.
  intros H. rewrite colon_app. apply find_at.
  apply (find_from_two ":" " "); [discriminate|exact H].
Qed.

Lemma find_crlf pre line x :
  lacks CRLF line ->
  find (pre +:+ line +:+ CRLF +:+ x) CRLF (size pre) = size pre + size line.
Proof.
  intros H. rewrite CRLF_app. apply find_at.
  apply (find_from_two CR LF); [discriminate|exact H].
Qed.

(** The pass of the loop over a header line. *)
Lemma parse_line_header pre n v rest headers status :
  lacks ": " n ->
  lacks CRLF (n +:+ ": " +:+ v) ->
  let mess := pre +:+ n +:+ ": " +:+ v +:+ CRLF +:+ rest in
  size mess < 2 ^ 63 ->
  parse_line mess (mk_parser false (find mess CRLF (size pre)) (size pre) headers status)
  = inr (mk_parser false
           (find mess CRLF (size (pre +:+ n +:+ ": " +:+ v +:+ CRLF)))
           (size (pre +:+ n +:+ ": " +:+ v +:+ CRLF))
           (emplace n v headers) status).
Proof.
  intros Hn Hl mess Hsz.
  assert (Enl : find mess CRLF (size pre) = size pre + size (n +:+ ": " +:+ v)).
  { unfold mess. rewrite <- (find_crlf pre (n +:+ ": " +:+ v) rest Hl).
    rewrite !app_assoc_str. reflexivity. }
  assert (Ecolon : find mess ": " (size pre) = size pre + size n).
  { apply find_colon. exact Hn. }
  unfold parse_line. cbn [p_first p_nl p_nl2 p_headers p_status].
  rewrite Enl, Ecolon.
  assert (Hsizes : size mess = size pre + size n + 2 + size v + 2 + size rest).
  { unfold mess. rewrite !size_app. change (size ": ") with 2. change (size CRLF) with 2. lia. }
  pose proof (size_nonneg pre). pose proof (size_nonneg n).
  pose proof (size_nonneg v). pose proof (size_nonneg rest).
  rewrite !size_app. change (size ": ") with 2. change (size CRLF) with 2.
  assert (Hnp : (size pre + size n =? npos) = false).
  { apply Z.eqb_neq. unfold npos. lia. }
  rewrite Hnp. cbn [negb].
  rewrite !size_t_small by lia.
  replace (size pre + size n - size pre) with (size n) by lia.
  replace (size pre + (size n + (2 + size v)) - (size pre + size n) - 2) with (size v) by lia.
  replace (size pre + (size n + (2 + size v)) + 2)
    with (size pre + (size n + (2 + (size v + 2)))) by lia.
  assert (Ename : substr mess (size pre) (size n) = n).
  { unfold mess. apply substr_at. }
  assert (Evalue : substr mess (size pre + size n + 2) (size v) = v).
  { replace (size pre + size n + 2) with (size (pre +:+ n +:+ ": "))
      by (rewrite !size_app; change (size ": ") with 2; lia).
    replace mess with ((pre +:+ n +:+ ": ") +:+ v +:+ CRLF +:+ rest)
      by (unfold mess; rewrite !app_assoc_str; reflexivity).
    apply substr_at. }
  rewrite Ename, Evalue. reflexivity.
Qed.
Lemma find_end s pat : pat <> EmptyString -> find s pat (size s) = npos.
Proof.
  intros Hp. rewrite <- (app_nil_r_str s) at 1. apply find_none.
  destruct pat; [congruence|reflexivity].
Qed.

(** The pass of the loop over the empty line that ends the response. *)
Lemma parse_line_empty pre headers status :
  let mess := pre +:+ CRLF in
  size mess < 2 ^ 63 ->
  parse_line mess (mk_parser false (find mess CRLF (size pre)) (size pre) headers status)
  = inr (mk_parser false npos (size mess) headers status).
Proof.
  intros mess Hsz.
  assert (Enl : find mess CRLF (size pre) = size pre + 0).
  { apply (find_at pre CRLF CRLF 0%nat). reflexivity. }
  assert (Ecolon : find mess ": " (size pre) = npos).
  { apply find_none. reflexivity. }
  assert (Hsize : size mess = size pre + 2).
  { unfold mess. rewrite size_app. reflexivity. }
  pose proof (size_nonneg pre).
  unfold parse_line. cbn [p_first p_nl p_nl2 p_headers p_status].
  rewrite Enl, Ecolon. change (negb (npos =? npos)) with false. cbv iota.
  rewrite size_t_small by lia.
  replace (size pre + 0 + 2) with (size mess) by lia.
  rewrite find_end by discriminate. reflexivity.
Qed.

(** The pass of the loop over the status line. *)
Lemma parse_line_status proto code reason rest :
  lacks " " proto ->
  lacks " " code ->
  lacks CRLF (status_line proto code reason) ->
  let mess := status_line proto code reason +:+ CRLF +:+ rest in
  size mess < 2 ^ 63 ->
  parse_line mess (mk_parser true (find mess CRLF 0) 0 ∅ 0)
  = match stoul code with
    | Some v =>
        inr (mk_parser false
               (find mess CRLF (size (status_line proto code reason +:+ CRLF)))
               (size (status_line proto code reason +:+ CRLF)) ∅ (uint32 v))
    | None => inl (StoulError code)
    end.
Proof.
  intros Hp Hc Hl mess Hsz.
  set (sl := status_line proto code reason) in *.
  assert (Enl : find mess CRLF 0 = size sl).
  { apply (find_crlf EmptyString sl rest Hl). }
  assert (Em : mess = proto +:+ " " +:+ code +:+ " " +:+ reason +:+ CRLF +:+ rest).
  { unfold mess, sl, status_line. rewrite !app_assoc_str. reflexivity. }
  assert (Esp : find mess " " 0 = size proto).
  { rewrite Em. apply (find_at EmptyString _ " " (String.length proto)).
    apply (find_from_one " " proto). exact Hp. }
  assert (Esp2 : find mess " " (size proto + 1) = size proto + 1 + size code).
  { replace (size proto + 1) with (size (proto +:+ " "))
      by (rewrite size_app; reflexivity).
    replace mess with ((proto +:+ " ") +:+ code +:+ " " +:+ reason +:+ CRLF +:+ rest)
      by (rewrite Em, !app_assoc_str; reflexivity).
    apply (find_at _ _ " " (String.length code)).
    apply (find_from_one " " code). exact Hc. }
  assert (Ess : substr mess (size proto + 1) (size code) = code).
  { replace (size proto + 1) with (size (proto +:+ " "))
      by (rewrite size_app; reflexivity).
    replace mess with ((proto +:+ " ") +:+ code +:+ " " +:+ reason +:+ CRLF +:+ rest)
      by (rewrite Em, !app_assoc_str; reflexivity).
    apply substr_at. }
  assert (Hsl : size sl = size proto + 1 + size code + 1 + size reason).
  { unfold sl, status_line. rewrite !size_app. change (size " ") with 1. lia. }
  assert (Hsize : size mess = size sl + 2 + size rest).
  { unfold mess. rewrite !size_app. change (size CRLF) with 2. lia. }
  pose proof (size_nonneg proto). pose proof (size_nonneg code).
  pose proof (size_nonneg reason). pose proof (size_nonneg rest).
  unfold parse_line. cbn [p_first p_nl p_nl2 p_headers p_status].
  rewrite Enl, Esp.
  assert (H3 : (size proto =? npos) = false) by (apply Z.eqb_neq; unfold npos; lia).
  assert (H4 : (size proto <=? size sl) = true) by (apply Z.leb_le; lia).
  rewrite H3, H4. cbn [negb andb].
  rewrite (size_t_small (size proto + 1)) by lia. rewrite Esp2.
  assert (H5 : (size proto + 1 + size code =? npos) = false)
    by (apply Z.eqb_neq; unfold npos; lia).
  assert (H6 : (size sl <? size proto + 1 + size code) = false) by (apply Z.ltb_ge; lia).
  rewrite H5, H6. cbn [orb].
  replace (size proto + 1 + size code - size proto - 1) with (size code) by lia.
  rewrite (size_t_small (size code)) by lia. rewrite Ess.
  destruct (stoul code) as [v|]; [|reflexivity].
  rewrite size_t_small by lia. rewrite size_app. reflexivity.
Qed.

(** Where the line after a prefix ends, whatever headers follow. *)
Lemma find_crlf_headers pre hs :
  Forall header_ok hs ->
  find (pre +:+ render_headers hs +:+ CRLF) CRLF (size pre)
  = size pre + match hs with
               | [] => 0
               | h :: _ => size (fst h +:+ ": " +:+ snd h)
               end.
Proof.
  intros Hok. destruct hs as [|[n v] hs].
  - apply (find_at pre CRLF CRLF 0%nat). reflexivity.
  - inversion Hok as [|? ? [_ Hl] _]; subst. cbn [render_headers fst snd] in *.
    unfold header_line. cbn [fst snd].
    rewrite <- (find_crlf pre (n +:+ ": " +:+ v) (render_headers hs +:+ CRLF) Hl).
    rewrite !app_assoc_str. reflexivity.
Qed.

Lemma find_crlf_headers_found pre hs :
  Forall header_ok hs ->
  size (pre +:+ render_headers hs +:+ CRLF) < 2 ^ 63 ->
  (find (pre +:+ render_headers hs +:+ CRLF) CRLF (size pre) =? npos) = false.
Proof.
  intros Hok Hsz. rewrite find_crlf_headers by assumption.
  apply Z.eqb_neq. pose proof (size_nonneg pre).
  destruct hs as [|[n v] hs]; cbn [render_headers fst snd] in *.
  - rewrite app_nil_str, size_app in Hsz. change (size CRLF) with 2 in Hsz.
    unfold npos. lia.
  - unfold header_line in Hsz. cbn [fst snd] in Hsz.
    rewrite !size_app in *.
    pose proof (size_nonneg n). pose proof (size_nonneg v).
    pose proof (size_nonneg (render_headers hs)).
    change (size ": ") with 2 in *. change (size CRLF) with 2 in *.
    unfold npos. lia.
Qed.

(** The passes of the loop over the header lines and the empty line. *)
Lemma parse_lines_headers hs :
  forall pre headers status lines,
    (length hs < lines)%nat ->
    Forall header_ok hs ->
    let mess := pre +:+ render_headers hs +:+ CRLF in
    size mess < 2 ^ 63 ->
    parse_lines lines mess
      (mk_parser false (find mess CRLF (size pre)) (size pre) headers status)
    = Some (inr (mk_parser false npos (size mess) (emplace_all hs headers) status)).
Proof.
  induction hs as [|[n v] hs IH]; intros pre headers status lines Hlines Hok mess Hsz.
  - destruct lines as [|lines]; [simpl in Hlines; lia|].
    cbn [parse_lines]. unfold mess in *. cbn [render_headers] in *.
    rewrite app_nil_str in *.
    rewrite (parse_line_empty pre headers status Hsz).
    cbn [p_nl]. rewrite Z.eqb_refl. reflexivity.
  - destruct lines as [|lines]; [simpl in Hlines; lia|].
    inversion Hok as [|? ? [Hn Hl] Hok']; subst. cbn [fst snd] in *.
    assert (Em : mess = pre +:+ n +:+ ": " +:+ v +:+ CRLF +:+ render_headers hs +:+ CRLF).
    { unfold mess. cbn [render_headers]. unfold header_line. cbn [fst snd].
      rewrite !app_assoc_str. reflexivity. }
    assert (Em' : pre +:+ n +:+ ": " +:+ v +:+ CRLF +:+ render_headers hs +:+ CRLF
                  = (pre +:+ n +:+ ": " +:+ v +:+ CRLF) +:+ render_headers hs +:+ CRLF).
    { rewrite !app_assoc_str. reflexivity. }
    cbn [parse_lines]. clearbody mess. subst mess.
    rewrite (parse_line_header pre n v (render_headers hs +:+ CRLF) headers status Hn Hl Hsz).
    cbn [p_nl]. rewrite Em' in Hsz |- *.
    rewrite (find_crlf_headers_found _ hs Hok' Hsz).
    apply IH; [simpl in Hlines; lia|assumption|assumption].
Qed.

Lemma length_render_headers hs :
  (length hs <= String.length (render_headers hs))%nat.
Proof.
  induction hs as [|[n v] hs IH]; [reflexivity|].
  cbn [render_headers length]. unfold header_line. cbn [fst snd].
  rewrite !length_app_str. change (String.length ": ") with 2%nat. lia.
Qed.

(** What the parser makes of a response a server wrote line by line: the
    status is the number [stoul] reads from the status code, and the headers
    are folded into the map from the first line to the last. *)
Lemma parse_response_text proto code reason hs :
  lacks " " proto ->
  lacks " " code ->
  lacks CRLF (status_line proto code reason) ->
  Forall header_ok hs ->
  size (response_text proto code reason hs) < 2 ^ 63 ->
  parse_response (response_text proto code reason hs)
  = Some (match stoul code with
          | Some v => inr (uint32 v, emplace_all hs ∅)
          | None => inl (StoulError code)
          end).
Proof.
  intros Hp Hc Hl Hok Hsz. unfold parse_response, response_text in *.
  cbn [parse_lines].
  rewrite (parse_line_status proto code reason (render_headers hs +:+ CRLF) Hp Hc Hl Hsz).
  destruct (stoul code) as [v|]; [|reflexivity].
  cbn [p_nl].
  assert (Em : status_line proto code reason +:+ CRLF +:+ render_headers hs +:+ CRLF
               = (status_line proto code reason +:+ CRLF) +:+ render_headers hs +:+ CRLF).
  { rewrite !app_assoc_str. reflexivity. }
  rewrite Em in Hsz |- *.
  rewrite (find_crlf_headers_found _ hs Hok Hsz).
  rewrite parse_lines_headers; [reflexivity| |assumption|assumption].
  rewrite !length_app_str. change (String.length CRLF) with 2%nat.
  pose proof (length_render_headers hs). lia.
Qed.
(** ** The parsing loop always comes to an end *)

Lemma find_from_range pat s :
  forall p i, find_from pat s p = Some i -> (p <= i <= String.length s)%nat.
Proof.
  induction s as [|c s IH]; intros [|p] i; cbn [find_from].
  - destruct (starts_with pat EmptyString); intros [= <-]. simpl. lia.
  - discriminate.
  - destruct (starts_with pat (String c s)).
    + intros [= <-]. simpl. lia.
    + destruct (find_from pat s 0) as [j|] eqn:E; [|discriminate].
      intros [= <-]. apply IH in E. simpl. lia.
  - destruct (find_from pat s p) as [j|] eqn:E; [|discriminate].
    intros [= <-]. apply IH in E. simpl. lia.
Qed.

Lemma find_range s pat pos :
  0 <= pos ->
  find s pat pos = npos \/ pos <= find s pat pos <= size s.
Proof.
  intros Hpos. unfold find. destruct (size s <? pos); [left; reflexivity|].
  destruct (find_from pat s (Z.to_nat pos)) as [i|] eqn:E; [|left; reflexivity].
  right. apply find_from_range in E. unfold size. lia.
Qed.

Lemma parse_line_next mess p p' :
  parse_line mess p = inr p' ->
  p_nl p' = find mess CRLF (size_t (p_nl p + 2)).
Proof.
  unfold parse_line. destruct (p_first p).
  - destruct (negb (find mess " " 0 =? npos) && (find mess " " 0 <=? p_nl p)).
    + match goal with |- context [stoul ?ss] => destruct (stoul ss) end;
        [intros [= <-]; reflexivity|discriminate].
    + intros [= <-]. reflexivity.
  - intros [= <-]. reflexivity.
Qed.

Lemma parse_lines_total mess :
  size mess < 2 ^ 63 ->
  forall lines p,
    (p_nl p = npos /\ size mess < Z.of_nat lines)
    \/ (0 <= p_nl p <= size mess /\ size mess - p_nl p < Z.of_nat lines) ->
    exists r, parse_lines lines mess p = Some r.
Proof.
  intros Hsz. pose proof (size_nonneg mess) as Hs0.
  induction lines as [|lines IH]; intros p Hp.
  - exfalso. destruct Hp as [[_ H]|[H1 H2]]; simpl in *; lia.
  - cbn [parse_lines]. destruct (parse_line mess p) as [e|p'] eqn:E; [eauto|].
    apply parse_line_next in E.
    destruct (Z.eqb_spec (p_nl p') npos) as [Hn|Hn]; [eauto|].
    apply IH. right. rewrite E in Hn |- *.
    destruct Hp as [[Hnp Hl]|[H1 H2]].
    + rewrite Hnp in *. change (size_t (npos + 2)) with 1 in *.
      destruct (find_range mess CRLF 1) as [F|F]; [lia|congruence|lia].
    + rewrite size_t_small in * by lia.
      destruct (find_range mess CRLF (p_nl p + 2)) as [F|F]; [lia|congruence|lia].
Qed.

(** [parse_response] always produces a result: the bound on the number of
    lines is never reached. *)
Lemma parse_response_total mess :
  size mess < 2 ^ 63 -> exists r, parse_response mess = Some r.
Proof.
  intros Hsz. unfold parse_response.
  destruct (parse_lines_total mess Hsz (S (String.length mess))
              (mk_parser true (find mess CRLF 0) 0 ∅ 0)) as [r ->].
  - cbn [p_nl]. destruct (find_range mess CRLF 0) as [F|F]; [lia| |].
    + left. split; [assumption|]. unfold size. lia.
    + right. split; [lia|]. unfold size in *. lia.
  - destruct r as [e|p]; eauto.
Qed.

(** ** The map of headers *)

Lemma emplace_lookup n v (m : gmap string string) k :
  emplace n v m !! k =
    match m !! k with
    | Some x => Some x
    | None => if String.eqb n k then Some v else None
    end.
Proof.
  unfold emplace. destruct (String.eqb_spec n k) as [->|Hne].
  - destruct (m !! k) eqn:E; [rewrite E; reflexivity|].
    rewrite lookup_insert_eq. reflexivity.
  - destruct (m !! n) eqn:E.
    + destruct (m !! k); reflexivity.
    + rewrite lookup_insert_ne by assumption. destruct (m !! k); reflexivity.
Qed.

(** The first line with a given name decides the value; later lines with
    the same name change nothing. *)
Lemma emplace_all_lookup hs :
  forall (m : gmap string string) k,
    emplace_all hs m !! k =
      match m !! k with
      | Some x => Some x
      | None => first_value k hs
      end.
Proof.
  induction hs as [|[n v] hs IH]; intros m k; cbn [emplace_all fold_left first_value fst snd].
  - destruct (m !! k); reflexivity.
  - change (fold_left (fun m h => emplace (fst h) (snd h) m) hs (emplace n v m))
      with (emplace_all hs (emplace n v m)).
    rewrite IH, emplace_lookup. destruct (m !! k); [reflexivity|].
    destruct (String.eqb n k); reflexivity.
Qed.
(** ** The accept check *)

Lemma check_response_upgraded key status headers :
  check_response key status headers = inr Upgraded <->
  status = 101
  /\ headers !! "Upgrade"%string = Some "websocket"%string
  /\ headers !! "Connection"%string = Some "Upgrade"%string
  /\ headers !! "Sec-WebSocket-Accept"%string = Some (expected_accept key).
Proof.
  unfold check_response. split.
  - destruct (Z.eqb_spec status 401) as [->|H401].
    + destruct (headers !! "WWW-Authenticate"%string); [discriminate|].
      simpl. discriminate.
    + destruct (Z.eqb_spec status 101) as [->|H101]; [|discriminate].
      cbn [negb].
      destruct (headers !! "Upgrade"%string) as [u|]; [|discriminate].
      destruct (headers !! "Connection"%string) as [c|]; [|discriminate].
      destruct (headers !! "Sec-WebSocket-Accept"%string) as [a|]; [|discriminate].
      destruct (String.eqb_spec u "websocket"); [|discriminate].
      destruct (String.eqb_spec c "Upgrade"); [|discriminate].
      destruct (String.eqb_spec a (expected_accept key)); [|discriminate].
      subst. auto.
  - intros (-> & -> & -> & ->). change (101 =? 401) with false. cbv iota.
    change (negb (101 =? 101)) with false. cbv iota.
    rewrite !String.eqb_refl. reflexivity.
Qed.

Lemma check_response_mismatch key headers :
  headers !! "Sec-WebSocket-Accept"%string <> Some (expected_accept key) ->
  check_response key 101 headers = inl MalformedResponse
  \/ check_response key 101 headers = inl InvalidAccept.
Proof.
  intros Hne. unfold check_response. change (101 =? 401) with false. cbv iota.
  change (negb (101 =? 101)) with false. cbv iota.
  destruct (headers !! "Upgrade"%string) as [u|]; [|auto].
  destruct (headers !! "Connection"%string) as [c|]; [|auto].
  destruct (headers !! "Sec-WebSocket-Accept"%string) as [a|]; [|auto].
  destruct (negb (String.eqb u "websocket") || negb (String.eqb c "Upgrade")); [auto|].
  destruct (String.eqb_spec a (expected_accept key)) as [->|_]; [congruence|auto].
Qed.

Lemma upgrade_response_parsed accept :
  header_ok ("Sec-WebSocket-Accept"%string, accept) ->
  size accept < 2 ^ 62 ->
  exists headers,
    parse_response (upgrade_response (upgrade_headers accept)) = Some (inr (101, headers))
    /\ headers !! "Upgrade"%string = Some "websocket"%string
    /\ headers !! "Connection"%string = Some "Upgrade"%string
    /\ headers !! "Sec-WebSocket-Accept"%string = Some accept.
Proof.
  intros Hok Hsz. unfold upgrade_response.
  rewrite parse_response_text.
  - change (stoul "101") with (Some 101). change (uint32 101) with 101.
    eexists. split; [reflexivity|].
    rewrite !emplace_all_lookup. rewrite !lookup_empty. auto.
  - reflexivity.
  - reflexivity.
  - reflexivity.
  - unfold upgrade_headers. repeat constructor; try reflexivity; apply Hok.
  - unfold response_text, status_line, upgrade_headers.
    cbn [render_headers]. unfold header_line. cbn [fst snd].
    rewrite !size_app.
    repeat match goal with
           | |- context [size ?s] =>
               lazymatch s with
               | accept => fail
               | _ => let n := eval vm_compute in (size s) in change (size s) with n
               end
           end.
    lia.
Qed.

(** C1.  For every key and every response text: the turn ends with the
    upgrade accepted exactly when the parsed status is 101 and the parsed
    headers hold [Upgrade: websocket], [Connection: Upgrade] and a
    [Sec-WebSocket-Accept] equal to the base64 text of the SHA-1 digest of
    the key followed by "258EAFA5-E914-47DA-95CA-C5AB0DC85B11"; a 101
    response whose accept header is anything else, or missing, makes
    [send_handshake] throw, however the calls of [send_auth_response] would
    end.  For the key of RFC 6455, "dGhlIHNhbXBsZSBub25jZQ==", that text is
    "s3pPLMBiTxaQ9kYGzzhZRbK+xOo=", and the response of the RFC with an
    accept value [v] is accepted when [v] is that string and refused with
    "Invalid value for Sec-WebSocket-Accept." for any other [v].  The
    digest and the encoding are the standard ones on the test vectors of
    FIPS 180 and RFC 4648. *)
Theorem handshake_accept_check (key : string) :
  (forall mess,
      handshake_turn key mess = Some (inr Upgraded) <->
      exists headers,
        parse_response mess = Some (inr (101, headers))
        /\ headers !! "Upgrade"%string = Some "websocket"%string
        /\ headers !! "Connection"%string = Some "Upgrade"%string
        /\ headers !! "Sec-WebSocket-Accept"%string
           = Some (b64encode
                     (sha1 (bytes_of_string
                              (key +:+ "258EAFA5-E914-47DA-95CA-C5AB0DC85B11")))))
  /\ (forall auths mess headers more,
         parse_response mess = Some (inr (101, headers)) ->
         headers !! "Sec-WebSocket-Accept"%string
         <> Some (b64encode
                    (sha1 (bytes_of_string
                             (key +:+ "258EAFA5-E914-47DA-95CA-C5AB0DC85B11")))) ->
         send_handshake auths key (mess :: more) = Some (inl MalformedResponse)
         \/ send_handshake auths key (mess :: more) = Some (inl InvalidAccept))
  /\ b64encode
       (sha1 (bytes_of_string
                ("dGhlIHNhbXBsZSBub25jZQ==" +:+ "258EAFA5-E914-47DA-95CA-C5AB0DC85B11")))
     = "s3pPLMBiTxaQ9kYGzzhZRbK+xOo="%string
  /\ (forall auths v,
         header_ok ("Sec-WebSocket-Accept"%string, v) ->
         size v < 2 ^ 62 ->
         send_handshake auths "dGhlIHNhbXBsZSBub25jZQ=="
           [upgrade_response (upgrade_headers v)]
         = Some (if String.eqb v "s3pPLMBiTxaQ9kYGzzhZRbK+xOo="
                 then inr tt else inl InvalidAccept))
  /\ sha1 (bytes_of_string "abc")
     = [0xa9; 0x99; 0x3e; 0x36; 0x47; 0x06; 0x81; 0x6a; 0xba; 0x3e;
        0x25; 0x71; 0x78; 0x50; 0xc2; 0x6c; 0x9c; 0xd0; 0xd8; 0x9d]
  /\ sha1 (bytes_of_string
             "abcdbcdecdefdefgefghfghighijhijkijkljklmklmnlmnomnopnopq")
     = [0x84; 0x98; 0x3e; 0x44; 0x1c; 0x3b; 0xd2; 0x6e; 0xba; 0xae;
        0x4a; 0xa1; 0xf9; 0x51; 0x29; 0xe5; 0xe5; 0x46; 0x70; 0xf1]
  /\ map b64encode
       (map bytes_of_string
          [EmptyString; "f"; "fo"; "foo"; "foob"; "fooba"; "foobar"]%string)
     = [EmptyString; "Zg=="; "Zm8="; "Zm9v"; "Zm9vYg=="; "Zm9vYmE="; "Zm9vYmFy"]%string.
Proof.
  split; [|split; [|split; [|split; [|split; [|split]]]]].
  - intros mess. unfold handshake_turn. split.
    + destruct (parse_response mess) as [[e|[status headers]]|]; try discriminate.
      intros [= H]. apply check_response_upgraded in H as (-> & H).
      exists headers. split; [reflexivity|exact H].
    + intros (headers & -> & H). f_equal. apply check_response_upgraded.
      split; [reflexivity|exact H].
  - intros auths mess headers more Hp Hne. cbn [send_handshake]. unfold handshake_turn.
    rewrite Hp. destruct (check_response_mismatch key headers Hne) as [-> | ->]; auto.
  - vm_compute. reflexivity.
  - intros auths v Hok Hsz.
    destruct (upgrade_response_parsed v Hok Hsz) as (headers & Hp & Hu & Hc & Ha).
    cbn [send_handshake]. unfold handshake_turn. rewrite Hp.
    unfold check_response. change (101 =? 401) with false. cbv iota.
    change (negb (101 =? 101)) with false. cbv iota.
    rewrite Hu, Hc, Ha.
    change (negb (String.eqb "websocket" "websocket")
            || negb (String.eqb "Upgrade" "Upgrade")) with false. cbv iota.
    replace (expected_accept "dGhlIHNhbXBsZSBub25jZQ==")
      with "s3pPLMBiTxaQ9kYGzzhZRbK+xOo="%string by (vm_compute; reflexivity).
    destruct (String.eqb v "s3pPLMBiTxaQ9kYGzzhZRbK+xOo="); reflexivity.
  - vm_compute. reflexivity.
  - vm_compute. reflexivity.
  - vm_compute. reflexivity.
Qed.

(** C9, as the code has it.  For a response a server wrote line by line,
    with a status code [stoul] reads as [status]: the parser returns that
    status and a map in which every name has the value of the first header
    line with exactly that name (names that differ in case are different
    names); these are the values the checks of the negotiator read.  So a
    response whose upgrade header is spelled [upgrade] is refused as
    malformed. *)
Theorem first_header_wins (proto code reason : string) (hs : list (string * string))
    (status : Z) :
  lacks " " proto ->
  lacks " " code ->
  lacks CRLF (status_line proto code reason) ->
  Forall header_ok hs ->
  size (response_text proto code reason hs) < 2 ^ 63 ->
  stoul code = Some status ->
  (exists headers,
      parse_response (response_text proto code reason hs)
      = Some (inr (uint32 status, headers))
      /\ (forall name, headers !! name = first_value name hs)
      /\ (forall key,
             handshake_turn key (response_text proto code reason hs)
             = Some (check_response key (uint32 status) headers)))
  /\ handshake_turn rfc_key
       (upgrade_response [("upgrade", "websocket"); ("Connection", "Upgrade");
                          ("Sec-WebSocket-Accept", rfc_accept)]%string)
     = Some (inl MalformedResponse).
Proof.
  intros Hp Hc Hl Hok Hsz Hst. split.
  - exists (emplace_all hs ∅).
    assert (Hparse : parse_response (response_text proto code reason hs)
                     = Some (inr (uint32 status, emplace_all hs ∅))).
    { rewrite parse_response_text by assumption. rewrite Hst. reflexivity. }
    split; [exact Hparse|]. split.
    + intros name. rewrite emplace_all_lookup, lookup_empty. reflexivity.
    + intros key. unfold handshake_turn. rewrite Hparse. reflexivity.
  - vm_compute. reflexivity.
Qed.

Lemma first_header_wins_witness :
  exists headers,
    parse_response
      (upgrade_response (("Sec-WebSocket-Accept", "first") :: upgrade_headers "last")%string)
    = Some (inr (101, headers))
    /\ headers !! "Sec-WebSocket-Accept"%string = Some "first"%string.
Proof.
  destruct (first_header_wins "HTTP/1.1" "101" "Switching Protocols"
              (("Sec-WebSocket-Accept", "first") :: upgrade_headers "last")%string 101)
    as [(headers & Hp & Hl & _) _].
  - reflexivity.
  - reflexivity.
  - reflexivity.
  - repeat constructor.
  - vm_compute. reflexivity.
  - reflexivity.
  - exists headers. split; [exact Hp|]. rewrite Hl. reflexivity.
Defined.

(** C9 as stated fails: in this 101 response the last accept header holds
    the expected value and the first one does not, and the handshake is
    refused for an invalid accept value. *)
Lemma last_header_counterexample :
  last_value "Sec-WebSocket-Accept"
    (("Sec-WebSocket-Accept", "bogus") :: upgrade_headers rfc_accept)%string
  = Some (expected_accept rfc_key)
  /\ forall auths,
       send_handshake auths rfc_key
         [upgrade_response
            (("Sec-WebSocket-Accept", "bogus") :: upgrade_headers rfc_accept)%string]
       = Some (inl InvalidAccept).
Proof. split; [|intros auths]; vm_compute; reflexivity. Qed.

(** ** Examples *)

Example send_header_text_5 : send_header op_text 5 = [0x81; 0x85; 0; 0; 0; 0].
Proof. reflexivity. Qed.

Example send_header_binary_300 :
  send_header op_binary 300 = [0x82; 0xfe; 0x01; 0x2c; 0; 0; 0; 0].
Proof. reflexivity. Qed.

Example send_header_binary_70000 :
  send_header op_binary 70000
  = [0x82; 0xff; 0; 0; 0; 0; 0; 0x01; 0x11; 0x70; 0; 0; 0; 0].
Proof. reflexivity. Qed.

(** A masked text frame as a server would not send it, but the loop
    accepts it: "Hello" under the key 37 fa 21 3d (RFC 6455, section 5.7). *)
Example read_masked_hello :
  read_frame
    (connected op_text
       [RData [0x81; 0x85; 0x37; 0xfa; 0x21; 0x3d; 0x7f; 0x9f; 0x4d; 0x51; 0x58]] [])
  = (Val (mk_frame true op_text (bytes_of_string "Hello")), connected op_text [] []).
Proof. reflexivity. Qed.

(** A ping read from the socket while the transport refuses the pong: the
    handler is not called and the error goes to the disconnect handler. *)
Example ping_with_broken_pipe :
  thread_main op_continuation
    (connected op_text [RData [0x89; 0x01; 0x2a]] [SErr 32])
  = Some (mk_client false op_text [] true true [] [] [Disconnect (Some (SendFailed 32))]).
Proof. reflexivity. Qed.

Example stoul_examples :
  stoul "101" = Some 101
  /\ stoul " 200" = Some 200
  /\ stoul "404x" = Some 404
  /\ stoul "-1" = Some (2 ^ 64 - 1)
  /\ stoul "abc" = None
  /\ stoul EmptyString = None
  /\ stoul "18446744073709551616" = None.
Proof. repeat split; reflexivity. Qed.

Example find_examples :
  find "a: b" ": " 0 = 1
  /\ find "a: b" ": " 2 = npos
  /\ find "abc" "c" 3 = npos
  /\ find "abc" "c" 7 = npos
  /\ substr "abcdef" 2 3 = "cde"%string
  /\ substr "abcdef" 4 npos = "ef"%string.
Proof. repeat split; reflexivity. Qed.

(** A status line without a status code: [stoul] throws. *)
Example malformed_status_line auths :
  send_handshake auths rfc_key [("HTTP/1.1 xyz" +:+ CRLF +:+ CRLF)%string]
  = Some (inl (StoulError "xyz")).
Proof. vm_compute. reflexivity. Qed.

(** A 401 with a scheme this client does not answer, and then the end of
    the stream. *)
Example unanswered_challenge auths :
  send_handshake auths rfc_key
    [response_text "HTTP/1.1" "401" "Unauthorized" [("WWW-Authenticate", "Basic realm=x")]%string]
  = Some (inl SocketClosed).
Proof. vm_compute. reflexivity. Qed.

(** A fragmented message whose first fragment is empty: an empty
    [payloadbuf] is what tells the loop that no message is in progress, so
    the last fragment is dispatched on its own, as a continuation. *)
Example empty_first_fragment :
  thread_main op_continuation
    (connected op_binary
       [RData [0x01; 0x00]; RData ([0x80; 0x03] ++ bytes_of_string "abc")] [])
  = Some (mk_client false op_text [] true true [] []
            [Handler op_continuation (bytes_of_string "abc"); Disconnect None]).
Proof. reflexivity. Qed.

(** * Further properties *)

(** ** Masking *)

(** X1.  Unmasking is its own inverse and keeps the length: applying the
    loop's [payload[i] ^= mask_key[i % 4]] twice with the same key gives the
    payload back, whatever the key holds. *)
Theorem unmask_involutive (mask_key payload : list Z) :
  unmask mask_key (unmask mask_key payload) = payload
  /\ length (unmask mask_key payload) = length payload.
Proof.
  unfold unmask. split; [|apply length_imap].
  apply list_eq. intros i. rewrite !list_lookup_imap.
  destruct (payload !! i) as [b|]; [|reflexivity]. simpl. f_equal.
  rewrite Z.lxor_assoc, Z.lxor_nilpotent, Z.lxor_0_r. reflexivity.
Qed.

(** ** The shape of what [recv] returns *)

Lemma recv_loop_full_length sock :
  forall left got s sock',
    recv_loop sock left got = (RecvFull s, sock') ->
    length s = (length got + left)%nat.
Proof.
  induction sock as [|[bs| |err] sock IH]; intros left got s sock'; cbn [recv_loop].
  - discriminate.
  - destruct bs as [|b bs]; [discriminate|].
    destruct (Nat.ltb_spec (length (b :: bs)) left) as [Hl|Hl].
    + intros H. apply IH in H. rewrite length_app in H. lia.
    + intros [= <- <-]. rewrite length_app, length_take. lia.
  - discriminate.
  - destruct (err =? EWOULDBLOCK); [apply IH|discriminate].
Qed.

(** X2.  [recv] never returns a short read.  It returns exactly the number
    of bytes it was asked for (4096 when asked for 0) and leaves [open]
    alone; or the empty string with [open] cleared; or it throws
    "recv failed" for an error that is neither would-block nor connection
    reset, leaving [open] alone.  Nothing but [open] and the inbound socket
    changes. *)
Theorem recv_all_or_nothing (len : Z) (c c' : client_pimpl) (r : res (list Z)) :
  recv len c = (r, c') ->
  reads_only c c'
  /\ match r with
     | Val s =>
         (open c' = open c /\ length s = recv_size len)
         \/ (open c' = false /\ s = [])
     | Break => False
     | Throw e =>
         open c' = open c
         /\ exists err, e = RecvFailed err /\ err <> EWOULDBLOCK /\ err <> ECONNRESET
     end.
Proof.
  intros H. split; [exact (recv_reads_only len c r c' H)|].
  revert H. unfold recv.
  destruct (recv_loop (sock_in c) (recv_size len) []) as [[s| |err] sock'] eqn:E.
  - intros [= <- <-]. left. split; [reflexivity|].
    apply recv_loop_full_length in E. simpl in E. exact E.
  - intros [= <- <-]. right. auto.
  - destruct (Z.eqb_spec err ECONNRESET) as [He|He]; intros [= <- <-].
    + right. auto.
    + split; [reflexivity|]. exists err. repeat split; [|assumption].
      clear He. revert E. generalize (recv_size len), (@nil Z).
      induction (sock_in c) as [|[bs| |e2] sock IH]; intros left got; cbn [recv_loop].
      * discriminate.
      * destruct bs as [|b bs]; [discriminate|].
        destruct (length (b :: bs) <? left)%nat; [apply IH|discriminate].
      * discriminate.
      * destruct (Z.eqb_spec e2 EWOULDBLOCK) as [Hw|Hw]; [apply IH|].
        intros [= -> _]. assumption.
Qed.

Lemma recv_all_or_nothing_witness :
  reads_only (connected op_text [RData [1; 2; 3]] [])
             (connected op_text [RData [3]] [])
  /\ ((open (connected op_text [RData [3]] []) = open (connected op_text [RData [1; 2; 3]] [])
       /\ length [1; 2] = recv_size 2)
      \/ (open (connected op_text [RData [3]] []) = false /\ [1; 2] = [])).
Proof.
  apply (recv_all_or_nothing 2 (connected op_text [RData [1; 2; 3]] [])
           (connected op_text [RData [3]] []) (Val [1; 2])).
  reflexivity.
Defined.

(** ** A frame that arrives whole *)

(** The mask key and the payload, on a stream that holds both. *)
Lemma read_frame_tail_decodes fin op (mask : bool) (len : Z) c pre cur rest :
  open c = true ->
  delivers pre cur ->
  ((if mask then 4 else 0)
   + (if (len =? 0)%Z then 0 else recv_size (uint32 len)) <= length cur)%nat ->
  exists pre',
    (mask_key <~ (if mask then k <~ recv 4 ;; break_unless_open ;;; ret k else ret []) ;;
     payload <~ (if len =? 0 then ret [] else recv (uint32 len)) ;;
     break_unless_open ;;;
     ret (mk_frame fin op (if mask then unmask mask_key payload else payload)))
      (set_sock_in (pre ++ rest) c)
    = (Val (mk_frame fin op
              (let payload := if len =? 0 then []
                              else take (recv_size (uint32 len))
                                     (drop (if mask then 4 else 0) cur) in
               if mask then unmask (take 4 cur) payload else payload)),
       set_sock_in (pre' ++ rest) c)
    /\ delivers pre'
         (drop ((if mask then 4 else 0)
                + (if (len =? 0)%Z then 0 else recv_size (uint32 len))) cur).
Proof.
  intros Ho Hd Hle.
  assert (Hsz : (len =? 0) = false -> (0 < recv_size (uint32 len))%nat).
  { intros _. apply recv_size_nonzero. apply Z.mod_pos_bound. lia. }
  destruct mask.
  - rewrite bind_assoc.
    recv_next Hd pre3 Hd3; [change (recv_size 4) with 4%nat; lia|].
    change (recv_size 4) with 4%nat in *.
    rewrite bind_ret.
    destruct (len =? 0) eqn:E0.
    + rewrite bind_ret, break_unless_open_true by assumption.
      exists pre3. rewrite Nat.add_0_r. auto.
    + recv_next Hd3 pre4 Hd4; [rewrite length_drop; specialize (Hsz eq_refl); lia|].
      exists pre4. rewrite drop_drop in Hd4. auto.
  - rewrite bind_ret.
    destruct (len =? 0) eqn:E0.
    + rewrite bind_ret, break_unless_open_true by assumption.
      exists pre. auto.
    + recv_next Hd pre4 Hd4; [specialize (Hsz eq_refl); lia|].
      exists pre4. auto.
Qed.

(** A pass over a stream that holds a whole frame returns the frame the
    bytes hold, however the stream delivers them, and leaves what follows
    the frame unread. *)
Lemma read_frame_decodes c pre bs rest :
  open c = true ->
  delivers pre bs ->
  (frame_needs bs <= length bs)%nat ->
  exists pre',
    read_frame (set_sock_in (pre ++ rest) c)
    = (Val (frame_of bs), set_sock_in (pre' ++ rest) c)
    /\ delivers pre' (drop (frame_needs bs) bs).
Proof.
  intros Ho Hd Hle. unfold read_frame, frame_of.
  unfold frame_needs in *.
  destruct (Nat.ltb_spec (length bs) 2) as [?|H2]; [lia|].
  recv_next Hd pre1 Hd1; [change (recv_size 2) with 2%nat; lia|].
  change (recv_size 2) with 2%nat in *.
  rewrite !byte_at_take by lia.
  set (len7 := Z.land (byte_at bs 1) 127) in *.
  set (mask := negb (Z.land (byte_at bs 1) 128 =? 0)) in *.
  destruct (len7 =? 126) eqn:E126; [|destruct (len7 =? 127) eqn:E127].
  - destruct (Nat.ltb_spec (length bs) (2 + 2)) as [?|H4]; [lia|].
    rewrite bind_assoc.
    recv_next Hd1 pre2 Hd2; [change (recv_size 2) with 2%nat; rewrite length_drop; lia|].
    change (recv_size 2) with 2%nat in *.
    rewrite bind_ret. rewrite drop_drop in Hd2.
    destruct (read_frame_tail_decodes
                (negb (Z.land (byte_at bs 0) 128 =? 0))
                (uint8 (Z.land (byte_at bs 0) 15)) mask
                (be_value (take 2 (drop 2 bs))) c pre2 _ rest Ho Hd2)
      as (pre' & Hr & Hd').
    { rewrite length_drop. destruct mask; lia. }
    exists pre'. rewrite !drop_drop in Hr, Hd'. split.
    + etransitivity; [exact Hr|]. clearbody mask. destruct mask; reflexivity.
    + exact Hd'.
  - destruct (Nat.ltb_spec (length bs) (2 + 8)) as [?|H4]; [lia|].
    rewrite bind_assoc.
    recv_next Hd1 pre2 Hd2; [change (recv_size 8) with 8%nat; rewrite length_drop; lia|].
    change (recv_size 8) with 8%nat in *.
    rewrite bind_ret. rewrite drop_drop in Hd2.
    destruct (read_frame_tail_decodes
                (negb (Z.land (byte_at bs 0) 128 =? 0))
                (uint8 (Z.land (byte_at bs 0) 15)) mask
                (uint64 (be_value (take 8 (drop 2 bs)))) c pre2 _ rest Ho Hd2)
      as (pre' & Hr & Hd').
    { rewrite length_drop. destruct mask; lia. }
    exists pre'. rewrite !drop_drop in Hr, Hd'. split.
    + etransitivity; [exact Hr|]. clearbody mask. destruct mask; reflexivity.
    + exact Hd'.
  - destruct (Nat.ltb_spec (length bs) (2 + 0)) as [?|H4]; [lia|].
    rewrite bind_ret.
    destruct (read_frame_tail_decodes
                (negb (Z.land (byte_at bs 0) 128 =? 0))
                (uint8 (Z.land (byte_at bs 0) 15)) mask
                len7 c pre1 _ rest Ho Hd1)
      as (pre' & Hr & Hd').
    { rewrite length_drop. destruct mask; lia. }
    exists pre'. rewrite !drop_drop in Hr, Hd'. split.
    + etransitivity; [exact Hr|]. clearbody mask. destruct mask; reflexivity.
    + exact Hd'.
Qed.

(** The frame a run of bytes starts with is read off the bytes the pass
    takes for it: what follows them makes no difference. *)
Lemma frame_of_app bs more :
  (frame_needs bs <= length bs)%nat ->
  frame_needs (bs ++ more) = frame_needs bs
  /\ frame_of (bs ++ more) = frame_of bs.
Proof.
  unfold frame_needs, frame_of. rewrite length_app.
  destruct (Nat.ltb_spec (length bs) 2) as [?|H2]; [lia|].
  destruct (Nat.ltb_spec (length bs + length more) 2) as [?|_]; [lia|].
  assert (Hb : forall i, (i < 2)%nat -> byte_at (bs ++ more) i = byte_at bs i).
  { intros i Hi. unfold byte_at. apply app_nth1. lia. }
  rewrite !Hb by lia. cbv zeta.
  set (len7 := Z.land (byte_at bs 1) 0x7f).
  set (ext := if len7 =? 126 then 2%nat else if len7 =? 127 then 8%nat else 0%nat).
  destruct (Nat.ltb_spec (length bs) (2 + ext)) as [?|He]; [lia|].
  destruct (Nat.ltb_spec (length bs + length more) (2 + ext)) as [?|_]; [lia|].
  assert (Ht : forall n, (n <= ext)%nat ->
             take n (drop 2 (bs ++ more)) = take n (drop 2 bs)).
  { intros n Hn. rewrite drop_app_le by lia. apply take_app_le.
    rewrite length_drop. lia. }
  assert (Hl : (if len7 =? 126 then be_value (take 2 (drop 2 (bs ++ more)))
                else if len7 =? 127
                     then uint64 (be_value (take 8 (drop 2 (bs ++ more))))
                     else len7)
               = (if len7 =? 126 then be_value (take 2 (drop 2 bs))
                  else if len7 =? 127 then uint64 (be_value (take 8 (drop 2 bs)))
                  else len7)).
  { subst ext. destruct (len7 =? 126); [rewrite Ht by lia; reflexivity|].
    destruct (len7 =? 127); [rewrite Ht by lia; reflexivity|reflexivity]. }
  rewrite Hl.
  set (len := if len7 =? 126 then be_value (take 2 (drop 2 bs))
              else if len7 =? 127 then uint64 (be_value (take 8 (drop 2 bs)))
              else len7).
  set (mask := negb (Z.land (byte_at bs 1) 128 =? 0)).
  set (body := if len =? 0 then 0%nat else recv_size (uint32 len)).
  intros Hle. split; [reflexivity|]. f_equal.
  assert (Hk : take 4 (drop (2 + ext) (bs ++ more)) = take 4 (drop (2 + ext) bs)
               \/ mask = false).
  { destruct mask; [left|right; reflexivity].
    rewrite drop_app_le by lia. apply take_app_le. rewrite length_drop. lia. }
  assert (Hp : (if len =? 0 then []
                else take (recv_size (uint32 len))
                       (drop (2 + ext + (if mask then 4 else 0)) (bs ++ more)))
               = (if len =? 0 then []
                  else take (recv_size (uint32 len))
                         (drop (2 + ext + (if mask then 4 else 0)) bs))).
  { subst body. destruct (len =? 0); [reflexivity|].
    rewrite drop_app_le by (destruct mask; lia). apply take_app_le.
    rewrite length_drop. destruct mask; lia. }
  rewrite Hp. destruct Hk as [-> | ->]; reflexivity.
Qed.

Lemma read_frame_whole (c : client_pimpl) pre frame more rest :
  open c = true ->
  is_frame frame ->
  delivers pre (frame ++ more) ->
  sock_in c = pre ++ rest ->
  exists pre',
    read_frame c = (Val (frame_of frame), set_sock_in (pre' ++ rest) c)
    /\ delivers pre' more.
Proof.
  intros Ho Hf Hd Hs.
  pose proof (frame_needs_whole frame Hf) as Hn.
  destruct (frame_of_app frame more) as [En Ef]; [lia|].
  destruct (read_frame_decodes c pre (frame ++ more) rest Ho Hd) as (pre' & Hr & Hd').
  { rewrite En, Hn, length_app. lia. }
  exists pre'. rewrite <- Hs, set_sock_in_same in Hr.
  rewrite Ef in Hr. rewrite En, Hn, drop_app_length in Hd'. auto.
Qed.

(** X3.  A frame that arrives whole is decoded from its bytes alone.  When
    the inbound stream delivers a frame whose announced payload is shorter
    than 2^32 bytes, and then the bytes [more], a pass of the loop returns
    [frame_of frame] whatever the sizes of the reads that deliver the bytes
    and however many would-block results lie between them; the pass
    consumes exactly the bytes of the frame, so the next pass starts on
    the first byte of [more]. *)
Theorem whole_frame_is_decoded (c : client_pimpl) pre frame more rest :
  open c = true ->
  is_frame frame ->
  delivers pre (frame ++ more) ->
  sock_in c = pre ++ rest ->
  exists pre',
    read_frame c = (Val (frame_of frame), set_sock_in (pre' ++ rest) c)
    /\ delivers pre' more.
Proof. exact (read_frame_whole c pre frame more rest). Qed.

(** A masked text frame delivered byte by byte in three reads with a
    would-block result between them, followed by the start of the next
    frame. *)
Lemma whole_frame_is_decoded_witness :
  exists pre',
    read_frame
      (connected op_text
         [RData [0x81]; RErr EWOULDBLOCK; RData [0x82; 1; 2; 3]; RData [4; 0x49; 0x6b; 0x82]]
         [])
    = (Val (mk_frame true op_text [0x48; 0x69]),
       set_sock_in (pre' ++ [])
         (connected op_text
            [RData [0x81]; RErr EWOULDBLOCK; RData [0x82; 1; 2; 3];
             RData [4; 0x49; 0x6b; 0x82]] []))
    /\ delivers pre' [0x82].
Proof.
  refine (whole_frame_is_decoded
    (connected op_text
       [RData [0x81]; RErr EWOULDBLOCK; RData [0x82; 1; 2; 3]; RData [4; 0x49; 0x6b; 0x82]] [])
    [RData [0x81]; RErr EWOULDBLOCK; RData [0x82; 1; 2; 3]; RData [4; 0x49; 0x6b; 0x82]]
    [0x81; 0x82; 1; 2; 3; 4; 0x49; 0x6b] [0x82] [] _ _ _ _).
  - reflexivity.
  - split; vm_compute; reflexivity.
  - apply (delivers_data 0x81 [] _ _). apply delivers_block.
    apply (delivers_data 0x82 [1; 2; 3] _ _).
    apply (delivers_data 4 [0x49; 0x6b; 0x82] [] [] delivers_nil).
  - reflexivity.
Defined.

(** X4.  A 64-bit announced length is cut to 32 bits before the payload is
    read ([recv((unsigned int)len)]), and a non-zero length whose low 32 bits
    are all zero makes [recv] fall back to its default of 4096 bytes.  So a
    frame with the 8-byte length [L], [L <> 0], comes out of the pass with
    [L mod 2^32] bytes of payload, or 4096 when [L mod 2^32 = 0]; whatever
    else the peer sent for the frame is taken for the next frame. *)
Theorem announced_length_is_truncated (c : client_pimpl) pre bs rest :
  open c = true ->
  delivers pre bs ->
  (frame_needs bs <= length bs)%nat ->
  sock_in c = pre ++ rest ->
  Z.land (byte_at bs 1) 0x7f = 127 ->
  uint64 (be_value (take 8 (drop 2 bs))) <> 0 ->
  exists f c',
    read_frame c = (Val f, c')
    /\ Z.of_nat (length (fr_payload f))
       = (if uint64 (be_value (take 8 (drop 2 bs))) mod 2 ^ 32 =? 0 then 4096
          else uint64 (be_value (take 8 (drop 2 bs))) mod 2 ^ 32).
Proof.
  intros Ho Hd Hle Hs H127 HL.
  destruct (read_frame_decodes c pre bs rest Ho Hd Hle) as (pre' & Hr & _).
  rewrite <- Hs, set_sock_in_same in Hr.
  exists (frame_of bs), (set_sock_in (pre' ++ rest) c). split; [exact Hr|].
  unfold frame_needs in Hle. unfold frame_of. rewrite H127 in *.
  change (127 =? 126) with false in *. change (127 =? 127) with true in *.
  cbv iota in *.
  set (L := uint64 (be_value (take 8 (drop 2 bs)))) in *.
  destruct (Nat.ltb_spec (length bs) 2) as [?|_]; [lia|].
  destruct (Nat.ltb_spec (length bs) (2 + 8)) as [?|_]; [lia|].
  destruct (Z.eqb_spec L 0) as [?|_]; [contradiction|].
  cbv zeta. cbn [fr_payload].
  assert (Hn : length (take (recv_size (uint32 L))
                         (drop (2 + 8 + (if negb (Z.land (byte_at bs 1) 128 =? 0)
                                         then 4 else 0)) bs))
               = recv_size (uint32 L)).
  { rewrite length_take, length_drop.
    destruct (negb (Z.land (byte_at bs 1) 128 =? 0)); lia. }
  assert (Hz : Z.of_nat (recv_size (uint32 L))
               = if L mod 2 ^ 32 =? 0 then 4096 else L mod 2 ^ 32).
  { unfold recv_size, uint32.
    pose proof (Z.mod_pos_bound L (2 ^ 32) ltac:(lia)).
    destruct (L mod 2 ^ 32 =? 0); lia. }
  destruct (negb (Z.land (byte_at bs 1) 128 =? 0)).
  - unfold unmask. rewrite length_imap, Hn. exact Hz.
  - rewrite Hn. exact Hz.
Qed.

(** A binary frame that announces 2^32 bytes: the pass returns the 4096
    bytes that follow the header as its payload. *)
Lemma announced_length_is_truncated_witness :
  exists f c',
    read_frame
      (connected op_text
         [RData ([0x82; 0x7f; 0; 0; 0; 1; 0; 0; 0; 0] ++ repeat 7 4096)] [])
    = (Val f, c')
    /\ Z.of_nat (length (fr_payload f)) = 4096.
Proof.
  refine (announced_length_is_truncated
    (connected op_text [RData ([0x82; 0x7f; 0; 0; 0; 1; 0; 0; 0; 0] ++ repeat 7 4096)] [])
    [RData ([0x82; 0x7f; 0; 0; 0; 1; 0; 0; 0; 0] ++ repeat 7 4096)]
    (([0x82; 0x7f; 0; 0; 0; 1; 0; 0; 0; 0] ++ repeat 7 4096) ++ []) [] _ _ _ _ _ _).
  - reflexivity.
  - exact (delivers_data 0x82 ([0x7f; 0; 0; 0; 1; 0; 0; 0; 0] ++ repeat 7 4096) [] []
             delivers_nil).
  - vm_compute. lia.
  - reflexivity.
  - reflexivity.
  - vm_compute. discriminate.
Defined.

(** ** What the loop adds to the trace *)

Lemma loop_event_send mh sent : Forall is_send sent -> Forall (loop_event mh) sent.
Proof.
  intros F. eapply Forall_impl; [exact F|]. intros [s|op pl|x]; simpl; tauto.
Qed.

(** A pass leaves through [break] only with [open] cleared. *)
Lemma break_closed_bind {A B} (m : M A) (k : A -> M B) :
  (forall c c', m c = (Break, c') -> open c' = false) ->
  (forall a c c', k a c = (Break, c') -> open c' = false) ->
  forall c c', bind m k c = (Break, c') -> open c' = false.
Proof.
  intros Hm Hk c c'. unfold bind. destruct (m c) as [[a| |e] c1] eqn:E.
  - apply Hk.
  - intros [= <-]. exact (Hm _ _ E).
  - discriminate.
Qed.

Lemma recv_no_break len c c' : recv len c = (Break, c') -> open c' = false.
Proof.
  unfold recv. destruct (recv_loop (sock_in c) (recv_size len) []) as [[s| |err] sock'];
    try destruct (err =? ECONNRESET); discriminate.
Qed.

Lemma break_unless_open_break c c' :
  break_unless_open c = (Break, c') -> open c' = false.
Proof.
  unfold break_unless_open. destruct (open c) eqn:E; [discriminate|].
  intros [= <-]. exact E.
Qed.

Ltac break_closed_tac :=
  repeat first
    [ apply recv_no_break
    | apply break_unless_open_break
    | (intros ? ?; unfold ret; discriminate)
    | match goal with
      | |- forall c c', (if ?b then _ else _) c = _ -> _ => destruct b
      end
    | (apply break_closed_bind; [|intros ?]) ].

Lemma read_frame_break c c' : read_frame c = (Break, c') -> open c' = false.
Proof. revert c c'. unfold read_frame. break_closed_tac. Qed.

(** One reassembly step: the trace grows by sends and by handler calls with
    an opcode other than close, made only if a handler is registered. *)
Lemma handle_frame_events invalid f c r c' :
  handle_frame invalid f c = (r, c') ->
  exists evs, trace c' = trace c ++ evs /\ Forall (loop_event (msg_handler c)) evs.
Proof.
  assert (P : forall op payload c r c',
             parse_ws_message op payload c = (r, c') ->
             exists evs, trace c' = trace c ++ evs
                         /\ Forall (loop_event (msg_handler c)) evs).
  { clear. intros op payload c r c' H.
    apply parse_ws_message_cases in H
      as [(-> & -> & ->)|(Hc & c1 & Hs & [(e & -> & ->)|(-> & ->)])].
    - exists []. simpl. rewrite app_nil_r. auto.
    - apply sends_only_fields in Hs as (_ & _ & _ & _ & _ & _ & sent & Et & F).
      exists sent. split; [assumption|]. apply loop_event_send, F.
    - apply sends_only_fields in Hs as (_ & _ & _ & _ & _ & _ & sent & Et & F).
      destruct (msg_handler c) eqn:Em.
      + exists (sent ++ [Handler op payload]). simpl. rewrite Et, app_assoc.
        split; [reflexivity|]. apply Forall_app. split; [apply loop_event_send, F|].
        constructor; [|constructor]. simpl. auto.
      + exists sent. split; [assumption|]. apply loop_event_send, F. }
  unfold handle_frame. destruct (negb (fr_fin f)).
  - intros [= <- <-]. exists []. rewrite app_nil_r.
    split; [|constructor]. destruct (negb (fr_opcode f =? invalid)); reflexivity.
  - destruct (negb (length (payloadbuf c) =? 0)%nat).
    + unfold bind, modify.
      destruct (parse_ws_message (last_opcode c) (payloadbuf c ++ fr_payload f) c)
        as [[[]| |e] c1] eqn:Ep; intros [= <- <-]; apply P in Ep; exact Ep.
    + apply P.
Qed.

Lemma recv_thread_pass_events invalid c r c' :
  recv_thread_pass invalid c = (r, c') ->
  msg_handler c' = msg_handler c /\ disconn_handler c' = disconn_handler c
  /\ exists evs, trace c' = trace c ++ evs /\ Forall (loop_event (msg_handler c)) evs.
Proof.
  unfold recv_thread_pass, bind.
  destruct (read_frame c) as [[f| |e] c1] eqn:Er;
    apply read_frame_reads_only in Er; apply reads_only_fields in Er
      as (_ & _ & Em & Ed & _ & Et).
  - intros Hh. pose proof (handle_frame_events _ _ _ _ _ Hh) as (evs & Ee & F).
    apply handle_frame_cases in Hh as (_ & Em2 & Ed2 & _).
    rewrite Em2, Ed2, Em, Ed. repeat split.
    exists evs. rewrite Ee, Et. rewrite Em in F. auto.
  - intros [= <- <-]. repeat split; trivial. exists []. rewrite app_nil_r. auto.
  - intros [= <- <-]. repeat split; trivial. exists []. rewrite app_nil_r. auto.
Qed.

Lemma recv_thread_loop_events invalid n :
  forall c r c',
    recv_thread_loop invalid n c = Some (r, c') ->
    msg_handler c' = msg_handler c /\ disconn_handler c' = disconn_handler c
    /\ (r = Val tt -> open c' = false)
    /\ r <> Break
    /\ exists evs, trace c' = trace c ++ evs /\ Forall (loop_event (msg_handler c)) evs.
Proof.
  assert (Hnil : forall c : client_pimpl,
             exists evs, trace c = trace c ++ evs
                         /\ Forall (loop_event (msg_handler c)) evs).
  { intros c. exists []. rewrite app_nil_r. auto. }
  induction n as [|n IH]; intros c r c'; cbn [recv_thread_loop];
    destruct (open c) eqn:Ho.
  - discriminate.
  - intros [= <- <-]. split; [reflexivity|]. split; [reflexivity|].
    split; [auto|split; [discriminate|auto]].
  - destruct (recv_thread_pass invalid c) as [[[]| |e] c2] eqn:Ep.
    + pose proof (recv_thread_pass_events _ _ _ _ Ep) as (Em & Ed & evs & Et & F).
      intros H. apply IH in H as (Em2 & Ed2 & Hv & Hb & evs2 & Et2 & F2).
      rewrite Em2, Ed2, Em, Ed. split; [reflexivity|]. split; [reflexivity|].
      split; [assumption|]. split; [assumption|].
      exists (evs ++ evs2). rewrite Et2, Et, app_assoc. split; [reflexivity|].
      apply Forall_app. rewrite Em in F2. auto.
    + intros [= <- <-].
      pose proof (recv_thread_pass_events _ _ _ _ Ep) as (Em & Ed & evs & Et & F).
      split; [assumption|]. split; [assumption|]. split; [|split; [discriminate|eauto]].
      intros _. revert Ep. unfold recv_thread_pass, bind.
      destruct (read_frame c) as [[f| |e] c1] eqn:Er.
      * intros Hh. apply handle_frame_cases in Hh. tauto.
      * intros [= <-]. exact (read_frame_break _ _ Er).
      * discriminate.
    + intros [= <- <-].
      pose proof (recv_thread_pass_events _ _ _ _ Ep) as (Em & Ed & evs & Et & F).
      split; [assumption|]. split; [assumption|].
      split; [discriminate|split; [discriminate|eauto]].
  - intros [= <- <-]. split; [reflexivity|]. split; [reflexivity|].
    split; [auto|split; [discriminate|auto]].
Qed.

(** X5.  What the thread tells the application, for every inbound script.
    The thread body always ends, with [open] cleared.  What it added to the
    trace is a run of sends and message-handler calls, none of them with
    opcode close and none at all when no message handler is registered,
    followed by the disconnect callback: exactly one, the last event, if a
    disconnect handler is registered, and none otherwise.  The callback
    carries the exception the loop threw, and no error if the loop ended
    without one. *)
Theorem thread_callbacks (invalid : opcode) (c : client_pimpl) :
  exists r c1 c' evs,
    recv_thread invalid c = Some (r, c1)
    /\ thread_main invalid c = Some c'
    /\ open c' = false
    /\ Forall (loop_event (msg_handler c)) evs
    /\ trace c'
       = trace c ++ evs
         ++ (if disconn_handler c
             then [Disconnect (match r with Throw e => Some e | _ => None end)]
             else []).
Proof.
  destruct (recv_thread_total invalid c) as (r & c1 & Hr).
  pose proof (recv_thread_loop_events _ _ _ _ _ Hr) as (_ & Ed & _ & _ & evs & Et & F).
  unfold thread_main. rewrite Hr.
  exists r, c1. eexists. exists evs. split; [reflexivity|]. split; [reflexivity|].
  cbn [set_open disconn_handler]. rewrite Ed.
  destruct (disconn_handler c); simpl; rewrite Et, ?app_nil_r, <- ?app_assoc;
    repeat split; auto.
Qed.

(** ** Reassembly over any number of frames *)

(** The reassembly state a step leaves behind when it returns. *)
Lemma handle_frame_state invalid f c c' :
  handle_frame invalid f c = (Val tt, c') ->
  payloadbuf c' = (if fr_fin f then [] else payloadbuf c ++ fr_payload f)
  /\ last_opcode c'
     = (if fr_fin f then last_opcode c
        else if fr_opcode f =? invalid then last_opcode c else fr_opcode f).
Proof.
  assert (P : forall op payload c r c',
             parse_ws_message op payload c = (r, c') ->
             payloadbuf c' = payloadbuf c /\ last_opcode c' = last_opcode c).
  { clear. intros op payload c r c' H.
    apply parse_ws_message_cases in H
      as [(-> & -> & ->)|(Hc & c1 & Hs & [(e & -> & ->)|(-> & ->)])];
      [simpl; auto| |];
      apply sends_only_fields in Hs as (_ & El & Eb & _);
      [|destruct (msg_handler c)]; simpl; auto. }
  unfold handle_frame. destruct (fr_fin f); cbn [negb].
  - destruct (length (payloadbuf c) =? 0)%nat eqn:E0; cbn [negb].
    + intros H. apply P in H as (Eb & El). rewrite Eb, El.
      apply Nat.eqb_eq in E0. destruct (payloadbuf c); [auto|discriminate].
    + unfold bind, modify.
      destruct (parse_ws_message (last_opcode c) (payloadbuf c ++ fr_payload f) c)
        as [[[]| |e] c1] eqn:Ep; intros [= <-].
      apply P in Ep as (_ & El). simpl. auto.
  - intros [= <-]. destruct (fr_opcode f =? invalid); simpl; auto.
Qed.

Lemma passes_app invalid fs1 :
  forall c fs2 c',
    passes invalid c (fs1 ++ fs2) c' ->
    exists c1, passes invalid c fs1 c1 /\ passes invalid c1 fs2 c'.
Proof.
  induction fs1 as [|f fs1 IH]; intros c fs2 c' H.
  - exists c. split; [constructor|assumption].
  - inversion H as [|? ? c1 c2 ? ? Ho Hr Hh Hp]; subst.
    apply IH in Hp as (cm & Hp1 & Hp2).
    exists cm. split; [|assumption].
    apply (passes_next invalid c f c1 c2); assumption.
Qed.

Lemma passes_state invalid c fs c' :
  passes invalid c fs c' ->
  payloadbuf c' = pending_buf fs (payloadbuf c)
  /\ last_opcode c' = pending_op invalid fs (last_opcode c).
Proof.
  induction 1 as [c|c f c1 c2 fs c3 Ho Hr Hh Hp [IHb IHl]].
  - split; reflexivity.
  - apply read_frame_reads_only in Hr. apply reads_only_fields in Hr
      as (El & Eb & _).
    apply handle_frame_state in Hh as (Hb & Hl).
    rewrite Eb in Hb. rewrite El in Hl.
    unfold pending_buf, pending_op in *. cbn [fold_left].
    rewrite IHb, IHl, Hb, Hl. split; reflexivity.
Qed.

(** Frames without FIN only fill the buffer: no send, no callback. *)
Lemma passes_fragments invalid c fs c' :
  passes invalid c fs c' ->
  Forall (fun f => fr_fin f = false) fs ->
  trace c' = trace c /\ sock_out c' = sock_out c /\ msg_handler c' = msg_handler c
  /\ payloadbuf c' = payloadbuf c ++ concat (map fr_payload fs).
Proof.
  induction 1 as [c|c f c1 c2 fs c3 Ho Hr Hh Hp IH]; intros F.
  - simpl. rewrite app_nil_r. auto.
  - apply Forall_cons in F as [Hf F].
    apply read_frame_reads_only in Hr. apply reads_only_fields in Hr
      as (_ & Eb & Em & _ & Eo & Et).
    destruct (IH F) as (It & Io & Im & Ib).
    revert Hh. unfold handle_frame. rewrite Hf. cbn [negb].
    intros [= <-]. rewrite It, Io, Im, Ib.
    destruct (negb (fr_opcode f =? invalid)); simpl;
      rewrite Et, Eo, Em, Eb, <- app_assoc; auto.
Qed.

(** X6.  The reassembly state is a function of the frames decoded so far:
    after any run of complete passes the buffer and the remembered opcode
    are what the frames alone determine, whatever was sent or handed to the
    handler on the way.  In particular the buffer is empty after a frame
    with FIN, and after frames without FIN it holds their payloads in the
    order of arrival. *)
Theorem reassembly_state (invalid : opcode) (c c' : client_pimpl) (fs : list frame) :
  passes invalid c fs c' ->
  payloadbuf c' = pending_buf fs (payloadbuf c)
  /\ last_opcode c' = pending_op invalid fs (last_opcode c)
  /\ (forall fs0 f, fs = fs0 ++ [f] -> fr_fin f = true -> payloadbuf c' = [])
  /\ (Forall (fun f => fr_fin f = false) fs ->
      payloadbuf c' = payloadbuf c ++ concat (map fr_payload fs)).
Proof.
  intros H. pose proof (passes_state _ _ _ _ H) as (Hb & Hl).
  split; [exact Hb|]. split; [exact Hl|]. split.
  - intros fs0 f -> Hf. rewrite Hb. unfold pending_buf.
    rewrite fold_left_app. simpl. rewrite Hf. reflexivity.
  - intros F. apply (passes_fragments _ _ _ _ H F).
Qed.

(** X7.  A message split over any number of frames reaches the handler
    whole and once.  When the loop, starting with an empty buffer, decodes
    the frames [frags] without FIN and then [final] with FIN, the handler is
    called exactly once, after the last frame, with the payloads of all the
    frames joined in the order of arrival; nothing else is added to the
    trace and nothing is sent.  The opcode is the one the fragments left
    behind, or the final frame's own if the fragments carried no payload.
    (Messages with opcode close or ping take the other branches of
    [parse_ws_message].) *)
Theorem fragments_reach_handler_joined (invalid : opcode) (c c' : client_pimpl)
    (frags : list frame) (final : frame) :
  passes invalid c (frags ++ [final]) c' ->
  payloadbuf c = [] ->
  msg_handler c = true ->
  Forall (fun f => fr_fin f = false) frags ->
  fr_fin final = true ->
  let body := concat (map fr_payload frags) in
  let op := if (length body =? 0)%nat then fr_opcode final
            else pending_op invalid frags (last_opcode c) in
  op <> op_close ->
  op <> op_ping ->
  trace c' = trace c ++ [Handler op (body ++ fr_payload final)]
  /\ payloadbuf c' = []
  /\ sock_out c' = sock_out c.
Proof.
  intros H Hb Hm F Hf body op Hc Hp.
  apply passes_app in H as (c1 & H1 & H2).
  pose proof (passes_fragments _ _ _ _ H1 F) as (Et & Eo & Em & Eb).
  pose proof (passes_state _ _ _ _ H1) as (_ & El).
  rewrite Hb in Eb. simpl in Eb. fold body in Eb.
  inversion H2 as [|? ? c2 c3 ? ? Ho Hr Hh Hn]; subst.
  inversion Hn; subst.
  apply read_frame_reads_only in Hr. apply reads_only_fields in Hr
    as (El2 & Eb2 & Em2 & _ & Eo2 & Et2).
  assert (P : forall pl c0, msg_handler c0 = true ->
             parse_ws_message op pl c0 = (Val tt, log (Handler op pl) c0)).
  { intros pl c0 Hm0. unfold parse_ws_message.
    destruct (Z.eqb_spec op op_close) as [?|_]; [contradiction|].
    destruct (Z.eqb_spec op op_ping) as [?|_]; [contradiction|].
    unfold bind, ret. rewrite Hm0. reflexivity. }
  revert Hh. unfold handle_frame. rewrite Hf, Eb2, Eb, El2, El. cbn [negb].
  fold body. unfold op in P |- *.
  destruct (length body =? 0)%nat eqn:E0; cbn [negb].
  - rewrite P by congruence. intros [= <-]. simpl.
    apply Nat.eqb_eq in E0. destruct body; [|discriminate].
    simpl. rewrite Et2, Et, Eo2, Eo, Eb2, Eb. auto.
  - unfold bind, modify. rewrite P by congruence. intros [= <-]. simpl.
    rewrite Et2, Et, Eo2, Eo. auto.
Qed.

(** A text message in three fragments, each in a read of its own. *)
Lemma three_fragments_passes :
  passes op_continuation
    (connected op_text
       [RData [0x01; 0x01; 0x41]; RData [0x00; 0x01; 0x42]; RData [0x80; 0x01; 0x43]] [])
    [mk_frame false op_text [0x41]; mk_frame false op_continuation [0x42];
     mk_frame true op_continuation [0x43]]
    (mk_client true op_text [] true true [] [] [Handler op_text [0x41; 0x42; 0x43]]).
Proof.
  eapply passes_next; [reflexivity|vm_compute; reflexivity|vm_compute; reflexivity|].
  eapply passes_next; [reflexivity|vm_compute; reflexivity|vm_compute; reflexivity|].
  eapply passes_next; [reflexivity|vm_compute; reflexivity|vm_compute; reflexivity|].
  apply passes_done.
Qed.

Lemma reassembly_state_witness :
  payloadbuf (mk_client true op_text [] true true [] []
                [Handler op_text [0x41; 0x42; 0x43]]) = []
  /\ last_opcode (mk_client true op_text [] true true [] []
                    [Handler op_text [0x41; 0x42; 0x43]]) = op_text.
Proof.
  pose proof (reassembly_state op_continuation _ _ _ three_fragments_passes)
    as (Hb & Hl & _).
  exact (conj Hb Hl).
Defined.

Lemma fragments_reach_handler_joined_witness :
  trace (mk_client true op_text [] true true [] []
           [Handler op_text [0x41; 0x42; 0x43]])
  = [] ++ [Handler op_text ([0x41; 0x42] ++ [0x43])]
  /\ payloadbuf (mk_client true op_text [] true true [] []
                   [Handler op_text [0x41; 0x42; 0x43]]) = []
  /\ sock_out (mk_client true op_text [] true true [] []
                 [Handler op_text [0x41; 0x42; 0x43]]) = [].
Proof.
  refine (fragments_reach_handler_joined op_continuation _ _
            [mk_frame false op_text [0x41]; mk_frame false op_continuation [0x42]]
            (mk_frame true op_continuation [0x43])
            three_fragments_passes _ _ _ _ _ _); try reflexivity.
  - repeat constructor.
  - vm_compute. discriminate.
  - vm_compute. discriminate.
Defined.

(** ** A ping that cannot be answered *)

(** X8.  When the pong for a ping cannot be sent, the application never
    sees the ping.  A frame with FIN completes a message with opcode ping
    and [client::send] throws on the reply: the exception leaves
    [parse_ws_message] before the message handler is called, ends the loop,
    and reaches the application as the error of the disconnect callback.
    No handler call is added to the trace, and [open] ends up cleared. *)
Theorem unanswered_ping_ends_thread (invalid : opcode) (c c1 c2 : client_pimpl)
    (f : frame) (e : exn) :
  open c = true ->
  disconn_handler c = true ->
  read_frame c = (Val f, c1) ->
  fr_fin f = true ->
  (if (length (payloadbuf c) =? 0)%nat then fr_opcode f else last_opcode c) = op_ping ->
  send (payloadbuf c ++ fr_payload f) op_pong c1 = (Throw e, c2) ->
  thread_main invalid c = Some (log (Disconnect (Some e)) (set_open false c2))
  /\ exists sent,
       trace c2 = trace c ++ sent /\ Forall is_send sent.
Proof.
  intros Ho Hd Hr Hf Hop Hs.
  pose proof (read_frame_reads_only _ _ _ Hr) as Hro.
  apply reads_only_fields in Hro as (El & Eb & Em & Ed & Eo & Et).
  pose proof (send_sends_only _ _ _ _ _ Hs) as Hso.
  apply sends_only_fields in Hso as (_ & _ & _ & _ & Ed2 & _ & sent & Et2 & F).
  assert (Hh : handle_frame invalid f c1 = (Throw e, c2)).
  { unfold handle_frame. rewrite Hf, Eb. cbn [negb].
    destruct (length (payloadbuf c) =? 0)%nat eqn:E0; cbn [negb].
    - apply Nat.eqb_eq in E0. destruct (payloadbuf c); [|discriminate].
      simpl in Hs. rewrite Hop. unfold parse_ws_message.
      change (op_ping =? op_close) with false. change (op_ping =? op_ping) with true.
      cbv iota. unfold bind. rewrite Hs. reflexivity.
    - rewrite El, Hop. unfold parse_ws_message.
      change (op_ping =? op_close) with false. change (op_ping =? op_ping) with true.
      cbv iota. unfold bind. rewrite Hs. reflexivity. }
  split.
  - unfold thread_main, recv_thread.
    rewrite recv_thread_loop_step by assumption.
    unfold recv_thread_pass, bind. rewrite Hr, Hh.
    cbn [set_open disconn_handler]. rewrite Ed2, Ed, Hd. reflexivity.
  - exists sent. rewrite Et2, Et. auto.
Qed.

(** A ping with payload [7] on a socket whose first [::send] fails with
    EPIPE. *)
Lemma unanswered_ping_ends_thread_witness :
  thread_main op_continuation (connected op_text [RData [0x89; 0x01; 0x07]] [SErr 32])
  = Some (mk_client false op_text [] true true [] [] [Disconnect (Some (SendFailed 32))]).
Proof.
  refine (proj1 (unanswered_ping_ends_thread op_continuation
                   (connected op_text [RData [0x89; 0x01; 0x07]] [SErr 32])
                   (connected op_text [] [SErr 32])
                   (connected op_text [] [])
                   (mk_frame true op_ping [0x07]) (SendFailed 32) _ _ _ _ _ _));
    reflexivity.
Defined.

(** ** The loop comes to an end *)

Lemma passes_weight invalid c fs c' :
  passes invalid c fs c' ->
  (length fs + weight (sock_in c') <= weight (sock_in c))%nat.
Proof.
  induction 1 as [c|c f c1 c2 fs c3 Ho Hr Hh Hp IH].
  - simpl. lia.
  - apply read_frame_val in Hr as (_ & Hw & _).
    apply handle_frame_sock_in in Hh. rewrite Hh in IH. simpl. lia.
Qed.

(** X9.  The receive loop ends on every inbound script.  [recv_thread]
    returns or throws after a run of complete passes and a last one; every
    complete pass takes at least one event out of the script, so there are
    no more of them than the script has events and bytes; and when the loop
    returns rather than throws, [open] is cleared. *)
Theorem receive_loop_ends (invalid : opcode) (c : client_pimpl) :
  exists r c' fs c1,
    recv_thread invalid c = Some (r, c')
    /\ passes invalid c fs c1
    /\ last_pass invalid c1 r c'
    /\ (length fs + weight (sock_in c1) <= weight (sock_in c))%nat
    /\ (r = Val tt -> open c' = false)
    /\ r <> Break.
Proof.
  destruct (recv_thread_total invalid c) as (r & c' & Hr).
  pose proof (recv_thread_loop_passes _ _ _ _ _ Hr) as (fs & c1 & Hp & Hl).
  pose proof (recv_thread_loop_events _ _ _ _ _ Hr) as (_ & _ & Hv & Hb & _).
  exists r, c', fs, c1. repeat split; try assumption.
  apply (passes_weight _ _ _ _ Hp).
Qed.

(** ** What [client::send] puts on the wire *)

Lemma send_raw_wire s c r c' :
  send_raw s c = (r, c') ->
  exists sent,
    (trace c' = trace c ++ sent /\ open c' = open c /\ payloadbuf c' = payloadbuf c
     /\ last_opcode c' = last_opcode c /\ sock_in c' = sock_in c)
    /\ Forall is_send sent
    /\ wire sent `prefix_of` s
    /\ (r = Val tt -> wire sent = s)
    /\ r <> Break.
Proof.
  assert (W : forall t : list Z, wire [SendRaw t] = t).
  { intros t. unfold wire. simpl. apply app_nil_r. }
  intros H. apply send_raw_cases in H
    as (out & [(-> & ->)|[(ret & _ & -> & ->)|(err & -> & ->)]]).
  - exists [SendRaw s]. rewrite W.
    split; [destruct c; repeat split|]. split; [repeat constructor|].
    split; [reflexivity|]. split; [reflexivity|discriminate].
  - exists [SendRaw (take ret s)]. rewrite W.
    split; [destruct c; repeat split|]. split; [repeat constructor|].
    split; [apply prefix_take|]. split; discriminate.
  - exists []. rewrite app_nil_r.
    split; [destruct c; repeat split|]. split; [constructor|].
    split; [apply prefix_nil|]. split; discriminate.
Qed.

(** X10.  However [client::send] ends, the bytes it wrote are a prefix of
    the frame, header first: no payload byte goes out before the whole
    header did.  When it returns the whole frame is out; it never returns
    after a short write.  When it throws, [open] stays as it was (a failed
    send does not mark the connection closed), and so do the reassembly
    state and the inbound socket. *)
Theorem send_writes_a_prefix (payload : list Z) (op : opcode) (c c' : client_pimpl)
    (r : res unit) :
  send payload op c = (r, c') ->
  let frame := send_header op (Z.of_nat (length payload)) ++ payload in
  exists sent,
    trace c' = trace c ++ sent
    /\ Forall is_send sent
    /\ wire sent `prefix_of` frame
    /\ (r = Val tt -> wire sent = frame)
    /\ r <> Break
    /\ open c' = open c
    /\ payloadbuf c' = payloadbuf c
    /\ last_opcode c' = last_opcode c
    /\ sock_in c' = sock_in c.
Proof.
  intros H frame. unfold send, bind in H.
  destruct (send_raw (send_header op (Z.of_nat (length payload))) c)
    as [[[]| |e] c1] eqn:E1.
  - apply send_raw_wire in E1 as (s1 & (Et1 & Eo1 & Eb1 & El1 & Es1) & F1 & P1 & V1 & _).
    apply send_raw_wire in H as (s2 & (Et2 & Eo2 & Eb2 & El2 & Es2) & F2 & P2 & V2 & B2).
    exists (s1 ++ s2).
    rewrite Et2, Et1, Eo2, Eo1, Eb2, Eb1, El2, El1, Es2, Es1, app_assoc.
    unfold wire in *. rewrite flat_map_app, (V1 eq_refl).
    split; [reflexivity|]. split; [apply Forall_app; auto|].
    split; [apply prefix_app; exact P2|].
    split; [|auto].
    intros ->. unfold frame. rewrite (V2 eq_refl). reflexivity.
  - apply send_raw_wire in E1 as (s1 & _ & _ & _ & _ & B1). contradiction.
  - injection H as <- <-.
    apply send_raw_wire in E1 as (s1 & (Et1 & Eo1 & Eb1 & El1 & Es1) & F1 & P1 & _ & _).
    exists s1. split; [assumption|]. split; [assumption|].
    split; [apply prefix_app_r; exact P1|].
    split; [discriminate|]. split; [discriminate|auto].
Qed.

(** A text message of three bytes on a socket that takes the header and
    then only one byte of the payload. *)
Lemma send_writes_a_prefix_witness :
  exists sent,
    trace (mk_client true op_text [] true true [] []
             [SendRaw [0x81; 0x83; 0; 0; 0; 0]; SendRaw [0x61]])
    = trace (connected op_text [] [SFull; SShort 1]) ++ sent
    /\ Forall is_send sent
    /\ wire sent `prefix_of` ([0x81; 0x83; 0; 0; 0; 0] ++ [0x61; 0x62; 0x63]).
Proof.
  destruct (send_writes_a_prefix [0x61; 0x62; 0x63] op_text
              (connected op_text [] [SFull; SShort 1])
              (mk_client true op_text [] true true [] []
                 [SendRaw [0x81; 0x83; 0; 0; 0; 0]; SendRaw [0x61]])
              (Throw (SendShort 1 3)) eq_refl)
    as (sent & Ht & F & P & _).
  exists sent. exact (conj Ht (conj F P)).
Defined.

(** ** Which responses the handshake accepts *)

(** X11.  A response is accepted exactly when its status code reads as 101
    modulo 2^32 and the first [Upgrade], [Connection] and
    [Sec-WebSocket-Accept] headers are, character for character,
    [websocket], [Upgrade] and the expected accept value.  Header names and
    values are compared as written: another case or a longer value
    ([WebSocket], [keep-alive, Upgrade]) is refused.  The status code is
    what [stoul] makes of the text between the first two spaces, cut to 32
    bits. *)
Theorem upgrade_accepted_iff (auths : list (option auth_exn))
    (key proto code reason : string) (hs : list (string * string)) (v : Z) :
  lacks " " proto ->
  lacks " " code ->
  lacks CRLF (status_line proto code reason) ->
  Forall header_ok hs ->
  size (response_text proto code reason hs) < 2 ^ 63 ->
  stoul code = Some v ->
  send_handshake auths key [response_text proto code reason hs] = Some (inr tt)
  <-> (uint32 v = 101
       /\ first_value "Upgrade" hs = Some "websocket"%string
       /\ first_value "Connection" hs = Some "Upgrade"%string
       /\ first_value "Sec-WebSocket-Accept" hs = Some (expected_accept key)).
Proof.
  intros Hp Hc Hl Hok Hsz Hv. cbn [send_handshake]. unfold handshake_turn.
  rewrite (parse_response_text proto code reason hs Hp Hc Hl Hok Hsz), Hv.
  pose proof (check_response_upgraded key (uint32 v) (emplace_all hs ∅)) as U.
  rewrite !emplace_all_lookup, !lookup_empty in U.
  destruct (check_response key (uint32 v) (emplace_all hs ∅)) as [e|[auth|]].
  - split; [discriminate|]. intros H. apply U in H. discriminate.
  - split; [|intros H; apply U in H; discriminate].
    destruct auth as [call|]; [|discriminate].
    destruct auths as [|[e|] auths]; discriminate.
  - split; [intros _; apply U; reflexivity|reflexivity].
Qed.

(** The response of RFC 6455, section 1.3, with the status code written as
    2^32 + 101 and a second, lower-case [upgrade] header. *)
Lemma upgrade_accepted_iff_witness :
  send_handshake [] rfc_key
    [response_text "HTTP/1.1" "4294967397" "Switching Protocols"
       (upgrade_headers rfc_accept ++ [("upgrade"%string, "h2c"%string)])]
  = Some (inr tt).
Proof.
  refine (proj2 (upgrade_accepted_iff [] rfc_key "HTTP/1.1" "4294967397" "Switching Protocols"
                   (upgrade_headers rfc_accept ++ [("upgrade"%string, "h2c"%string)])
                   4294967397 _ _ _ _ _ _) _).
  - reflexivity.
  - reflexivity.
  - reflexivity.
  - repeat constructor.
  - vm_compute. reflexivity.
  - reflexivity.
  - vm_compute. repeat split.
Defined.

(** The first occurrence of a character, behind a text that lacks it. *)
Lemma find_from_behind a pre s :
  lacks (String a EmptyString) pre ->
  find_from (String a EmptyString) (pre +:+ s) 0
  = option_map (Nat.add (String.length pre)) (find_from (String a EmptyString) s 0).
Proof.
  unfold lacks. induction pre as [|c pre IH]; intros H.
  - str_simpl. destruct (find_from (String a EmptyString) s 0); reflexivity.
  - rewrite find_from_O in H. rewrite app_cons_str, find_from_O.
    cbn [starts_with] in *.
    destruct (Ascii.eqb a c); cbn [andb] in *; [discriminate|].
    destruct (find_from (String a EmptyString) pre 0) eqn:E; [discriminate|].
    rewrite IH by reflexivity.
    destruct (find_from (String a EmptyString) s 0); reflexivity.
Qed.

(** X12.  A status line without a space is taken for status 0.  When the
    first line of the response holds no space (whatever spaces the header
    lines hold), no status code is read, [status] keeps its initial 0, and
    the handshake fails with "Server returned HTTP status 0, expected 101",
    whatever the headers say. *)
Theorem status_line_without_space (auths : list (option auth_exn)) (key sl : string)
    (hs : list (string * string)) :
  lacks " " sl ->
  lacks CRLF sl ->
  Forall header_ok hs ->
  size (sl +:+ CRLF +:+ render_headers hs +:+ CRLF) < 2 ^ 63 ->
  send_handshake auths key [sl +:+ CRLF +:+ render_headers hs +:+ CRLF]
  = Some (inl (BadStatus 0)).
Proof.
  intros Hs Hl Hok Hsz.
  set (mess := sl +:+ CRLF +:+ render_headers hs +:+ CRLF) in *.
  assert (Enl : find mess CRLF 0 = size sl).
  { apply (find_crlf EmptyString sl (render_headers hs +:+ CRLF) Hl). }
  assert (Esp : find mess " " 0 = npos \/ size sl < find mess " " 0).
  { unfold find. pose proof (size_nonneg mess).
    destruct (Z.ltb_spec (size mess) 0) as [?|_]; [lia|]. cbn [Z.to_nat].
    unfold mess. rewrite (find_from_behind " " sl _ Hs).
    unfold CRLF. rewrite app_cons_str, find_from_O. cbn [starts_with].
    change (Ascii.eqb " " CR) with false. cbn [andb].
    destruct (find_from " " _ 0) as [i|]; simpl; [right|left; reflexivity].
    unfold size. lia. }
  assert (Hsize : size mess = size sl + 2 + size (render_headers hs +:+ CRLF)).
  { unfold mess. rewrite !size_app. change (size CRLF) with 2. lia. }
  pose proof (size_nonneg sl). pose proof (size_nonneg (render_headers hs +:+ CRLF)).
  assert (P : parse_line mess (mk_parser true (find mess CRLF 0) 0 ∅ 0)
              = inr (mk_parser false (find mess CRLF (size (sl +:+ CRLF)))
                       (size (sl +:+ CRLF)) ∅ 0)).
  { unfold parse_line. cbn [p_first p_nl p_nl2 p_headers p_status].
    rewrite Enl.
    assert (G : negb (find mess " " 0 =? npos) && (find mess " " 0 <=? size sl) = false).
    { destruct Esp as [->|Hgt].
      - reflexivity.
      - apply andb_false_iff. right. apply Z.leb_gt. exact Hgt. }
    rewrite G. rewrite size_t_small by lia. rewrite size_app. reflexivity. }
  cbn [send_handshake]. unfold handshake_turn, parse_response.
  cbn [parse_lines]. rewrite P. cbn [p_nl].
  assert (Em : mess = (sl +:+ CRLF) +:+ render_headers hs +:+ CRLF).
  { unfold mess. rewrite !app_assoc_str. reflexivity. }
  rewrite Em in Hsz |- *.
  rewrite (find_crlf_headers_found _ hs Hok Hsz).
  rewrite parse_lines_headers; [reflexivity| |assumption|assumption].
  rewrite !length_app_str. change (String.length CRLF) with 2%nat.
  pose proof (length_render_headers hs). lia.
Qed.

(** A first line without spaces before the headers of a good response. *)
Lemma status_line_without_space_witness :
  send_handshake [] rfc_key
    [("HTTP/1.1-101" +:+ CRLF +:+ render_headers (upgrade_headers rfc_accept) +:+ CRLF)%string]
  = Some (inl (BadStatus 0)).
Proof.
  apply (status_line_without_space [] rfc_key "HTTP/1.1-101"
           (upgrade_headers rfc_accept)).
  - reflexivity.
  - reflexivity.
  - repeat constructor.
  - vm_compute. reflexivity.
Defined.

(** ** Authentication challenges *)

Lemma keep_all s : keep (String.length s) s = s.
Proof. induction s as [|a s IH]; simpl; [reflexivity|f_equal; exact IH]. Qed.

(** [h.substr (pos)] to the end of the string. *)
Lemma substr_to_end pre s :
  size (pre +:+ s) < 2 ^ 63 ->
  substr (pre +:+ s) (size pre) npos = s.
Proof.
  intros Hsz. unfold substr. rewrite size_app in *.
  pose proof (size_nonneg pre). pose proof (size_nonneg s).
  replace (Z.min npos (size pre + size s - size pre)) with (size s)
    by (unfold npos; lia).
  unfold size. rewrite !Nat2Z.id, skip_app. apply keep_all.
Qed.

(** What the checks make of a 401 whose challenge is [scheme], a space and
    [token]. *)
Lemma check_response_challenge key headers scheme token :
  headers !! "WWW-Authenticate"%string = Some (scheme +:+ " " +:+ token)%string ->
  lacks " " scheme ->
  size (scheme +:+ " " +:+ token) < 2 ^ 63 ->
  check_response key 401 headers
  = inr (Again (if String.eqb scheme "Negotiate" then Some (scheme, token) else None)).
Proof.
  intros Hh Hs Hsz. unfold check_response. change (401 =? 401) with true. cbv iota.
  rewrite Hh.
  pose proof (size_nonneg scheme). pose proof (size_nonneg token).
  assert (Hsize : size (scheme +:+ " " +:+ token) = size scheme + 1 + size token).
  { rewrite !size_app. change (size " ") with 1. lia. }
  assert (Est : find (scheme +:+ " " +:+ token) " " 0 = size scheme).
  { pose proof (find_at EmptyString (scheme +:+ " " +:+ token) " " (String.length scheme)) as G.
    rewrite app_nil_str in G. apply G. apply (find_from_one " " scheme token Hs). }
  rewrite Est.
  assert (Hn : (size scheme =? npos) = false) by (apply Z.eqb_neq; unfold npos; lia).
  rewrite Hn.
  assert (E1 : substr (scheme +:+ " " +:+ token) 0 (size scheme) = scheme).
  { pose proof (substr_at EmptyString scheme (" " +:+ token)) as G.
    rewrite app_nil_str in G. exact G. }
  assert (E2 : substr (scheme +:+ " " +:+ token) (size_t (size scheme + 1)) npos = token).
  { rewrite size_t_small by lia.
    replace (size scheme + 1) with (size (scheme +:+ " "))
      by (rewrite size_app; reflexivity).
    replace (scheme +:+ " " +:+ token) with ((scheme +:+ " ") +:+ token)
      by (rewrite !app_assoc_str; reflexivity).
    apply substr_to_end. rewrite app_assoc_str. exact Hsz. }
  rewrite E1, E2. reflexivity.
Qed.

(** What the checks make of a 401 whose challenge holds no space: the
    whole header is the scheme and the token is empty. *)
Lemma check_response_bare_challenge key headers h :
  headers !! "WWW-Authenticate"%string = Some h ->
  lacks " " h ->
  check_response key 401 headers
  = inr (Again (if String.eqb h "Negotiate" then Some (h, EmptyString) else None)).
Proof.
  intros Hh Hs. unfold check_response. change (401 =? 401) with true. cbv iota.
  rewrite Hh.
  assert (Est : find h " " 0 = npos).
  { pose proof (find_none EmptyString h " " Hs) as G.
    rewrite app_nil_str in G. exact G. }
  rewrite Est. reflexivity.
Qed.

(** How the loop over the responses goes on after a challenge with the
    scheme [scheme]. *)
Lemma send_handshake_challenge auths key mess more scheme token :
  handshake_turn key mess
  = Some (inr (Again (if String.eqb scheme "Negotiate"
                      then Some (scheme, token) else None))) ->
  send_handshake auths key (mess :: more)
  = if String.eqb scheme "Negotiate"
    then match auths with
         | Some e :: _ => Some (inl (AuthFailed e))
         | None :: auths' => send_handshake auths' key more
         | [] => send_handshake [] key more
         end
    else send_handshake auths key more.
Proof.
  intros Ht. cbn [send_handshake]. rewrite Ht.
  destruct (String.eqb scheme "Negotiate"); reflexivity.
Qed.

(** X13.  A 401 response is a challenge only if it carries a
    [WWW-Authenticate] header.  Without one the handshake fails with
    "Server returned HTTP status 401, expected 101".  With one, the first
    header of that name is split at its first space into scheme and token
    (a header without a space is all scheme, with an empty token).  A
    challenge with a scheme other than [Negotiate] is left unanswered (the
    POSIX branch): the loop goes on to the next response and
    [send_auth_response] is not called.  For [Negotiate] it is called with
    the scheme and the token, and what the handshake does next is up to
    that call: if it throws, the handshake fails with what it threw, and if
    it returns, the loop goes on to the next response. *)
Theorem challenge_response (auths : list (option auth_exn)) (key proto reason : string)
    (hs : list (string * string)) (more : list string) :
  lacks " " proto ->
  lacks CRLF (status_line proto "401" reason) ->
  Forall header_ok hs ->
  size (response_text proto "401" reason hs) < 2 ^ 63 ->
  let mess := response_text proto "401" reason hs in
  let after_challenge scheme :=
    if String.eqb scheme "Negotiate"
    then match auths with
         | Some e :: _ => Some (inl (AuthFailed e))
         | None :: auths' => send_handshake auths' key more
         | [] => send_handshake [] key more
         end
    else send_handshake auths key more in
  match first_value "WWW-Authenticate" hs with
  | None => send_handshake auths key (mess :: more) = Some (inl (BadStatus 401))
  | Some h =>
      (forall scheme token,
          h = (scheme +:+ " " +:+ token)%string ->
          lacks " " scheme ->
          size h < 2 ^ 63 ->
          handshake_turn key mess
          = Some (inr (Again (if String.eqb scheme "Negotiate"
                              then Some (scheme, token) else None)))
          /\ send_handshake auths key (mess :: more) = after_challenge scheme)
      /\ (lacks " " h ->
          handshake_turn key mess
          = Some (inr (Again (if String.eqb h "Negotiate"
                              then Some (h, EmptyString) else None)))
          /\ send_handshake auths key (mess :: more) = after_challenge h)
  end.
Proof.
  intros Hp Hl Hok Hsz mess after_challenge.
  assert (Ht : handshake_turn key mess
               = Some (check_response key 401 (emplace_all hs ∅))).
  { unfold handshake_turn, mess.
    rewrite (parse_response_text proto "401" reason hs Hp eq_refl Hl Hok Hsz).
    reflexivity. }
  assert (Hw : emplace_all hs ∅ !! "WWW-Authenticate"%string
               = first_value "WWW-Authenticate" hs).
  { rewrite emplace_all_lookup, lookup_empty. reflexivity. }
  destruct (first_value "WWW-Authenticate" hs) as [h|] eqn:Ef.
  - split.
    + intros scheme token -> Hs Hh.
      assert (Hc : handshake_turn key mess
                   = Some (inr (Again (if String.eqb scheme "Negotiate"
                                       then Some (scheme, token) else None)))).
      { rewrite Ht. f_equal. apply check_response_challenge; assumption. }
      split; [exact Hc|]. exact (send_handshake_challenge auths key mess more _ _ Hc).
    + intros Hs.
      assert (Hc : handshake_turn key mess
                   = Some (inr (Again (if String.eqb h "Negotiate"
                                       then Some (h, EmptyString) else None)))).
      { rewrite Ht. f_equal. apply check_response_bare_challenge; assumption. }
      split; [exact Hc|]. exact (send_handshake_challenge auths key mess more _ _ Hc).
  - cbn [send_handshake]. rewrite Ht.
    unfold check_response. change (401 =? 401) with true. cbv iota.
    rewrite Hw. reflexivity.
Qed.

(** A [Negotiate] challenge that [send_auth_response] answers with an
    exception, here for want of a host name: the handshake fails with it,
    and the accepted response behind the challenge is never read. *)
Lemma challenge_response_witness :
  handshake_turn rfc_key
    (response_text "HTTP/1.1" "401" "Unauthorized"
       [("WWW-Authenticate"%string, "Negotiate YII="%string)])
  = Some (inr (Again (Some ("Negotiate", "YII=")%string)))
  /\ send_handshake [Some NoFqdn] rfc_key
       [response_text "HTTP/1.1" "401" "Unauthorized"
          [("WWW-Authenticate"%string, "Negotiate YII="%string)];
        upgrade_response (upgrade_headers rfc_accept)]
     = Some (inl (AuthFailed NoFqdn)).
Proof.
  pose proof (challenge_response [Some NoFqdn] rfc_key "HTTP/1.1" "Unauthorized"
                [("WWW-Authenticate"%string, "Negotiate YII="%string)]
                [upgrade_response (upgrade_headers rfc_accept)]
                eq_refl eq_refl) as G.
  cbn [first_value fst snd] in G.
  change ("WWW-Authenticate" =? "WWW-Authenticate")%string with true in G.
  cbv iota zeta in G.
  destruct G as [G1 _].
  - repeat constructor.
  - vm_compute. reflexivity.
  - apply (G1 "Negotiate" "YII=")%string;
      [reflexivity|reflexivity|vm_compute; reflexivity].
Defined.

(** A [Basic] challenge, then the upgrade: the challenge is skipped without
    an answer and the upgrade is accepted, whatever [send_auth_response]
    would do. *)
Example basic_challenge_is_skipped auths :
  send_handshake auths rfc_key
    [response_text "HTTP/1.1" "401" "Unauthorized"
       [("WWW-Authenticate"%string, "Basic realm=x"%string)];
     upgrade_response (upgrade_headers rfc_accept)]
  = Some (inr tt).
Proof. vm_compute. reflexivity. Qed.

(** A [Negotiate] challenge that is answered, and then the upgrade. *)
Example negotiate_challenge_is_answered :
  send_handshake [None] rfc_key
    [response_text "HTTP/1.1" "401" "Unauthorized"
       [("WWW-Authenticate"%string, "Negotiate"%string)];
     upgrade_response (upgrade_headers rfc_accept)]
  = Some (inr tt).
Proof. vm_compute. reflexivity. Qed.

(** ** Sending with a timeout *)

Lemma send_raw_timeout_zero s t :
  send_raw_timeout s 0 t = lift_send t (send_raw s (tc_client t)).
Proof.
  unfold send_raw_timeout, set_send_timeout_if, lift_send. simpl.
  destruct (send_raw s (tc_client t)) as [[[]| |e] c']; reflexivity.
Qed.

Lemma send_raw_timeout_ok s timeout t :
  timeout <> 0 ->
  Forall (fun r => r = None) (tc_setsockopt t) ->
  exists results,
    send_raw_timeout s timeout t
    = lift_send (mk_timed (tc_client t) 0 results) (send_raw s (tc_client t))
    /\ Forall (fun r => r = None) results.
Proof.
  intros Ht F. unfold send_raw_timeout, set_send_timeout_if, lift_send.
  apply Z.eqb_neq in Ht. rewrite Ht.
  assert (S1 : exists r1, set_send_timeout timeout t = (None, mk_timed (tc_client t) timeout r1)
                          /\ Forall (fun r => r = None) r1).
  { unfold set_send_timeout. destruct (tc_setsockopt t) as [|[err|] rs].
    - eauto.
    - apply Forall_cons in F as [? _]. discriminate.
    - apply Forall_cons in F as [_ F]. eauto. }
  destruct S1 as (r1 & -> & F1).
  assert (S2 : forall c', exists r2,
             set_send_timeout 0 (with_client c' (mk_timed (tc_client t) timeout r1))
             = (None, mk_timed c' 0 r2) /\ Forall (fun r => r = None) r2).
  { intros c'. unfold set_send_timeout, with_client. cbn [tc_setsockopt tc_client tc_sndtimeo].
    destruct r1 as [|[err|] rs].
    - eauto.
    - apply Forall_cons in F1 as [? _]. discriminate.
    - apply Forall_cons in F1 as [_ F1]. eauto. }
  cbn [tc_client].
  destruct (send_raw s (tc_client t)) as [[[]| |e] c']; cbn [fst snd];
    destruct (S2 c') as (r2 & -> & F2); exists r2; split; auto.
Qed.

(** X14.  A timeout only brackets the send.  With [timeout == 0]
    [client::send] touches neither the socket option nor [setsockopt].  With
    a timeout, and as long as [setsockopt] succeeds, the same bytes go out
    and the same exception is thrown as without one, and however the call
    ends, by a return or by an exception of either [::send], the socket
    option is back at 0 afterwards. *)
Theorem send_timeout_brackets_send (payload : list Z) (op : opcode) (timeout : Z)
    (t : timed_client) :
  send_timeout payload op 0 t = lift_send t (send payload op (tc_client t))
  /\ (timeout <> 0 ->
      Forall (fun r => r = None) (tc_setsockopt t) ->
      exists results,
        send_timeout payload op timeout t
        = lift_send (mk_timed (tc_client t) 0 results) (send payload op (tc_client t))
        /\ tc_sndtimeo (snd (send_timeout payload op timeout t)) = 0).
Proof.
  split.
  - unfold send_timeout, send, bind. rewrite send_raw_timeout_zero.
    destruct (send_raw (send_header op (Z.of_nat (length payload))) (tc_client t))
      as [[[]| |e] c1] eqn:E1; unfold lift_send at 1; cbn [fst snd].
    + rewrite send_raw_timeout_zero. reflexivity.
    + exfalso. exact (send_raw_no_break _ _ _ E1).
    + reflexivity.
  - intros Ht F. unfold send_timeout, send, bind.
    destruct (send_raw_timeout_ok (send_header op (Z.of_nat (length payload)))
                timeout t Ht F) as (r1 & -> & F1).
    destruct (send_raw (send_header op (Z.of_nat (length payload))) (tc_client t))
      as [[[]| |e] c1] eqn:E1; unfold lift_send at 1 3; cbn [fst snd].
    + destruct (send_raw_timeout_ok payload timeout
                  (with_client c1 (mk_timed (tc_client t) 0 r1)) Ht F1)
        as (r2 & E2 & F2).
      exists r2. rewrite E2. split; [|reflexivity].
      unfold lift_send, with_client. reflexivity.
    + exfalso. exact (send_raw_no_break _ _ _ E1).
    + exists r1. split; reflexivity.
Qed.

(** A send with a timeout of five seconds on a socket that fails the
    payload with EPIPE: the exception is that of the send and the option is
    back at 0. *)
Lemma send_timeout_brackets_send_witness :
  exists results,
    send_timeout [1; 2] op_binary 5
      (mk_timed (connected op_text [] [SFull; SErr 32]) 0 [None; None; None; None])
    = lift_send (mk_timed (connected op_text [] [SFull; SErr 32]) 0 results)
        (send [1; 2] op_binary (connected op_text [] [SFull; SErr 32]))
    /\ tc_sndtimeo
         (snd (send_timeout [1; 2] op_binary 5
                 (mk_timed (connected op_text [] [SFull; SErr 32]) 0
                    [None; None; None; None]))) = 0.
Proof.
  refine (proj2 (send_timeout_brackets_send [1; 2] op_binary 5
                   (mk_timed (connected op_text [] [SFull; SErr 32]) 0
                      [None; None; None; None])) _ _).
  - discriminate.
  - repeat constructor.
Defined.

(** X15.  When [setsockopt] fails, its exception is the one the caller
    sees.  If the first call fails, nothing is sent.  If the [::send] throws
    and the reset of the timeout inside the [catch] block fails, the
    exception of the send is lost and the socket option stays at the
    timeout. *)
Theorem failed_setsockopt_wins (s : list Z) (timeout : Z) (t : timed_client) :
  timeout <> 0 ->
  (forall err results,
      tc_setsockopt t = Some err :: results ->
      send_raw_timeout s timeout t
      = (Some (SetsockoptFailed err),
         mk_timed (tc_client t) (tc_sndtimeo t) results))
  /\ (forall err results e c',
         tc_setsockopt t = None :: Some err :: results ->
         send_raw s (tc_client t) = (Throw e, c') ->
         send_raw_timeout s timeout t
         = (Some (SetsockoptFailed err), mk_timed c' timeout results)).
Proof.
  intros Ht. apply Z.eqb_neq in Ht. split.
  - intros err results Hs. unfold send_raw_timeout, set_send_timeout_if, set_send_timeout.
    rewrite Ht, Hs. reflexivity.
  - intros err results e c' Hs He.
    unfold send_raw_timeout, set_send_timeout_if, set_send_timeout.
    rewrite Ht, Hs. cbn [tc_client]. rewrite He. reflexivity.
Qed.

Lemma failed_setsockopt_wins_witness :
  send_raw_timeout [1; 2] 5
    (mk_timed (connected op_text [] [SErr 32]) 0 [None; Some 9])
  = (Some (SetsockoptFailed 9), mk_timed (connected op_text [] []) 5 []).
Proof.
  refine (proj2 (failed_setsockopt_wins [1; 2] 5
                   (mk_timed (connected op_text [] [SErr 32]) 0 [None; Some 9]) _)
            9 [] (SendFailed 32) (connected op_text [] []) _ _).
  - discriminate.
  - reflexivity.
  - reflexivity.
Defined.

(** * Setting the connection up *)

(** ** Bytes and text *)

Lemma string_of_bytes_of_string s : string_of_bytes (bytes_of_string s) = s.
Proof.
  induction s as [|a s IH]; [reflexivity|]. cbn [bytes_of_string string_of_bytes].
  rewrite IH. f_equal. unfold uint8.
  pose proof (N_ascii_bounded a) as Hb.
  rewrite Z.mod_small by lia. rewrite N2Z.id. apply ascii_N_embedding.
Qed.

Lemma string_of_bytes_app a b :
  string_of_bytes (a ++ b) = string_of_bytes a +:+ string_of_bytes b.
Proof.
  induction a as [|x a IH]; [reflexivity|]. cbn [app string_of_bytes].
  rewrite IH, app_cons_str. reflexivity.
Qed.

Lemma length_string_of_bytes bs : String.length (string_of_bytes bs) = length bs.
Proof. induction bs as [|b bs IH]; simpl; [reflexivity|f_equal; exact IH]. Qed.

Lemma length_bytes_of_string s : length (bytes_of_string s) = String.length s.
Proof. induction s as [|a s IH]; simpl; [reflexivity|f_equal; exact IH]. Qed.

Lemma keep_string_of_bytes n :
  forall bs, keep n (string_of_bytes bs) = string_of_bytes (take n bs).
Proof.
  induction n as [|n IH]; intros [|b bs]; try reflexivity.
  cbn [string_of_bytes keep take]. rewrite IH. reflexivity.
Qed.

(** ** [find] inside a longer text *)

Lemma starts_with_length pat :
  forall s, starts_with pat s = true -> (String.length pat <= String.length s)%nat.
Proof.
  induction pat as [|a pat IH]; intros [|b s]; simpl; try lia; try discriminate.
  intros H. apply andb_true_iff in H as [_ H]. apply IH in H. lia.
Qed.

Lemma starts_with_app pat :
  forall s t, starts_with pat s = true -> starts_with pat (s +:+ t) = true.
Proof.
  induction pat as [|a pat IH]; intros [|b s] t; try reflexivity; try discriminate.
  rewrite app_cons_str. cbn [starts_with]. intros H.
  apply andb_true_iff in H as [-> H]. apply (IH s t H).
Qed.

Lemma starts_with_app_long pat :
  forall s t, (String.length pat <= String.length s)%nat ->
              starts_with pat (s +:+ t) = starts_with pat s.
Proof.
  induction pat as [|a pat IH]; intros [|b s] t; try reflexivity.
  - cbn [String.length]. lia.
  - cbn [String.length]. intros H. rewrite app_cons_str. cbn [starts_with].
    rewrite IH by lia. reflexivity.
Qed.

(** An occurrence found lies inside the text. *)
Lemma find_from_fits pat s :
  forall i, find_from pat s 0 = Some i -> (i + String.length pat <= String.length s)%nat.
Proof.
  induction s as [|a s IH]; intros i; rewrite find_from_O.
  - destruct (starts_with pat EmptyString) eqn:E; [|discriminate].
    intros [= <-]. apply starts_with_length in E. simpl in *. lia.
  - destruct (starts_with pat (String a s)) eqn:E.
    + intros [= <-]. apply starts_with_length in E. simpl in *. lia.
    + destruct (find_from pat s 0) as [j|]; [|discriminate].
      intros [= <-]. specialize (IH j eq_refl). simpl. lia.
Qed.

(** The first occurrence stays the first when text is appended. *)
Lemma find_from_app_found pat s t :
  forall i, find_from pat s 0 = Some i -> find_from pat (s +:+ t) 0 = Some i.
Proof.
  induction s as [|a s IH]; intros i; rewrite find_from_O.
  - destruct (starts_with pat EmptyString) eqn:E; [|discriminate].
    intros [= <-]. rewrite app_nil_str.
    destruct pat; [|discriminate]. destruct t; reflexivity.
  - rewrite app_cons_str, (find_from_O pat (String a (s +:+ t))).
    rewrite <- app_cons_str.
    destruct (starts_with pat (String a s)) eqn:E.
    + intros [= <-]. rewrite (starts_with_app _ _ _ E). reflexivity.
    + destruct (find_from pat s 0) as [j|] eqn:Ej; [|discriminate].
      intros [= <-]. pose proof (find_from_fits _ _ _ Ej) as Hfit.
      rewrite starts_with_app_long by (simpl; lia). rewrite E.
      rewrite (IH j eq_refl). reflexivity.
Qed.

(** ** [recv_http] *)

(** A response whose empty line lies within the first read: the text
    returned is the bytes up to the end of that line, and what follows
    stays in the socket. *)
Lemma recv_http_loop_found n buf c bs rest e :
  sock_in c = RData bs :: rest ->
  find_from CRLFCRLF (string_of_bytes (take 4096 bs)) 0 = Some e ->
  recv_http_loop (S n) buf c
  = Some (inr (substr (buf +:+ string_of_bytes (take 4096 bs)) 0
                 (size_t (find (buf +:+ string_of_bytes (take 4096 bs)) CRLFCRLF 0 + 4))),
          set_sock_in (if (length bs <=? e + 4)%nat then rest
                       else RData (drop (e + 4) bs) :: rest) c).
Proof.
  intros Hs He. cbn [recv_http_loop]. rewrite Hs.
  pose proof (find_from_fits _ _ _ He) as Hfit.
  rewrite length_string_of_bytes in Hfit. change (String.length CRLFCRLF) with 4%nat in Hfit.
  destruct bs as [|b bs]; [simpl in Hfit; lia|].
  cbn [sys_recv].
  assert (Ef : find (string_of_bytes (take 4096 (b :: bs))) CRLFCRLF 0 = Z.of_nat e).
  { unfold find. pose proof (size_nonneg (string_of_bytes (take 4096 (b :: bs)))).
    destruct (Z.ltb_spec (size (string_of_bytes (take 4096 (b :: bs)))) 0) as [?|_]; [lia|].
    change (Z.to_nat 0) with 0%nat. rewrite He. reflexivity. }
  rewrite Ef.
  rewrite length_take in Hfit.
  assert (Hn : (Z.of_nat e =? npos) = false) by (apply Z.eqb_neq; unfold npos; lia).
  rewrite Hn. cbn [negb].
  replace (Z.to_nat (Z.of_nat e + 4)) with (e + 4)%nat by lia.
  reflexivity.
Qed.

(** A read that holds no empty line is appended to [buf] and taken out of
    the socket, and the loop goes round. *)
Lemma recv_http_loop_skip n buf c bs rest :
  sock_in c = RData bs :: rest ->
  bs <> [] ->
  (length bs <= 4096)%nat ->
  find_from CRLFCRLF (string_of_bytes bs) 0 = None ->
  recv_http_loop (S n) buf c
  = recv_http_loop n (buf +:+ string_of_bytes bs) (set_sock_in rest c).
Proof.
  intros Hs Hne Hlen Hf. cbn [recv_http_loop]. rewrite Hs.
  destruct bs as [|b bs]; [contradiction|]. cbn [sys_recv].
  rewrite take_ge by lia.
  assert (Ef : find (string_of_bytes (b :: bs)) CRLFCRLF 0 = npos).
  { unfold find. pose proof (size_nonneg (string_of_bytes (b :: bs))).
    destruct (Z.ltb_spec (size (string_of_bytes (b :: bs))) 0) as [?|_]; [lia|].
    change (Z.to_nat 0) with 0%nat. rewrite Hf. reflexivity. }
  rewrite Ef. change (npos =? npos) with true. cbn [negb].
  rewrite Nat.leb_refl. reflexivity.
Qed.

Lemma recv_http_loop_skips chunks :
  forall n buf c rest,
    Forall no_end_in_read chunks ->
    sock_in c = map RData chunks ++ rest ->
    recv_http_loop (length chunks + n) buf c
    = recv_http_loop n (buf +:+ string_of_bytes (concat chunks)) (set_sock_in rest c).
Proof.
  induction chunks as [|bs chunks IH]; intros n buf c rest F Hs.
  - simpl in *. rewrite app_nil_r_str, <- Hs, set_sock_in_same. reflexivity.
  - apply Forall_cons in F as [(Hne & Hlen & Hf) F]. cbn [length Nat.add].
    rewrite (recv_http_loop_skip _ buf c bs (map RData chunks ++ rest) Hs Hne Hlen Hf).
    rewrite (IH n _ (set_sock_in (map RData chunks ++ rest) c) rest F eq_refl).
    cbn [concat]. rewrite string_of_bytes_app, app_assoc_str. reflexivity.
Qed.

Lemma weight_app a b : weight (a ++ b) = (weight a + weight b)%nat.
Proof.
  induction a as [|[bs| |err] a IH]; simpl; [reflexivity|..]; unfold weight in *;
    rewrite IH; lia.
Qed.

Lemma weight_chunks chunks : (length chunks <= weight (map RData chunks))%nat.
Proof. induction chunks as [|bs chunks IH]; simpl; [lia|]. unfold weight in *. lia. Qed.

(** [recv_http] always comes to an end. *)
Lemma recv_http_loop_total n :
  forall buf c, (weight (sock_in c) < n)%nat ->
                exists r, recv_http_loop n buf c = Some r.
Proof.
  induction n as [|n IH]; intros buf c Hw; [lia|].
  cbn [recv_http_loop].
  destruct (sock_in c) as [|[[|b bs]| |err] sock'] eqn:Es; cbn [sys_recv]; eauto.
  destruct (negb (find (string_of_bytes (take 4096 (b :: bs))) CRLFCRLF 0 =? npos)).
  - destruct (length (b :: bs) <=? _)%nat; eauto.
  - assert (Hl : length (take 4096 (b :: bs)) = Nat.min 4096 (length (b :: bs)))
      by apply length_take.
    destruct (Nat.leb_spec (length (b :: bs)) (length (take 4096 (b :: bs)))) as [Hle|Hgt].
    + apply IH. cbn [sock_in set_sock_in]. simpl in Hw |- *. unfold weight in *.
      destruct c; simpl in *. lia.
    + apply IH. destruct c; simpl in *. rewrite length_drop. unfold weight in *.
      simpl in *. lia.
Qed.

Lemma recv_http_total c : exists r, recv_http c = Some r.
Proof. apply recv_http_loop_total. lia. Qed.

(** What [recv_http] can do to the object: it only reads; a text returned
    with [open] still set took something out of the socket, and it is no
    longer than [buf] and what the socket held. *)
Lemma recv_http_loop_reads n :
  forall buf c r c',
    recv_http_loop n buf c = Some (r, c') ->
    reads_only c c'
    /\ (open c' = open c \/ (open c' = false /\ r = inr EmptyString))
    /\ (forall e, r = inl e -> open c' = open c)
    /\ forall mess, r = inr mess ->
         size mess <= size buf + Z.of_nat (weight (sock_in c))
         /\ (open c' = true -> (weight (sock_in c') < weight (sock_in c))%nat).
Proof.
  assert (R1 : forall c sock, (weight sock <= weight (sock_in c))%nat ->
                              reads_only c (set_sock_in sock c)).
  { intros c sock H. split; [destruct c; reflexivity|destruct c; exact H]. }
  assert (R2 : forall c sock, (weight sock <= weight (sock_in c))%nat ->
                              reads_only c (set_open false (set_sock_in sock c))).
  { intros c sock H. split; [destruct c; reflexivity|destruct c; exact H]. }
  assert (W : forall ev sock, (weight sock < weight (ev :: sock))%nat).
  { intros [bs| |err] sock; unfold weight; simpl; lia. }
  assert (Closed : forall buf c sock w,
             w = weight (sock_in c) ->
             (weight sock <= w)%nat ->
             reads_only c (set_open false (set_sock_in sock c))
             /\ (open (set_open false (set_sock_in sock c)) = open c
                 \/ (open (set_open false (set_sock_in sock c)) = false
                     /\ @inr setup_exn string EmptyString = inr EmptyString))
             /\ (forall e, @inr setup_exn string EmptyString = inl e ->
                           open (set_open false (set_sock_in sock c)) = open c)
             /\ forall mess, @inr setup_exn string EmptyString = inr mess ->
                  size mess <= size buf + Z.of_nat w
                  /\ (open (set_open false (set_sock_in sock c)) = true ->
                      (weight (sock_in (set_open false (set_sock_in sock c))) < w)%nat)).
  { intros buf c sock w -> H. split; [apply R2, H|]. split; [right; split; reflexivity|].
    split; [discriminate|]. intros mess [= <-]. pose proof (size_nonneg buf).
    split; [change (size EmptyString) with 0; lia|]. destruct c; discriminate. }
  assert (Threw : forall buf c sock (x : setup_exn) w,
             w = weight (sock_in c) ->
             (weight sock <= w)%nat ->
             reads_only c (set_sock_in sock c)
             /\ (open (set_sock_in sock c) = open c
                 \/ (open (set_sock_in sock c) = false
                     /\ @inl setup_exn string x = inr EmptyString))
             /\ (forall e, @inl setup_exn string x = inl e ->
                           open (set_sock_in sock c) = open c)
             /\ forall mess, @inl setup_exn string x = inr mess ->
                  size mess <= size buf + Z.of_nat w
                  /\ (open (set_sock_in sock c) = true ->
                      (weight (sock_in (set_sock_in sock c)) < w)%nat)).
  { intros buf c sock x w -> H. split; [apply R1, H|]. split; [left; destruct c; reflexivity|].
    split; [intros; destruct c; reflexivity|discriminate]. }
  assert (Sob : forall l, size (string_of_bytes l) = Z.of_nat (length l)).
  { intros l. unfold size. rewrite length_string_of_bytes. reflexivity. }
  induction n as [|n IH]; intros buf c r c'; [discriminate|].
  cbn [recv_http_loop].
  destruct (sock_in c) as [|[[|b bs]| |err] sock'] eqn:Es; cbn [sys_recv].
  - intros [= <- <-]. apply Closed; [rewrite Es; reflexivity|apply Nat.le_refl].
  - intros [= <- <-]. apply Closed; [rewrite Es; reflexivity|apply Nat.lt_le_incl, W].
  - set (s := take 4096 (b :: bs)).
    assert (Hs : (0 < length s <= length (b :: bs))%nat).
    { unfold s. rewrite length_take. cbn [length]. lia. }
    assert (Hd : forall k, (0 < k)%nat ->
               (weight (if (length (b :: bs) <=? k)%nat then sock'
                        else RData (drop k (b :: bs)) :: sock')
                < weight (RData (b :: bs) :: sock'))%nat).
    { intros k Hk. destruct (Nat.leb_spec (length (b :: bs)) k); unfold weight;
        cbn [fold_right]; [|rewrite length_drop]; lia. }
    destruct (negb (find (string_of_bytes s) CRLFCRLF 0 =? npos)) eqn:En.
    + set (k := Z.to_nat (find (string_of_bytes s) CRLFCRLF 0 + 4)).
      assert (Hk : (0 < k)%nat).
      { unfold k. pose proof (find_range (string_of_bytes s) CRLFCRLF 0 ltac:(lia)) as [G|G].
        - apply negb_true_iff, Z.eqb_neq in En. contradiction.
        - lia. }
      specialize (Hd k Hk).
      intros [= <- <-]. split; [apply R1; rewrite Es; exact (Nat.lt_le_incl _ _ Hd)|].
      split; [left; destruct c; reflexivity|].
      split; [discriminate|].
      intros mess [= <-]. split.
      * unfold substr.
        assert (Hkeep : forall m t, size (keep m t) <= size t).
        { clear. intros m t. unfold size. apply inj_le. revert t.
          induction m as [|m IH]; intros [|a t]; simpl; try lia.
          specialize (IH t). lia. }
        etransitivity; [apply Hkeep|]. change (Z.to_nat 0) with 0%nat. cbn [skip].
        change (String (ascii_of_N (Z.to_N (uint8 b))) (string_of_bytes (take 4095 bs)))
          with (string_of_bytes s).
        rewrite size_app, Sob.
        unfold weight. cbn [fold_right]. lia.
      * intros _. replace (sock_in (set_sock_in _ c))
          with (if (length (b :: bs) <=? k)%nat then sock'
                else RData (drop k (b :: bs)) :: sock') by (destruct c; reflexivity).
        exact Hd.
    + specialize (Hd (length s) (proj1 Hs)).
      intros H. apply IH in H as (Hr & Ho & He & Hm).
      replace (sock_in (set_sock_in _ c))
        with (if (length (b :: bs) <=? length s)%nat then sock'
              else RData (drop (length s) (b :: bs)) :: sock') in * by (destruct c; reflexivity).
      replace (open (set_sock_in _ c)) with (open c) in * by (destruct c; reflexivity).
      split.
      { eapply reads_only_trans; [|exact Hr]. apply R1. rewrite Es.
        exact (Nat.lt_le_incl _ _ Hd). }
      split; [exact Ho|]. split; [exact He|].
      intros mess Hmess. destruct (Hm mess Hmess) as (Hsz & Hw). split.
      * rewrite size_app, Sob in Hsz.
        assert (Z.of_nat (length s)
                + Z.of_nat (weight (if (length (b :: bs) <=? length s)%nat then sock'
                                    else RData (drop (length s) (b :: bs)) :: sock'))
                <= Z.of_nat (weight (RData (b :: bs) :: sock'))).
        { destruct (Nat.leb_spec (length (b :: bs)) (length s)); unfold weight;
            cbn [fold_right]; [|rewrite length_drop]; lia. }
        lia.
      * intros Ho'. specialize (Hw Ho'). lia.
  - intros [= <- <-]. apply Closed; [rewrite Es; reflexivity|apply Nat.lt_le_incl, W].
  - intros [= <- <-]. apply Threw; [rewrite Es; reflexivity|apply Nat.lt_le_incl, W].
Qed.

(** The text [recv_http] returns when the first read holds the empty line. *)
Lemma recv_http_found c bs rest e :
  sock_in c = RData bs :: rest ->
  find_from CRLFCRLF (string_of_bytes (take 4096 bs)) 0 = Some e ->
  recv_http c
  = Some (inr (string_of_bytes (take (e + 4) bs)),
          set_sock_in (if (length bs <=? e + 4)%nat then rest
                       else RData (drop (e + 4) bs) :: rest) c).
Proof.
  intros Hs He. unfold recv_http.
  rewrite (recv_http_loop_found _ EmptyString c bs rest e Hs He).
  rewrite app_nil_str.
  pose proof (find_from_fits _ _ _ He) as Hfit.
  rewrite length_string_of_bytes, length_take in Hfit.
  change (String.length CRLFCRLF) with 4%nat in Hfit.
  set (chunk := string_of_bytes (take 4096 bs)) in *.
  assert (Ef : find chunk CRLFCRLF 0 = Z.of_nat e).
  { unfold find. pose proof (size_nonneg chunk).
    destruct (Z.ltb_spec (size chunk) 0) as [?|_]; [lia|].
    change (Z.to_nat 0) with 0%nat. rewrite He. reflexivity. }
  rewrite Ef, size_t_small by lia.
  assert (Hc : size chunk = Z.of_nat (Nat.min 4096 (length bs))).
  { unfold size, chunk. rewrite length_string_of_bytes, length_take. reflexivity. }
  unfold substr. rewrite Z.sub_0_r, Hc.
  replace (Z.to_nat (Z.min (Z.of_nat e + 4) (Z.of_nat (Nat.min 4096 (length bs)))))
    with (e + 4)%nat by lia.
  change (Z.to_nat 0) with 0%nat. cbn [skip]. unfold chunk.
  rewrite keep_string_of_bytes, take_take.
  replace (Nat.min (e + 4) 4096) with (e + 4)%nat by lia.
  reflexivity.
Qed.

(** X16.  [recv_http] returns the response up to the end of its first
    empty line and leaves what follows in the socket.  When the first read
    of up to 4096 bytes holds an empty line, the text returned is exactly
    the bytes up to and including that line, and every byte after it (the
    first frames of the server, say) is still in the socket for the receive
    loop; [open] and the rest of the object are untouched. *)
Theorem recv_http_first_read (c : client_pimpl) (bs : list Z) (rest : list recv_event)
    (e : nat) :
  sock_in c = RData bs :: rest ->
  find_from CRLFCRLF (string_of_bytes (take 4096 bs)) 0 = Some e ->
  recv_http c
  = Some (inr (string_of_bytes (take (e + 4) bs)),
          set_sock_in (if (length bs <=? e + 4)%nat then rest
                       else RData (drop (e + 4) bs) :: rest) c).
Proof. apply recv_http_found. Qed.

(** A response of two lines followed by a close frame in the same read. *)
Lemma recv_http_first_read_witness :
  recv_http
    (connected op_text
       [RData (bytes_of_string ("HTTP/1.1 101 X" +:+ CRLFCRLF) ++ [0x88; 0x00])] [])
  = Some (inr ("HTTP/1.1 101 X" +:+ CRLFCRLF)%string,
          connected op_text [RData [0x88; 0x00]] []).
Proof.
  exact (recv_http_first_read
           (connected op_text
              [RData (bytes_of_string ("HTTP/1.1 101 X" +:+ CRLFCRLF) ++ [0x88; 0x00])] [])
           (bytes_of_string ("HTTP/1.1 101 X" +:+ CRLFCRLF) ++ [0x88; 0x00]) [] 14
           eq_refl eq_refl).
Defined.

(** X17.  An empty line split over two reads is not seen.  [recv_http]
    looks for the empty line in each read on its own, not in what it has
    gathered.  When no single read holds one, it never returns a response,
    whatever the reads add up to: it takes every read out of the socket and
    goes on reading, and at the end of the stream it reports the socket
    closed, so that the handshake fails with "Socket closed unexpectedly". *)
Theorem split_empty_line_is_missed (key : string) (c : client_pimpl)
    (chunks : list (list Z)) (rest : list recv_event) :
  Forall no_end_in_read chunks ->
  sock_in c = map RData chunks ++ REof :: rest ->
  recv_http c = Some (inr EmptyString, set_open false (set_sock_in rest c))
  /\ forall turns req a,
       handshake_loop (S turns) key req a c
       = Some (HandshakeThrew (HandshakeFailed SocketClosed),
               set_open false (set_sock_in rest c)).
Proof.
  intros F Hs.
  assert (Hr : recv_http c = Some (inr EmptyString, set_open false (set_sock_in rest c))).
  { unfold recv_http.
    pose proof (weight_chunks chunks) as Hw.
    replace (S (weight (sock_in c)))
      with (length chunks + S (weight (sock_in c) - length chunks))%nat
      by (rewrite Hs, weight_app; lia).
    rewrite (recv_http_loop_skips chunks _ _ c (REof :: rest) F Hs).
    reflexivity. }
  split; [exact Hr|].
  intros turns req a. cbn [handshake_loop]. rewrite Hr. reflexivity.
Qed.

(** The accepted response of RFC 6455, section 1.3, delivered in two reads
    that part between the two line ends of the empty line. *)
Lemma split_empty_line_is_missed_witness :
  string_of_bytes
    (concat [bytes_of_string ("HTTP/1.1 101 Switching Protocols" +:+ CRLF
                              +:+ render_headers (upgrade_headers rfc_accept));
             bytes_of_string CRLF])
  = upgrade_response (upgrade_headers rfc_accept)
  /\ handshake_loop 1 rfc_key (request "/chat" "example.com" 80 rfc_key)
       (mk_auth_state "example.com" 0 [])
       (connected op_text
          [RData (bytes_of_string ("HTTP/1.1 101 Switching Protocols" +:+ CRLF
                                   +:+ render_headers (upgrade_headers rfc_accept)));
           RData (bytes_of_string CRLF); REof] [])
     = Some (HandshakeThrew (HandshakeFailed SocketClosed),
             mk_client false op_text [] true true [] [] []).
Proof.
  split; [vm_compute; reflexivity|].
  refine (proj2 (split_empty_line_is_missed rfc_key
                   (connected op_text
                      [RData (bytes_of_string ("HTTP/1.1 101 Switching Protocols" +:+ CRLF
                                 +:+ render_headers (upgrade_headers rfc_accept)));
                       RData (bytes_of_string CRLF); REof] [])
                   [bytes_of_string ("HTTP/1.1 101 Switching Protocols" +:+ CRLF
                                     +:+ render_headers (upgrade_headers rfc_accept));
                    bytes_of_string CRLF] [] _ _) 0%nat
            (request "/chat" "example.com" 80 rfc_key)
            (mk_auth_state "example.com" 0 [])).
  - repeat constructor; try (vm_compute; discriminate); vm_compute; lia.
  - reflexivity.
Defined.

(** ** The handshake on the socket *)

(** A response that arrives in one read, with whatever the server sent
    behind it. *)
Lemma recv_http_one_read c mess more rest :
  one_read mess ->
  sock_in c = RData (bytes_of_string mess ++ more) :: rest ->
  recv_http c
  = Some (inr mess,
          set_sock_in (match more with [] => rest | _ => RData more :: rest end) c).
Proof.
  intros (Hlen & e & He & Hl) Hs.
  assert (Hb : length (bytes_of_string mess) = (e + 4)%nat)
    by (rewrite length_bytes_of_string; exact Hl).
  assert (Hf : find_from CRLFCRLF
                 (string_of_bytes (take 4096 (bytes_of_string mess ++ more))) 0 = Some e).
  { rewrite take_app, string_of_bytes_app, take_ge by lia.
    rewrite string_of_bytes_of_string. apply find_from_app_found. exact He. }
  rewrite (recv_http_found c _ rest e Hs Hf).
  rewrite <- Hb, take_app_length, drop_app_length, string_of_bytes_of_string.
  rewrite length_app.
  destruct more as [|x more].
  - rewrite Nat.add_0_r, Nat.leb_refl. reflexivity.
  - destruct (Nat.leb_spec (length (bytes_of_string mess) + length (x :: more))
                (length (bytes_of_string mess))) as [H|_]; [simpl in H; lia|].
    reflexivity.
Qed.

Lemma send_raw_fields s c r c' :
  send_raw s c = (r, c') ->
  open c' = open c /\ sock_in c' = sock_in c.
Proof.
  intros H. apply send_raw_sends_only in H. apply sends_only_fields in H. tauto.
Qed.

Lemma handshake_loop_responses auths key req a responses :
  forall turns c rest r,
    (length responses < turns)%nat ->
    open c = true ->
    sock_in c = map (fun m => RData (bytes_of_string m)) responses ++ REof :: rest ->
    Forall one_read responses ->
    Forall (fun m => forall a, handshake_turn key m <> Some (inr (Again (Some a))))
      responses ->
    send_handshake auths key responses = Some r ->
    exists c',
      handshake_loop turns key req a c = Some (handshake_end_of r, c')
      /\ reads_only c c'.
Proof.
  assert (R : forall c sock o, (weight sock <= weight (sock_in c))%nat ->
                               reads_only c (set_open o (set_sock_in sock c))).
  { intros c sock o H. split; [destruct c; reflexivity|destruct c; exact H]. }
  assert (W : forall x y, (weight y <= weight (x ++ y))%nat).
  { intros x y. rewrite weight_app. lia. }
  induction responses as [|m responses IH]; intros turns c rest r Ht Ho Hs F1 F2 Hr;
    (destruct turns as [|turns]; [simpl in Ht; lia|]).
  - injection Hr as <-. exists (set_open false (set_sock_in rest c)).
    cbn [handshake_loop].
    assert (Hh : recv_http c = Some (inr EmptyString, set_open false (set_sock_in rest c))).
    { unfold recv_http. cbn [recv_http_loop]. rewrite Hs. reflexivity. }
    rewrite Hh. split; [reflexivity|]. apply R. rewrite Hs. apply (W [REof] rest).
  - apply Forall_cons in F1 as [Hm F1]. apply Forall_cons in F2 as [Hn F2].
    cbn [map app] in Hs.
    set (sock1 := map (fun m => RData (bytes_of_string m)) responses ++ REof :: rest) in *.
    assert (Hh : recv_http c = Some (inr m, set_sock_in sock1 c)).
    { pose proof (recv_http_one_read c m [] sock1 Hm) as G.
      rewrite app_nil_r in G. exact (G Hs). }
    assert (R1 : reads_only c (set_sock_in sock1 c)).
    { split; [destruct c; reflexivity|].
      replace (sock_in (set_sock_in sock1 c)) with sock1 by (destruct c; reflexivity).
      rewrite Hs. apply (W [RData (bytes_of_string m)] sock1). }
    cbn [handshake_loop]. rewrite Hh.
    replace (open (set_sock_in _ c)) with (open c) by (destruct c; reflexivity).
    rewrite Ho. cbn [negb].
    cbn [send_handshake] in Hr.
    destruct (handshake_turn key m) as [[e|[[call|]|]]|] eqn:Et; try discriminate.
    + injection Hr as <-. eexists. split; [reflexivity|exact R1].
    + exfalso. exact (Hn call eq_refl).
    + assert (Ht1 : (length responses < turns)%nat) by (simpl in Ht; lia).
      assert (Ho1 : open (set_sock_in sock1 c) = true) by (destruct c; exact Ho).
      assert (Hs1 : sock_in (set_sock_in sock1 c) = sock1) by (destruct c; reflexivity).
      destruct (IH turns (set_sock_in sock1 c) rest r Ht1 Ho1 Hs1 F1 F2 Hr)
        as (c' & Hl & Hro).
      exists c'. split; [exact Hl|]. exact (reads_only_trans _ _ _ R1 Hro).
    + injection Hr as <-. eexists. split; [reflexivity|exact R1].
Qed.

(** X18.  The handshake on the socket does what the handshake on the list
    of responses does.  When the request goes out and the server's
    responses arrive one to a read, each ending with its first empty line,
    and then the stream ends, [send_handshake] on the socket ends the way
    the loop over the responses ends: it returns where that accepts, and
    throws the same error where that refuses or runs out of responses.
    (Responses that are [Negotiate] challenges are left out: they lead into
    [send_auth_response].)  Nothing is sent but the request, and no handler
    is called. *)
Theorem handshake_on_socket_refines (auths : list (option auth_exn)) (a : auth_state)
    (path host : string) (port : Z) (key : string)
    (c c1 : client_pimpl) (responses : list string) (rest : list recv_event)
    (r : handshake_error + unit) :
  open c = true ->
  sock_in c = map (fun m => RData (bytes_of_string m)) responses ++ REof :: rest ->
  Forall one_read responses ->
  Forall (fun m => forall a, handshake_turn key m <> Some (inr (Again (Some a))))
    responses ->
  send_handshake auths key responses = Some r ->
  send_raw (bytes_of_string (request path host port key +:+ CRLF)) c = (Val tt, c1) ->
  exists c',
    send_handshake_on_socket path host port key a c = Some (handshake_end_of r, c')
    /\ trace c'
       = trace c ++ [SendRaw (bytes_of_string (request path host port key +:+ CRLF))].
Proof.
  intros Ho Hs F1 F2 Hr Hsend.
  pose proof (send_raw_fields _ _ _ _ Hsend) as (Ho1 & Hs1).
  pose proof (send_raw_val _ _ _ Hsend) as (out & Hc1).
  unfold send_handshake_on_socket. rewrite Hsend.
  destruct (handshake_loop_responses auths key (request path host port key) a responses
              (S (weight (sock_in c1))) c1 rest r)
    as (c' & Hl & Hro); try assumption.
  - rewrite Hs1, Hs, weight_app.
    pose proof (weight_chunks (map bytes_of_string responses)) as Hw.
    rewrite map_map, !length_map in Hw. lia.
  - congruence.
  - congruence.
  - exists c'. split; [exact Hl|].
    apply reads_only_fields in Hro as (_ & _ & _ & _ & _ & ->).
    rewrite Hc1. reflexivity.
Qed.

(** A [Basic] challenge and then the accepted response of RFC 6455, each in
    a read of its own. *)
Lemma handshake_on_socket_refines_witness :
  exists c',
    send_handshake_on_socket "/chat" "example.com" 80 rfc_key
      (mk_auth_state "example.com" 0 [])
      (connected op_text
         [RData (bytes_of_string
                   (response_text "HTTP/1.1" "401" "Unauthorized"
                      [("WWW-Authenticate"%string, "Basic realm=x"%string)]));
          RData (bytes_of_string (upgrade_response (upgrade_headers rfc_accept)));
          REof] [])
    = Some (HandshakeDone, c')
    /\ trace c'
       = [] ++ [SendRaw (bytes_of_string
                           (request "/chat" "example.com" 80 rfc_key +:+ CRLF))].
Proof.
  refine (handshake_on_socket_refines [] (mk_auth_state "example.com" 0 [])
            "/chat" "example.com" 80 rfc_key
            (connected op_text
               [RData (bytes_of_string
                         (response_text "HTTP/1.1" "401" "Unauthorized"
                            [("WWW-Authenticate"%string, "Basic realm=x"%string)]));
                RData (bytes_of_string (upgrade_response (upgrade_headers rfc_accept)));
                REof] [])
            _
            [response_text "HTTP/1.1" "401" "Unauthorized"
               [("WWW-Authenticate"%string, "Basic realm=x"%string)];
             upgrade_response (upgrade_headers rfc_accept)]
            [] (inr tt) _ _ _ _ _ _).
  - reflexivity.
  - reflexivity.
  - repeat constructor; try (vm_compute; lia).
    + eexists. split; vm_compute; reflexivity.
    + eexists. split; vm_compute; reflexivity.
  - repeat constructor; vm_compute; discriminate.
  - vm_compute. reflexivity.
  - reflexivity.
Defined.

(** ** The constructor *)

(** [send_auth_response] only sends, however it ends. *)
Lemma send_auth_response_sends auth_type auth_msg req a c r a' c' :
  send_auth_response auth_type auth_msg req a c = (r, a', c') -> sends_only c c'.
Proof.
  unfold send_auth_response. intros H.
  repeat case_match; simplify_eq; try apply sends_only_refl;
    eapply send_raw_sends_only; eassumption.
Qed.

Lemma wire_app x y : wire (x ++ y) = wire x ++ wire y.
Proof. unfold wire. apply flat_map_app. Qed.

(** The handshake loop comes to an end on every script, and reads and
    sends and does nothing else. *)
Lemma handshake_loop_total key req turns :
  forall a c,
    (weight (sock_in c) < turns)%nat ->
    Z.of_nat (weight (sock_in c)) < 2 ^ 63 ->
    exists x c' sent,
      handshake_loop turns key req a c = Some (x, c')
      /\ trace c' = trace c ++ sent /\ Forall is_send sent.
Proof.
  induction turns as [|turns IH]; intros a c Hw Hb; [lia|].
  cbn [handshake_loop].
  destruct (recv_http_total c) as ([r c1] & Hr). rewrite Hr.
  apply recv_http_loop_reads in Hr as (Hro & _ & _ & Hm).
  pose proof (reads_only_fields _ _ Hro) as (_ & _ & _ & _ & _ & Et1).
  assert (Here : forall x : handshake_end, exists x' c' sent,
             Some (x, c1) = Some (x', c')
             /\ trace c' = trace c ++ sent /\ Forall is_send sent).
  { intros x. exists x, c1, []. rewrite app_nil_r. auto. }
  destruct r as [e|mess]; [apply Here|].
  destruct (open c1) eqn:Ho1; cbn [negb]; [|apply Here].
  destruct (Hm mess eq_refl) as (Hsz & Hlt). specialize (Hlt eq_refl).
  change (size EmptyString) with 0 in Hsz.
  unfold handshake_turn.
  destruct (parse_response_total mess ltac:(lia)) as (p & ->).
  destruct p as [e|[status headers]]; [apply Here|].
  destruct (check_response key status headers) as [e|[[[auth_type auth_msg]|]|]];
    try apply Here.
  - destruct (send_auth_response auth_type auth_msg req a c1) as [[[e|] a'] c2] eqn:Ea;
      apply send_auth_response_sends in Ea;
      apply sends_only_fields in Ea as (_ & _ & _ & _ & _ & Es2 & sent & Et2 & F2).
    + exists (HandshakeThrew (HandshakeFailed (AuthFailed e))), c2, sent.
      rewrite Et2, Et1. auto.
    + destruct (IH a' c2) as (x & c' & sent' & Hl & Et & F);
        [rewrite Es2; lia|rewrite Es2; lia|].
      exists x, c', (sent ++ sent'). split; [exact Hl|].
      rewrite Et, Et2, Et1, app_assoc. split; [reflexivity|].
      apply Forall_app. auto.
  - destruct (IH a c1) as (x & c' & sent' & Hl & Et & F); [lia|lia|].
    exists x, c', sent'. rewrite Et, Et1. auto.
Qed.

(** X19.  The constructor always ends, and when it throws it has called
    nothing.  On every inbound script (of fewer than 2^63 bytes), whatever
    GSSAPI answers, the handshake and the thread come to an end.  When the
    handshake throws, no thread is started and neither the message handler
    nor the disconnect handler is called: all the trace holds is what was
    sent, which is the request or the part of it that went out, and behind
    the whole request the answers to challenges. *)
Theorem ctor_ends_and_failure_is_silent (invalid : opcode) (path host : string)
    (port : Z) (key : string) (a : auth_state) (c : client_pimpl) :
  Z.of_nat (weight (sock_in c)) < 2 ^ 63 ->
  exists x c',
    client_pimpl_ctor invalid path host port key a c = Some (x, c')
    /\ (x <> HandshakeDone ->
        exists sent,
          trace c' = trace c ++ sent
          /\ Forall is_send sent
          /\ (wire sent `prefix_of`
                bytes_of_string (request path host port key +:+ CRLF)
              \/ bytes_of_string (request path host port key +:+ CRLF)
                 `prefix_of` wire sent)).
Proof.
  intros Hb. unfold client_pimpl_ctor, send_handshake_on_socket. cbv zeta.
  set (req := bytes_of_string (request path host port key +:+ CRLF)).
  destruct (send_raw req c) as [r c1] eqn:Es.
  pose proof (send_raw_fields _ _ _ _ Es) as (_ & Hs1).
  pose proof (send_raw_wire _ _ _ _ Es) as (sent & (Et & _) & F & P & Pv & _).
  destruct (handshake_loop_total key (request path host port key)
              (S (weight (sock_in c1))) a c1)
    as (x & c2 & sent2 & Hl & Et2 & F2); [lia|rewrite Hs1; exact Hb|].
  assert (G : wire sent = req ->
              exists x c',
             match handshake_loop (S (weight (sock_in c1))) key
                     (request path host port key) a c1 with
             | Some (HandshakeDone, c1) =>
                 match thread_main invalid c1 with
                 | Some c2 => Some (HandshakeDone, c2)
                 | None => None
                 end
             | Some (x, c1) => Some (x, c1)
             | None => None
             end = Some (x, c')
             /\ (x <> HandshakeDone ->
                 exists sent, trace c' = trace c ++ sent /\ Forall is_send sent
                              /\ (wire sent `prefix_of` req
                                  \/ req `prefix_of` wire sent))).
  { intros Hw. rewrite Hl. destruct x as [|e].
    - destruct (thread_main_total invalid c2) as (c3 & ->).
      exists HandshakeDone, c3. split; [reflexivity|]. intros H. contradiction.
    - eexists _, c2. split; [reflexivity|]. intros _. exists (sent ++ sent2).
      rewrite Et2, Et, app_assoc. split; [reflexivity|].
      split; [apply Forall_app; auto|].
      right. rewrite wire_app, Hw. apply prefix_app_r. reflexivity. }
  destruct r as [[]| |e].
  - apply G, Pv. reflexivity.
  - exfalso. exact (send_raw_no_break _ _ _ Es).
  - eexists _, c1. split; [reflexivity|]. intros _. exists sent. auto.
Qed.

(** A server that answers 404 and closes. *)
Lemma ctor_ends_and_failure_is_silent_witness :
  exists x c',
    client_pimpl_ctor op_continuation "/chat" "example.com" 80 rfc_key
      (mk_auth_state "example.com" 0 [])
      (connected op_text
         [RData (bytes_of_string (response_text "HTTP/1.1" "404" "Not Found" [])); REof] [])
    = Some (x, c')
    /\ (x <> HandshakeDone ->
        exists sent,
          trace c' = [] ++ sent
          /\ Forall is_send sent
          /\ (wire sent `prefix_of`
                bytes_of_string (request "/chat" "example.com" 80 rfc_key +:+ CRLF)
              \/ bytes_of_string (request "/chat" "example.com" 80 rfc_key +:+ CRLF)
                 `prefix_of` wire sent)).
Proof.
  apply (ctor_ends_and_failure_is_silent op_continuation "/chat" "example.com" 80 rfc_key
           (mk_auth_state "example.com" 0 [])
           (connected op_text
              [RData (bytes_of_string (response_text "HTTP/1.1" "404" "Not Found" []));
               REof] [])).
  vm_compute. reflexivity.
Defined.

(** ** Answering a challenge *)

(** The calls succeed, GSSAPI hands back a token and the socket takes the
    write: the second request goes out. *)
Lemma send_auth_response_answers auth_type auth_msg req a c
    round rounds major minor minor2 tok :
  (auth_type <> "Negotiate"%string \/ fqdn a <> EmptyString) ->
  cred_handle a = 0 ->
  gss a = round :: rounds ->
  gss_import_name round = (GSS_S_COMPLETE, minor2) ->
  gss_init_sec_context round = (major, minor, tok) ->
  major = GSS_S_CONTINUE_NEEDED \/ major = GSS_S_COMPLETE ->
  tok <> [] ->
  sock_out c = [] ->
  Z.of_nat (length (authorized_request req auth_type tok)) <= MAX_RW_COUNT ->
  send_auth_response auth_type auth_msg req a c
  = (None, mk_auth_state (fqdn a) 0 rounds,
     log (SendRaw (authorized_request req auth_type tok)) c).
Proof.
  intros Hn Hc Hg Hi Hs Hm Ht Hso Hlen.
  unfold send_auth_response.
  assert (E1 : String.eqb auth_type "Negotiate" && String.eqb (fqdn a) EmptyString
               = false).
  { apply andb_false_iff. destruct Hn as [Hn|Hn]; [left|right];
      apply String.eqb_neq; exact Hn. }
  rewrite E1, Hg, Hc. cbn [tl]. destruct (gss_acquire_cred round) as [[major1 minor1] h].
  change (negb (0 =? 0)) with false. cbn [andb]. change (0 =? 0) with true. cbv iota.
  rewrite Hi. change (negb (GSS_S_COMPLETE =? GSS_S_COMPLETE)) with false. cbv iota.
  rewrite Hs.
  assert (E3 : negb (major =? GSS_S_CONTINUE_NEEDED) && negb (major =? GSS_S_COMPLETE)
               = false) by (destruct Hm as [-> | ->]; reflexivity).
  rewrite E3. destruct tok as [|b tok]; [contradiction|].
  rewrite (send_raw_accepted _ c Hso Hlen). reflexivity.
Qed.


(** X27.  A challenge that is answered starts the next turn.  When a read
    holds a response that asks for [Negotiate] authentication, the host
    name is known, GSSAPI hands back a token and the socket takes the
    write, the loop of [send_handshake] sends the request again with the
    [Authorization] header and goes back to [recv_http] for the next
    response, with the rest of the GSSAPI script; without a host name it
    throws and sends nothing. *)
Theorem answered_challenge_reads_on (key req mess auth_type auth_msg : string)
    (a : auth_state) (c : client_pimpl) (rest : list recv_event)
    (round : gss_round) (rounds : list gss_round) (major minor minor2 : Z)
    (tok : list Z) (turns : nat) :
  open c = true ->
  sock_out c = [] ->
  sock_in c = RData (bytes_of_string mess) :: rest ->
  one_read mess ->
  handshake_turn key mess = Some (inr (Again (Some (auth_type, auth_msg)))) ->
  cred_handle a = 0 ->
  gss a = round :: rounds ->
  gss_import_name round = (GSS_S_COMPLETE, minor2) ->
  gss_init_sec_context round = (major, minor, tok) ->
  major = GSS_S_CONTINUE_NEEDED \/ major = GSS_S_COMPLETE ->
  tok <> [] ->
  Z.of_nat (length (authorized_request req auth_type tok)) <= MAX_RW_COUNT ->
  (fqdn a <> EmptyString ->
   handshake_loop (S turns) key req a c
   = handshake_loop turns key req (mk_auth_state (fqdn a) 0 rounds)
       (log (SendRaw (authorized_request req auth_type tok)) (set_sock_in rest c)))
  /\ (fqdn a = EmptyString ->
      auth_type = "Negotiate"%string ->
      handshake_loop (S turns) key req a c
      = Some (HandshakeThrew (HandshakeFailed (AuthFailed NoFqdn)), set_sock_in rest c)).
Proof.
  intros Ho Hso Hs Hm Ht Hc Hg Hi Hst Hmaj Htok Hlen.
  assert (Hr : recv_http c = Some (inr mess, set_sock_in rest c)).
  { pose proof (recv_http_one_read c mess [] rest Hm) as G.
    rewrite app_nil_r in G. exact (G Hs). }
  assert (Ho1 : open (set_sock_in rest c) = true) by (destruct c; exact Ho).
  assert (Hso1 : sock_out (set_sock_in rest c) = []) by (destruct c; exact Hso).
  split.
  - intros Hf. cbn [handshake_loop]. rewrite Hr, Ho1. cbn [negb]. rewrite Ht.
    rewrite (send_auth_response_answers auth_type auth_msg req a (set_sock_in rest c)
               round rounds major minor minor2 tok (or_intror Hf) Hc Hg Hi Hst Hmaj Htok
               Hso1 Hlen).
    reflexivity.
  - intros Hf ->. cbn [handshake_loop]. rewrite Hr, Ho1. cbn [negb]. rewrite Ht.
    unfold send_auth_response. rewrite Hf. reflexivity.
Qed.

(** A [Negotiate] challenge answered with the token GSSAPI hands back, then
    the accepted response of RFC 6455: the loop sends the second request
    and accepts the upgrade. *)
Lemma answered_challenge_reads_on_witness :
  handshake_loop 2 rfc_key "GET" (mk_auth_state "host" 0 [mk_gss_round (0, 0, 0) (0, 0) (1, 0, [1; 2; 3])])
    (connected op_text
       [RData (bytes_of_string
                 (response_text "HTTP/1.1" "401" "Unauthorized"
                    [("WWW-Authenticate"%string, "Negotiate"%string)]));
        RData (bytes_of_string (upgrade_response (upgrade_headers rfc_accept)))] [])
  = Some (HandshakeDone,
          mk_client true op_text [] true true [] []
            [SendRaw (bytes_of_string
                        ("GET" +:+ "Authorization: Negotiate AQID" +:+ CRLF +:+ CRLF))]).
Proof.
  etransitivity.
  - refine (proj1 (answered_challenge_reads_on rfc_key "GET"
              (response_text "HTTP/1.1" "401" "Unauthorized"
                 [("WWW-Authenticate"%string, "Negotiate"%string)])
              "Negotiate" EmptyString
              (mk_auth_state "host" 0 [mk_gss_round (0, 0, 0) (0, 0) (1, 0, [1; 2; 3])])
              (connected op_text
                 [RData (bytes_of_string
                           (response_text "HTTP/1.1" "401" "Unauthorized"
                              [("WWW-Authenticate"%string, "Negotiate"%string)]));
                  RData (bytes_of_string (upgrade_response (upgrade_headers rfc_accept)))]
                 [])
              [RData (bytes_of_string (upgrade_response (upgrade_headers rfc_accept)))]
              (mk_gss_round (0, 0, 0) (0, 0) (1, 0, [1; 2; 3])) [] 1 0 0 [1; 2; 3] 1
              _ _ _ _ _ _ _ _ _ _ _ _) _).
    + reflexivity.
    + reflexivity.
    + reflexivity.
    + split; [vm_compute; lia|]. eexists. split; vm_compute; reflexivity.
    + vm_compute. reflexivity.
    + reflexivity.
    + reflexivity.
    + reflexivity.
    + reflexivity.
    + left. reflexivity.
    + discriminate.
    + vm_compute. discriminate.
    + discriminate.
  - vm_compute. reflexivity.
Defined.

(** X20.  After an accepted handshake the thread starts on the byte behind
    the response.  When the request goes out and the first read holds an
    accepted response followed by [more] bytes (frames the server sent right
    away), the constructor's thread runs on a socket that still holds
    [more]: nothing the server sent behind the response is lost, and the
    outcome is that of the thread body on the object after the handshake. *)
Theorem ctor_hands_socket_to_thread (invalid : opcode) (path host : string) (port : Z)
    (key mess : string) (more : list Z) (rest : list recv_event) (a : auth_state)
    (c c1 : client_pimpl) :
  open c = true ->
  sock_in c = RData (bytes_of_string mess ++ more) :: rest ->
  one_read mess ->
  handshake_turn key mess = Some (inr Upgraded) ->
  send_raw (bytes_of_string (request path host port key +:+ CRLF)) c = (Val tt, c1) ->
  exists c2,
    thread_main invalid
      (set_sock_in (match more with [] => rest | _ => RData more :: rest end) c1)
    = Some c2
    /\ client_pimpl_ctor invalid path host port key a c = Some (HandshakeDone, c2).
Proof.
  intros Ho Hs Hm Ht Hsend.
  pose proof (send_raw_fields _ _ _ _ Hsend) as (Ho1 & Hs1).
  destruct (thread_main_total invalid
              (set_sock_in (match more with [] => rest | _ => RData more :: rest end) c1))
    as (c2 & Hc2).
  exists c2. split; [exact Hc2|].
  unfold client_pimpl_ctor, send_handshake_on_socket. rewrite Hsend.
  cbn [handshake_loop].
  rewrite (recv_http_one_read c1 mess more rest Hm) by congruence.
  replace (open (set_sock_in _ c1)) with (open c1) by (destruct c1; reflexivity).
  rewrite Ho1, Ho. cbn [negb]. rewrite Ht, Hc2. reflexivity.
Qed.

(** The accepted response of RFC 6455 with a text frame and a close frame
    behind it in the same read: the handler gets the text. *)
Lemma ctor_hands_socket_to_thread_witness :
  exists c2,
    thread_main op_continuation
      (set_sock_in [RData [0x81; 0x02; 0x48; 0x69; 0x88; 0x00]]
         (log (SendRaw (bytes_of_string (request "/chat" "example.com" 80 rfc_key +:+ CRLF)))
            (connected op_text
               [RData (bytes_of_string (upgrade_response (upgrade_headers rfc_accept))
                       ++ [0x81; 0x02; 0x48; 0x69; 0x88; 0x00])] [])))
    = Some c2
    /\ client_pimpl_ctor op_continuation "/chat" "example.com" 80 rfc_key
         (mk_auth_state "example.com" 0 [])
         (connected op_text
            [RData (bytes_of_string (upgrade_response (upgrade_headers rfc_accept))
                    ++ [0x81; 0x02; 0x48; 0x69; 0x88; 0x00])] [])
       = Some (HandshakeDone, c2).
Proof.
  refine (ctor_hands_socket_to_thread op_continuation "/chat" "example.com" 80 rfc_key
            (upgrade_response (upgrade_headers rfc_accept))
            [0x81; 0x02; 0x48; 0x69; 0x88; 0x00] []
            (mk_auth_state "example.com" 0 [])
            (connected op_text
               [RData (bytes_of_string (upgrade_response (upgrade_headers rfc_accept))
                       ++ [0x81; 0x02; 0x48; 0x69; 0x88; 0x00])] [])
            _ _ _ _ _ _).
  - reflexivity.
  - reflexivity.
  - split; [vm_compute; lia|]. eexists. split; vm_compute; reflexivity.
  - vm_compute. reflexivity.
  - reflexivity.
Defined.

Example ctor_session a :
  client_pimpl_ctor op_continuation "/chat" "example.com" 80 rfc_key a
    (connected op_text
       [RData (bytes_of_string (upgrade_response (upgrade_headers rfc_accept))
               ++ [0x81; 0x02; 0x48; 0x69; 0x88; 0x00])] [])
  = Some (HandshakeDone,
          mk_client false op_text [] true true [] []
            [SendRaw (bytes_of_string (request "/chat" "example.com" 80 rfc_key +:+ CRLF));
             Handler op_text [0x48; 0x69]; Disconnect None]).
Proof. vm_compute. reflexivity. Qed.

(** ** The trace as a function of the frames *)

(** What a message that is dispatched adds to the trace when the dispatch
    returns. *)
Lemma parse_ws_message_trace op payload c c' :
  parse_ws_message op payload c = (Val tt, c') ->
  msg_handler c' = msg_handler c
  /\ trace c'
     = trace c
       ++ (if op =? op_close then []
           else (if op =? op_ping
                 then [SendRaw (send_header op_pong (Z.of_nat (length payload)));
                       SendRaw payload]
                 else [])
                ++ (if msg_handler c then [Handler op payload] else [])).
Proof.
  unfold parse_ws_message. destruct (op =? op_close).
  - intros [= <-]. simpl. rewrite app_nil_r. auto.
  - unfold bind. destruct (op =? op_ping).
    + destruct (send payload op_pong c) as [[[]| |e] c1] eqn:Es; try discriminate.
      apply send_val in Es as (out & ->). destruct c as [o l b m d si so t].
      cbn [msg_handler log set_sock_out trace].
      destruct m; intros [= <-]; cbn [msg_handler log trace];
        rewrite <- ?app_assoc; split; reflexivity.
    + unfold ret. destruct c as [o l b m d si so t]. cbn [msg_handler].
      destruct m; intros [= <-]; cbn [msg_handler log trace app];
        rewrite ?app_nil_r; split; reflexivity.
Qed.

Lemma passes_trace invalid c fs c' :
  passes invalid c fs c' ->
  trace c' = trace c ++ events_of invalid (msg_handler c) fs (payloadbuf c) (last_opcode c).
Proof.
  induction 1 as [c|c f c1 c2 fs c3 Ho Hr Hh Hp IH].
  - simpl. rewrite app_nil_r. reflexivity.
  - apply read_frame_reads_only in Hr. apply reads_only_fields in Hr
      as (El & Eb & Em & _ & _ & Et).
    pose proof (handle_frame_state _ _ _ _ Hh) as (Hb & Hl).
    pose proof (handle_frame_cases _ _ _ _ _ Hh) as (_ & Hm & _).
    rewrite IH, Hb, Hl, Hm, Em, Eb, El. cbn [events_of].
    revert Hh. unfold handle_frame. destruct (fr_fin f); cbn [negb].
    + rewrite Eb, El.
      destruct (length (payloadbuf c) =? 0)%nat eqn:E0; cbn [negb].
      * intros Hh. apply parse_ws_message_trace in Hh as (_ & ->).
        apply Nat.eqb_eq in E0. destruct (payloadbuf c); [|discriminate].
        rewrite Et, Em, <- !app_assoc. reflexivity.
      * unfold bind, modify.
        destruct (parse_ws_message (last_opcode c) (payloadbuf c ++ fr_payload f) c1)
          as [[[]| |e] c0] eqn:Ep; intros [= <-].
        apply parse_ws_message_trace in Ep as (_ & Ep). cbn [trace set_payloadbuf].
        rewrite Ep, Et, Em, <- !app_assoc. reflexivity.
    + intros [= <-]. destruct (negb (fr_opcode f =? invalid)); simpl; rewrite Et;
        reflexivity.
Qed.

(** X21.  What the loop does is a function of the frames it decodes, in
    their order.  After any run of complete passes the trace has grown by
    exactly [events_of] of the frames: nothing for a frame without FIN; for
    a frame with FIN the pong (header, then payload) if the message is a
    ping, then the handler call with the message, if a handler is
    registered; and nothing for a close.  Replies and handler calls come in
    the order in which the messages are completed. *)
Theorem loop_trace_follows_frames (invalid : opcode) (c c' : client_pimpl)
    (fs : list frame) :
  passes invalid c fs c' ->
  trace c' = trace c ++ events_of invalid (msg_handler c) fs (payloadbuf c) (last_opcode c).
Proof. apply passes_trace. Qed.

(** A ping, the two fragments of a text message, and a pong, in one read. *)
Lemma four_frames_passes :
  passes op_continuation
    (connected op_binary
       [RData [0x89; 0x01; 0x07; 0x01; 0x01; 0x41; 0x80; 0x01; 0x42; 0x8a; 0x00]] [])
    [mk_frame true op_ping [0x07]; mk_frame false op_text [0x41];
     mk_frame true op_continuation [0x42]; mk_frame true op_pong []]
    (mk_client true op_text [] true true [] []
       [SendRaw [0x8a; 0x81; 0; 0; 0; 0]; SendRaw [0x07]; Handler op_ping [0x07];
        Handler op_text [0x41; 0x42]; Handler op_pong []]).
Proof.
  eapply passes_next; [reflexivity|vm_compute; reflexivity|vm_compute; reflexivity|].
  eapply passes_next; [reflexivity|vm_compute; reflexivity|vm_compute; reflexivity|].
  eapply passes_next; [reflexivity|vm_compute; reflexivity|vm_compute; reflexivity|].
  eapply passes_next; [reflexivity|vm_compute; reflexivity|vm_compute; reflexivity|].
  apply passes_done.
Qed.

Lemma loop_trace_follows_frames_witness :
  trace (mk_client true op_text [] true true [] []
           [SendRaw [0x8a; 0x81; 0; 0; 0; 0]; SendRaw [0x07]; Handler op_ping [0x07];
            Handler op_text [0x41; 0x42]; Handler op_pong []])
  = [] ++ [SendRaw [0x8a; 0x81; 0; 0; 0; 0]; SendRaw [0x07]; Handler op_ping [0x07];
           Handler op_text [0x41; 0x42]; Handler op_pong []].
Proof.
  exact (loop_trace_follows_frames op_continuation _ _ _ four_frames_passes).
Defined.

(** ** Any payload, and errors before the response *)

(** A string [send_raw] gets out whole is one a single [::send] takes. *)
Lemma send_raw_val_small s c c' :
  send_raw s c = (Val tt, c') -> Z.of_nat (length s) <= MAX_RW_COUNT.
Proof.
  intros H. destruct (Z.le_gt_cases (Z.of_nat (length s)) MAX_RW_COUNT) as [?|Hgt];
    [assumption|exfalso].
  apply send_count_big in Hgt.
  revert H. unfold send_raw.
  destruct (sock_out c) as [|[|n|err] out]; cbv beta iota zeta;
    try discriminate.
  - destruct (Nat.ltb_spec (send_count s) (length s)); [discriminate|lia].
  - destruct (Nat.ltb_spec (send_count s) (length s)); [discriminate|lia].
  - destruct (Nat.ltb_spec (Nat.min n (send_count s)) (length s)); [discriminate|lia].
Qed.

(** X22.  What [client::send] writes, the receive loop reads back, for
    every payload and every 4-bit opcode.  On a socket that takes every
    write [client::send] returns for every payload of at most
    [MAX_RW_COUNT] bytes, and on no socket does it return for a longer one.
    Whenever it returns, a pass of the receive loop over a socket that
    delivers the bytes it wrote, however they are cut into reads, decodes a
    frame with FIN, the same opcode and the same payload, and stops at the
    end of the frame. *)
Theorem roundtrip_every_length (payload : list Z) (op : opcode) (sender : client_pimpl) :
  0 <= op < 16 ->
  (sock_out sender = [] ->
   Z.of_nat (length payload) <= MAX_RW_COUNT ->
   exists sender', send payload op sender = (Val tt, sender'))
  /\ (MAX_RW_COUNT < Z.of_nat (length payload) ->
      forall sender', send payload op sender <> (Val tt, sender'))
  /\ (forall sender',
         send payload op sender = (Val tt, sender') ->
         exists sent,
           trace sender' = trace sender ++ sent
           /\ Forall is_send sent
           /\ forall c pre rest,
                open c = true ->
                sock_in c = pre ++ rest ->
                delivers pre (wire sent) ->
                exists pre',
                  read_frame c
                  = (Val (mk_frame true op payload), set_sock_in (pre' ++ rest) c)
                  /\ delivers pre' []).
Proof.
  intros Hop.
  assert (Small : forall sender',
             send payload op sender = (Val tt, sender') ->
             Z.of_nat (length payload) <= MAX_RW_COUNT).
  { intros sender' H. unfold send, bind in H.
    destruct (send_raw (send_header op (Z.of_nat (length payload))) sender)
      as [[[]| |e] c1]; try discriminate.
    exact (send_raw_val_small _ _ _ H). }
  split; [|split].
  - intros Hs Hl. eexists. apply send_accepted; assumption.
  - intros Hgt sender' H. apply Small in H. lia.
  - intros sender' H. pose proof (Small _ H) as Hl.
    exists [SendRaw (send_header op (Z.of_nat (length payload))); SendRaw payload].
    split; [|split; [repeat constructor|]].
    + apply send_val in H as [out ->]. simpl. rewrite <- app_assoc. reflexivity.
    + intros c pre rest Ho Hs Hd. rewrite wire_two in Hd.
      destruct (read_frame_sent op payload c pre rest) as (pre' & Hr & Hd');
        try assumption; [unfold MAX_RW_COUNT in Hl; lia|].
      rewrite <- Hs, set_sock_in_same in Hr. exists pre'. auto.
Qed.

(** A payload of 300 bytes, sent on a socket that takes every write and
    delivered in two reads that part inside the header. *)
Lemma roundtrip_every_length_witness :
  send (repeat 5 300) op_binary (connected op_text [] [])
  = (Val tt,
     mk_client true op_text [] true true [] []
       [SendRaw [0x82; 0xfe; 0x01; 0x2c; 0; 0; 0; 0]; SendRaw (repeat 5 300)])
  /\ exists pre',
       read_frame
         (connected op_text
            [RData [0x82; 0xfe; 0x01]; RData ([0x2c; 0; 0; 0; 0] ++ repeat 5 300)] [])
       = (Val (mk_frame true op_binary (repeat 5 300)),
          set_sock_in (pre' ++ [])
            (connected op_text
               [RData [0x82; 0xfe; 0x01]; RData ([0x2c; 0; 0; 0; 0] ++ repeat 5 300)] []))
       /\ delivers pre' [].
Proof.
  split; [reflexivity|].
  destruct (roundtrip_every_length (repeat 5 300) op_binary (connected op_text [] []))
    as (_ & _ & H); [unfold op_binary; lia|].
  destruct (H _ eq_refl) as (sent & Et & _ & Hd).
  apply (app_inv_head []) in Et. subst sent.
  apply (Hd (connected op_text
               [RData [0x82; 0xfe; 0x01]; RData ([0x2c; 0; 0; 0; 0] ++ repeat 5 300)] [])
            [RData [0x82; 0xfe; 0x01]; RData ([0x2c; 0; 0; 0; 0] ++ repeat 5 300)] []);
    [reflexivity|reflexivity|].
  exact (delivers_data 0x82 [0xfe; 0x01] _ _
           (delivers_data 0x2c ([0; 0; 0; 0] ++ repeat 5 300) _ _ delivers_nil)).
Defined.

(** X23.  Before the response is in, every socket error is fatal.  An
    error result of the peek in [recv_http] throws "recv 1 failed" whatever
    the error: would-block, which [recv] retries, and connection reset,
    which [recv] takes for a clean close, included. *)
Theorem recv_http_error_is_fatal (c : client_pimpl) (err : Z) (rest : list recv_event) :
  sock_in c = RErr err :: rest ->
  recv_http c = Some (inl (Recv1Failed err), set_sock_in rest c)
  /\ (forall key req a turns,
         handshake_loop (S turns) key req a c
         = Some (HandshakeThrew (Recv1Failed err), set_sock_in rest c))
  /\ (forall len,
         0 <= len ->
         recv len c
         = if err =? EWOULDBLOCK then recv len (set_sock_in rest c)
           else if err =? ECONNRESET
                then (Val [], set_open false (set_sock_in rest c))
                else (Throw (RecvFailed err), set_sock_in rest c)).
Proof.
  intros Hs.
  assert (Hr : recv_http c = Some (inl (Recv1Failed err), set_sock_in rest c)).
  { unfold recv_http. cbn [recv_http_loop]. rewrite Hs. reflexivity. }
  split; [exact Hr|]. split.
  - intros key req a turns. cbn [handshake_loop]. rewrite Hr. reflexivity.
  - intros len Hlen.
    pose proof (recv_meets len [] [] (RErr err) rest c delivers_nil) as G.
    cbn [app length] in G. rewrite G; [reflexivity| |exact Hs].
    apply recv_size_nonzero. exact Hlen.
Qed.

(** A would-block result as the first thing the socket reports. *)
Lemma recv_http_error_is_fatal_witness :
  recv_http (connected op_text [RErr EWOULDBLOCK; RData [0x88; 0x00]] [])
  = Some (inl (Recv1Failed EWOULDBLOCK), connected op_text [RData [0x88; 0x00]] [])
  /\ recv 2 (connected op_text [RErr EWOULDBLOCK; RData [0x88; 0x00]] [])
     = recv 2 (connected op_text [RData [0x88; 0x00]] []).
Proof.
  pose proof (recv_http_error_is_fatal
                (connected op_text [RErr EWOULDBLOCK; RData [0x88; 0x00]] [])
                EWOULDBLOCK [RData [0x88; 0x00]] eq_refl) as (H1 & _ & H3).
  split; [exact H1|]. apply (H3 2). lia.
Defined.

(** ** From the bytes of the stream to the trace *)

(** The payload of a frame is no longer than the frame. *)
Lemma length_frame_payload bs : (length (fr_payload (frame_of bs)) <= length bs)%nat.
Proof.
  unfold frame_of. cbn [fr_payload].
  assert (U : forall k p, length (unmask k p) = length p).
  { intros k p. unfold unmask. apply length_imap. }
  assert (T : forall n m, (length (take n (drop m bs)) <= length bs)%nat).
  { intros n m. rewrite length_take, length_drop. lia. }
  repeat case_match; rewrite ?U; try apply T; simpl; lia.
Qed.

(** A reassembly step on a socket that takes every write, for a message
    that is not a close and is not too long for a pong: it returns and
    leaves [open] and the outbound script alone. *)
Lemma handle_frame_returns invalid f c :
  sock_out c = [] ->
  Z.of_nat (length (payloadbuf c) + length (fr_payload f)) <= MAX_RW_COUNT ->
  (fr_fin f = true ->
   (if (length (payloadbuf c) =? 0)%nat then fr_opcode f else last_opcode c) <> op_close) ->
  exists c', handle_frame invalid f c = (Val tt, c')
             /\ open c' = open c /\ sock_out c' = [].
Proof.
  intros Hso Hlen Hop.
  assert (P : forall op payload c0, sock_out c0 = [] -> op <> op_close ->
             Z.of_nat (length payload) <= MAX_RW_COUNT ->
             exists c', parse_ws_message op payload c0 = (Val tt, c')
                        /\ open c' = open c0 /\ sock_out c' = []).
  { clear. intros op payload c0 Hso Hop Hlen. unfold parse_ws_message.
    destruct (Z.eqb_spec op op_close) as [?|_]; [contradiction|].
    unfold bind, ret.
    destruct (op =? op_ping).
    - rewrite (send_accepted payload op_pong c0 Hso Hlen).
      destruct c0 as [o l b m d si so t]. simpl in Hso. subst so.
      cbn [sock_out log msg_handler].
      destruct m; eexists; split; try reflexivity; split; reflexivity.
    - destruct (msg_handler c0); eexists; (split; [reflexivity|]);
        destruct c0; simpl in *; auto. }
  unfold handle_frame. destruct (fr_fin f); cbn [negb].
  - specialize (Hop eq_refl).
    destruct (length (payloadbuf c) =? 0)%nat; cbn [negb].
    + apply P; [assumption|assumption|lia].
    + unfold bind, modify.
      destruct (P (last_opcode c) (payloadbuf c ++ fr_payload f) c Hso Hop)
        as (c1 & -> & Ho & Hs); [rewrite length_app; lia|].
      eexists. split; [reflexivity|]. destruct c1; simpl in *; auto.
  - eexists. split; [reflexivity|].
    destruct (negb (fr_opcode f =? invalid)); destruct c; simpl in *; auto.
Qed.

(** What the passes over a stream of whole frames need to go through: the
    object is open, its socket takes every write, no message in the
    stream is a close, and no message is too long for a pong. *)
Lemma stream_step invalid :
  forall c pre ch more rest,
  open c = true -> sock_out c = [] -> last_opcode c <> op_close ->
  is_frame ch ->
  fr_opcode (frame_of ch) <> op_close ->
  Z.of_nat (length (payloadbuf c) + length (ch ++ more)) <= MAX_RW_COUNT ->
  delivers pre (ch ++ more) -> sock_in c = pre ++ REof :: rest ->
  exists pre' c1 c2,
    read_frame c = (Val (frame_of ch), c1)
    /\ handle_frame invalid (frame_of ch) c1 = (Val tt, c2)
    /\ open c2 = true /\ sock_out c2 = [] /\ last_opcode c2 <> op_close
    /\ Z.of_nat (length (payloadbuf c2) + length more) <= MAX_RW_COUNT
    /\ delivers pre' more
    /\ sock_in c2 = pre' ++ REof :: rest.
Proof.
  intros c pre ch more rest Ho Hso Hl Hf Hcl Hlen Hd Hs.
  destruct (read_frame_whole c pre ch more (REof :: rest) Ho Hf Hd Hs)
    as (pre' & Hr & Hd').
  set (c1 := set_sock_in (pre' ++ REof :: rest) c) in *.
  assert (E1 : open c1 = true /\ sock_out c1 = [] /\ last_opcode c1 = last_opcode c
               /\ sock_in c1 = pre' ++ REof :: rest /\ payloadbuf c1 = payloadbuf c).
  { unfold c1. destruct c; simpl in *. auto. }
  destruct E1 as (Ho1 & Hso1 & Hl1 & Hs1 & Hb1).
  pose proof (length_frame_payload ch) as Hp.
  rewrite length_app in Hlen.
  destruct (handle_frame_returns invalid (frame_of ch) c1 Hso1) as (c2 & Hh & Ho2 & Hso2).
  { rewrite Hb1. lia. }
  { intros _. destruct (length (payloadbuf c1) =? 0)%nat; congruence. }
  exists pre', c1, c2. split; [exact Hr|]. split; [exact Hh|].
  split; [congruence|]. split; [exact Hso2|].
  pose proof (handle_frame_state _ _ _ _ Hh) as (Eb & El).
  split; [|split; [|split; [exact Hd'|]]].
  - rewrite El. destruct (fr_fin (frame_of ch)); [congruence|].
    destruct (fr_opcode (frame_of ch) =? invalid); congruence.
  - rewrite Eb. destruct (fr_fin (frame_of ch)); [simpl; lia|].
    rewrite length_app, Hb1. lia.
  - apply handle_frame_sock_in in Hh. congruence.
Qed.

(** The passes of the loop over a stream of frames that ends: they decode
    the frames of the stream, one after the other, and the last pass meets
    the end of the stream. *)
Lemma stream_passes invalid c fs c1 :
  passes invalid c fs c1 ->
  forall pre chunks tail missing rest r c',
    open c = true ->
    sock_out c = [] ->
    last_opcode c <> op_close ->
    Forall is_frame chunks ->
    Forall (fun ch => fr_opcode (frame_of ch) <> op_close) chunks ->
    is_frame (tail ++ missing) ->
    missing <> [] ->
    Z.of_nat (length (payloadbuf c) + length (concat chunks ++ tail)) <= MAX_RW_COUNT ->
    delivers pre (concat chunks ++ tail) ->
    sock_in c = pre ++ REof :: rest ->
    last_pass invalid c1 r c' ->
    fs = map frame_of chunks /\ r = Val tt /\ c' = set_open false (set_sock_in rest c1).
Proof.
  induction 1 as [c|c f c1 c2 fs c3 Ho Hr Hh Hp IH];
    intros pre chunks tail missing rest r c' Ho' Hso Hl F Fc Ht Hm Hlen Hd Hs Hlast.
  - destruct chunks as [|ch chunks].
    + cbn [concat app] in Hd.
      assert (Hr : read_frame c = (Break, set_open false (set_sock_in rest c))).
      { pose proof (read_frame_stops c pre tail REof rest None Ho' Hd
                      (frame_needs_cut tail missing Ht Hm) eq_refl) as G.
        rewrite <- Hs, set_sock_in_same in G. exact G. }
      assert (Hpass : recv_thread_pass invalid c
                      = (Break, set_open false (set_sock_in rest c))).
      { unfold recv_thread_pass, bind. rewrite Hr. reflexivity. }
      destruct Hlast as [(Hc & _)|(_ & [(Hb & ->)|(e & Hb & _)])]; [congruence| |congruence].
      rewrite Hpass in Hb. injection Hb as <-. auto.
    + exfalso. apply Forall_cons in F as [Hf F]. apply Forall_cons in Fc as [Hcl Fc].
      cbn [concat] in Hd, Hlen. rewrite <- app_assoc in Hd, Hlen.
      destruct (stream_step invalid c pre ch _ rest Ho' Hso Hl Hf Hcl Hlen Hd Hs)
        as (pre' & c1 & c2 & Hr & Hh & _).
      assert (Hpass : recv_thread_pass invalid c = (Val tt, c2)).
      { unfold recv_thread_pass, bind. rewrite Hr. exact Hh. }
      destruct Hlast as [(Hc & _)|(_ & [(Hb & _)|(e & Hb & _)])]; congruence.
  - destruct chunks as [|ch chunks].
    + exfalso. cbn [concat app] in Hd.
      pose proof (read_frame_stops c pre tail REof rest None Ho' Hd
                    (frame_needs_cut tail missing Ht Hm) eq_refl) as G.
      rewrite <- Hs, set_sock_in_same in G. congruence.
    + apply Forall_cons in F as [Hf F]. apply Forall_cons in Fc as [Hcl Fc].
      cbn [concat] in Hd, Hlen. rewrite <- app_assoc in Hd, Hlen.
      destruct (stream_step invalid c pre ch _ rest Ho' Hso Hl Hf Hcl Hlen Hd Hs)
        as (pre' & c1' & c2' & Hr' & Hh' & Ho2 & Hso2 & Hl2 & Hlen2 & Hd' & Hs2).
      rewrite Hr in Hr'. injection Hr' as -> ->.
      rewrite Hh in Hh'. injection Hh' as ->.
      destruct (IH pre' chunks tail missing rest r c' Ho2 Hso2 Hl2 F Fc Ht Hm Hlen2 Hd'
                  Hs2 Hlast) as (-> & -> & ->).
      auto.
Qed.

(** X24.  From the bytes of the stream to the calls of the handler.  On a
    socket that takes every write, a stream of frames, each announcing a
    payload shorter than 2^32 bytes and none of them a close frame,
    followed by the first bytes of one more frame and then the end of the
    stream, is dispatched frame by frame as long as no message outgrows
    what one [::send] takes: the thread decodes the frames, whatever the
    reads that deliver them, adds to the trace what [events_of] gives for
    these frames, in order, drops the bytes of the last, incomplete frame,
    and ends with the disconnect callback without an error. *)
Theorem stream_of_frames_is_dispatched (invalid : opcode) (c : client_pimpl)
    pre (chunks : list (list Z)) (tail missing : list Z) rest :
  open c = true ->
  sock_out c = [] ->
  last_opcode c <> op_close ->
  Forall is_frame chunks ->
  Forall (fun ch => fr_opcode (frame_of ch) <> op_close) chunks ->
  is_frame (tail ++ missing) ->
  missing <> [] ->
  Z.of_nat (length (payloadbuf c) + length (concat chunks ++ tail)) <= MAX_RW_COUNT ->
  delivers pre (concat chunks ++ tail) ->
  sock_in c = pre ++ REof :: rest ->
  exists c',
    thread_main invalid c = Some c'
    /\ open c' = false
    /\ sock_in c' = rest
    /\ trace c'
       = trace c
         ++ events_of invalid (msg_handler c) (map frame_of chunks)
              (payloadbuf c) (last_opcode c)
         ++ (if disconn_handler c then [Disconnect None] else []).
Proof.
  intros Ho Hso Hl F Fc Ht Hm Hlen Hd Hs.
  destruct (recv_thread_total invalid c) as (r & c0 & Hr).
  pose proof (recv_thread_loop_passes _ _ _ _ _ Hr) as (fs & c1 & Hp & Hlast).
  pose proof (recv_thread_loop_events _ _ _ _ _ Hr) as (_ & Ed & _).
  destruct (stream_passes invalid c fs c1 Hp pre chunks tail missing rest r c0
              Ho Hso Hl F Fc Ht Hm Hlen Hd Hs Hlast)
    as (-> & -> & ->).
  pose proof (passes_trace _ _ _ _ Hp) as Et.
  assert (Ed' : disconn_handler (set_open false (set_open false (set_sock_in rest c1)))
                = disconn_handler c) by (rewrite <- Ed; destruct c1; reflexivity).
  unfold thread_main. rewrite Hr. eexists. split; [reflexivity|].
  cbv zeta. rewrite Ed'.
  destruct (disconn_handler c);
    (split; [destruct c1; reflexivity|]); (split; [destruct c1; reflexivity|]);
    destruct c1; simpl in *; rewrite Et, ?app_nil_r, <- ?app_assoc; reflexivity.
Qed.

(** A ping, a text message in two fragments, and the first byte of a
    fourth frame, in two reads; then the stream ends. *)
Lemma stream_of_frames_is_dispatched_witness :
  exists c',
    thread_main op_continuation
      (connected op_binary
         [RData [0x89; 0x01; 0x07; 0x01; 0x01; 0x41]; RData [0x80; 0x01; 0x42; 0x8a]; REof] [])
    = Some c'
    /\ open c' = false
    /\ sock_in c' = []
    /\ trace c'
       = [] ++ [SendRaw [0x8a; 0x81; 0; 0; 0; 0]; SendRaw [0x07]; Handler op_ping [0x07];
                Handler op_text [0x41; 0x42]]
         ++ [Disconnect None].
Proof.
  refine (stream_of_frames_is_dispatched op_continuation
            (connected op_binary
               [RData [0x89; 0x01; 0x07; 0x01; 0x01; 0x41]; RData [0x80; 0x01; 0x42; 0x8a];
                REof] [])
            [RData [0x89; 0x01; 0x07; 0x01; 0x01; 0x41]; RData [0x80; 0x01; 0x42; 0x8a]]
            [[0x89; 0x01; 0x07]; [0x01; 0x01; 0x41]; [0x80; 0x01; 0x42]] [0x8a] [0x00] []
            _ _ _ _ _ _ _ _ _ _).
  - reflexivity.
  - reflexivity.
  - discriminate.
  - repeat constructor; vm_compute; reflexivity.
  - repeat constructor; discriminate.
  - split; vm_compute; reflexivity.
  - discriminate.
  - vm_compute. discriminate.
  - exact (delivers_data 0x89 [0x01; 0x07; 0x01; 0x01; 0x41] _ _
             (delivers_data 0x80 [0x01; 0x42; 0x8a] [] [] delivers_nil)).
  - reflexivity.
Defined.

(** * Connecting *)

Lemma try_addresses_refused failed :
  forall ais wsa_error e,
    Forall refuses failed ->
    try_addresses (failed ++ ais) wsa_error e
    = match failed with
      | [] => try_addresses ais wsa_error e
      | _ :: _ =>
          try_addresses ais (ai_connect_errno (List.last failed (mk_addrinfo 0 0 0 0 None)))
            (mk_endpoint (-1) (ep_fqdn e) (ep_open e)
               (ep_calls e ++ refused_calls failed))
      end.
Proof.
  induction failed as [|ai failed IH]; intros ais wsa_error e F; [reflexivity|].
  apply Forall_cons in F as [[Hs Hc] F].
  cbn [app try_addresses].
  destruct (Z.eqb_spec (ai_socket ai) (-1)) as [?|_]; [contradiction|].
  rewrite Hc. change (-1 =? -1) with true. cbv iota.
  rewrite (IH ais _ _ F). destruct failed as [|ai2 failed].
  - unfold refused_calls, set_sock, called. simpl. rewrite <- app_assoc. reflexivity.
  - unfold refused_calls, set_sock, called. cbn [ep_fqdn ep_open ep_calls flat_map].
    rewrite <- !app_assoc. reflexivity.
Qed.

(** X25.  [open_connexion] connects to the first address that accepts, and
    gives back what it took.  The addresses are tried in the order
    [getaddrinfo] returns them.  Behind addresses that refuse the
    connection: an address that accepts ends the search, with [open] set,
    its socket kept, and the host name taken from it if [getnameinfo] finds
    one; an address for which [socket] fails ends it with "socket failed"
    and no further address is tried; and when every address refuses, the
    function throws "Could not connect" with the error of the last one.  In
    each case every socket that was opened for an address that refused has
    been closed again, and [freeaddrinfo] is called exactly once. *)
Theorem open_connexion_tries_in_order (failed : list addrinfo) (e : endpoint) :
  Forall refuses failed ->
  (forall ai rest,
      ai_socket ai <> -1 -> ai_connect ai <> -1 ->
      open_connexion (Some (failed ++ ai :: rest)) e
      = (None,
         mk_endpoint (ai_socket ai) (default (ep_fqdn e) (ai_hostname ai)) true
           (ep_calls e ++ refused_calls failed
            ++ [OsSocket (ai_socket ai); OsFreeaddrinfo])))
  /\ (forall ai rest,
         ai_socket ai = -1 ->
         open_connexion (Some (failed ++ ai :: rest)) e
         = (Some (SocketFailed (ai_socket_errno ai)),
            mk_endpoint (-1) (ep_fqdn e) (ep_open e)
              (ep_calls e ++ refused_calls failed ++ [OsFreeaddrinfo])))
  /\ (forall ai,
         refuses ai ->
         open_connexion (Some (failed ++ [ai])) e
         = (Some (CouldNotConnect (ai_connect_errno ai)),
            mk_endpoint (-1) (ep_fqdn e) (ep_open e)
              (ep_calls e ++ refused_calls (failed ++ [ai]) ++ [OsFreeaddrinfo]))).
Proof.
  intros F. split; [|split].
  - intros ai rest Hs Hc. unfold open_connexion.
    rewrite (try_addresses_refused failed (ai :: rest) 0 e F).
    assert (G : forall w e0,
               try_addresses (ai :: rest) w e0
               = (None, w,
                  mk_endpoint (ai_socket ai) (default (ep_fqdn e0) (ai_hostname ai))
                    (ep_open e0) (ep_calls e0 ++ [OsSocket (ai_socket ai)]))).
    { intros w e0. cbn [try_addresses].
      destruct (Z.eqb_spec (ai_socket ai) (-1)) as [?|_]; [contradiction|].
      destruct (Z.eqb_spec (ai_connect ai) (-1)) as [?|_]; [contradiction|].
      destruct (ai_hostname ai); reflexivity. }
    destruct failed as [|a failed]; rewrite G; unfold called, refused_calls;
      cbn [ep_sock ep_fqdn ep_open ep_calls flat_map app];
      (destruct (Z.eqb_spec (ai_socket ai) (-1)) as [?|_]; [contradiction|]);
      rewrite <- ?app_assoc; reflexivity.
  - intros ai rest Hs. unfold open_connexion.
    rewrite (try_addresses_refused failed (ai :: rest) 0 e F).
    destruct failed as [|a failed]; cbn [try_addresses]; rewrite Hs;
      change (-1 =? -1) with true; cbv iota;
      unfold called, set_sock, refused_calls;
      cbn [ep_sock ep_fqdn ep_open ep_calls flat_map app];
      rewrite <- ?app_assoc; reflexivity.
  - intros ai Hr. unfold open_connexion.
    assert (F' : Forall refuses (failed ++ [ai])).
    { apply Forall_app. split; [exact F|]. constructor; [exact Hr|constructor]. }
    pose proof (try_addresses_refused (failed ++ [ai]) [] 0 e F') as G.
    rewrite app_nil_r in G. rewrite G.
    destruct (failed ++ [ai]) as [|a l] eqn:E; [destruct failed; discriminate|].
    rewrite <- E, last_last. cbn [try_addresses]. unfold called.
    cbn [ep_sock ep_fqdn ep_open ep_calls].
    change (-1 =? -1) with true. cbv iota. rewrite <- app_assoc. reflexivity.
Qed.

(** Two addresses that refuse and a third that accepts. *)
Lemma open_connexion_tries_in_order_witness :
  open_connexion
    (Some ([mk_addrinfo 3 0 (-1) 111 None; mk_addrinfo 4 0 (-1) 113 None]
           ++ mk_addrinfo 5 0 0 0 (Some "example.com"%string) :: []))
    (mk_endpoint (-1) EmptyString false [])
  = (None,
     mk_endpoint 5 "example.com" true
       ([] ++ [OsSocket 3; OsClose 3; OsSocket 4; OsClose 4]
        ++ [OsSocket 5; OsFreeaddrinfo])).
Proof.
  refine (proj1 (open_connexion_tries_in_order
                   [mk_addrinfo 3 0 (-1) 111 None; mk_addrinfo 4 0 (-1) 113 None]
                   (mk_endpoint (-1) EmptyString false []) _)
            (mk_addrinfo 5 0 0 0 (Some "example.com"%string)) [] _ _).
  - repeat constructor; discriminate.
  - discriminate.
  - discriminate.
Defined.
